(** * Nim game-tree search: a shallow embedding of [Nim_Game.py]

    The development follows the "Game Logic" and "MCTS" parts of the
    program: the pile model and the move generator, the two exact
    solvers ([minimax], [minimax_ab]) and the Monte Carlo tree search
    with its node objects kept in an arena. It then follows the event
    loops of the menu ([draw_ai_menu]) and of the game ([game_loop]),
    which call the solvers, with the buttons they react to. *)

From Stdlib Require Import ZArith List Bool Lia.
From Stdlib Require SpecFloat.
From stdpp Require Import base tactics option list numbers sorting.

Local Open Scope Z_scope.

(** ** Numbers

    The solvers mix Python [int]s (the utilities) with the two floats
    [-math.inf] and [math.inf]; comparisons between them are the usual
    ones on the extended integers. *)

Inductive number : Type :=
  | NegInf : number
  | Int (z : Z) : number
  | PosInf : number.

(** [a < b] on Python numbers. *)
Definition num_ltb (a b : number) : bool :=
  match a, b with
  | NegInf, NegInf => false
  | NegInf, _ => true
  | Int _, NegInf => false
  | Int x, Int y => x <? y
  | Int _, PosInf => true
  | PosInf, _ => false
  end.

(** [a <= b] on Python numbers. *)
Definition num_leb (a b : number) : bool := negb (num_ltb b a).

(** The builtin [max(a, b)]: the first argument unless the second is
    strictly greater. *)
Definition num_max (a b : number) : number := if num_ltb a b then b else a.

(** The builtin [min(a, b)]: the first argument unless the second is
    strictly smaller. *)
Definition num_min (a b : number) : number := if num_ltb b a then b else a.

(** ** State and move model *)

(** A move is [(pile index, count taken)]; a successor also carries the
    resulting state. *)
Definition move : Type := nat * Z.
Definition successor : Type := nat * Z * list Z.

(** [range(lo, hi)]. *)
Definition range (lo hi : Z) : list Z := seqZ lo (hi - lo).

(** [enumerate(l)]. *)
Definition enumerate {A : Type} (l : list A) : list (nat * A) := imap pair l.

(** [all(h == 0 for h in state)]. *)
Definition is_terminal (state : list Z) : bool :=
  forallb (λ h, h =? 0) state.

(** [-1 if maximizing else 1 if is_terminal(state) else 0]: Python's
    conditional expression associates to the right, so the terminal test
    sits in the [else] branch of the test on [maximizing]. *)
Definition utility (state : list Z) (maximizing : bool) : Z :=
  if maximizing then -1 else (if is_terminal state then 1 else 0).

(** The two nested [for] loops of [get_successors]; [new_state] is a
    copy of [state] whose entry [i] is decremented by [take]. *)
Definition get_successors (state : list Z) : list successor :=
  '(i, cnt) ← enumerate state;
  take ← range 1 (cnt + 1);
  let new_state := alter (λ c, c - take) i state in
  [(i, take, new_state)].

(** ** The move generator on list objects

    Python lists are objects: [state.copy()] makes a new one and
    [new_state[i] -= take] writes into it. The object store is the list
    of the list objects made so far; a reference is a position in it.
    Lemma [get_successors_obj_spec] relates this reading of
    [get_successors] to the pure one above, which the solvers use. *)

Abbreviation store := (list (list Z)).

(** [for x in xs: body], the body threading the loop state and failing
    on an error. *)
Fixpoint for_each {A S : Type} (body : S → A → option S) (xs : list A) (s : S)
    : option S :=
  match xs with
  | [] => Some s
  | x :: rest => s' ← body s x; for_each body rest s'
  end.

(** [state.copy()]: a new object with the items of [r]. *)
Definition list_copy (h : store) (r : nat) : option (store * nat) :=
  l ← h !! r; Some (h ++ [l], length h).

(** [new_state[i] -= take]: the item is read, then written back. *)
Definition list_isub (h : store) (r i : nat) (take : Z) : option store :=
  l ← h !! r; c ← l !! i; Some (<[r := <[i := c - take]> l]> h).

(** The body of the inner loop. *)
Definition successor_step (st_ref i : nat) (acc : store * list (nat * Z * nat))
    (take : Z) : option (store * list (nat * Z * nat)) :=
  '(h, new_state) ← list_copy acc.1 st_ref;
  h ← list_isub h new_state i take;
  Some (h, acc.2 ++ [(i, take, new_state)]).

(** The body of the outer loop: [cnt] is read from the object [state]
    when the loop reaches pile [i]. *)
Definition successor_pile (st_ref : nat) (acc : store * list (nat * Z * nat))
    (i : nat) : option (store * list (nat * Z * nat)) :=
  l ← acc.1 !! st_ref; cnt ← l !! i;
  for_each (successor_step st_ref i) (range 1 (cnt + 1)) acc.

(** [get_successors] on objects: the new store and the list [moves],
    whose third components are references. The outer loop runs over the
    positions [state] has when the call starts; the items are read as
    the loop goes. *)
Definition get_successors_obj (h : store) (st_ref : nat)
    : option (store * list (nat * Z * nat)) :=
  l ← h !! st_ref;
  for_each (successor_pile st_ref) (seq 0 (length l)) (h, []).

(** [sum(state)], the total token count. *)
Definition total (state : list Z) : Z := foldr Z.add 0 state.

(** The number of tokens that can still be taken: the termination
    measure of the searches. It is [total] on non-negative states. *)
Definition tokens (state : list Z) : nat := Z.to_nat (foldr (λ h acc, Z.max h 0 + acc) 0 state).

(** Applying a move to a state, as the caller does ([state[i] -= t]). *)
Definition apply_move (state : list Z) (m : move) : list Z :=
  alter (λ c, c - m.2) m.1 state.

(** ** Exact minimax *)

Definition solution : Type := number * option move.

Section minimax_body.
(** The recursive call, taken as a parameter. *)
Context (rec : list Z → bool → option solution).

(** The [for] loop of [minimax], from the successors still to visit
    and the current [best_val], [best_move]. *)
Fixpoint minimax_loop (maximizing : bool) (succs : list successor)
    (best_val : number) (best_move : option move) : option solution :=
  match succs with
  | [] => Some (best_val, best_move)
  | (i, take, new_state) :: rest =>
      match rec new_state (negb maximizing) with
      | None => None
      | Some (val, _) =>
          if (maximizing && num_ltb best_val val)
             || (negb maximizing && num_ltb val best_val)
          then minimax_loop maximizing rest val (Some (i, take))
          else minimax_loop maximizing rest best_val best_move
      end
  end.
End minimax_body.

(** [minimax] with a bound on the recursion depth; [None] means the
    bound was reached. *)
Fixpoint minimax_fuel (fuel : nat) (state : list Z) (maximizing : bool)
    : option solution :=
  match fuel with
  | O => None
  | S fuel' =>
      if is_terminal state then Some (Int (utility state maximizing), None)
      else
        let '(best_val, best_move) :=
          if maximizing then (NegInf, None) else (PosInf, None) in
        minimax_loop (minimax_fuel fuel') maximizing
          (get_successors state) best_val best_move
  end.

(** Every recursive call removes at least one token, so a depth of
    [tokens state + 1] is never reached (lemma [minimax_fuel_enough]). *)
Definition minimax (state : list Z) (maximizing : bool) : option solution :=
  minimax_fuel (S (tokens state)) state maximizing.

(** ** Alpha-beta *)

Section minimax_ab_body.
Context (rec : list Z → number → number → bool → option solution).

(** The loop of the maximizing branch. *)
Fixpoint ab_max_loop (succs : list successor) (alpha beta : number)
    (value : number) (best_move : option move) : option solution :=
  match succs with
  | [] => Some (value, best_move)
  | (i, take, new_state) :: rest =>
      match rec new_state alpha beta false with
      | None => None
      | Some (val, _) =>
          let '(value, best_move) :=
            if num_ltb value val then (val, Some (i, take))
            else (value, best_move) in
          let alpha := num_max alpha value in
          if num_leb beta alpha then Some (value, best_move)
          else ab_max_loop rest alpha beta value best_move
      end
  end.

(** The loop of the minimizing branch. *)
Fixpoint ab_min_loop (succs : list successor) (alpha beta : number)
    (value : number) (best_move : option move) : option solution :=
  match succs with
  | [] => Some (value, best_move)
  | (i, take, new_state) :: rest =>
      match rec new_state alpha beta true with
      | None => None
      | Some (val, _) =>
          let '(value, best_move) :=
            if num_ltb val value then (val, Some (i, take))
            else (value, best_move) in
          let beta := num_min beta value in
          if num_leb beta alpha then Some (value, best_move)
          else ab_min_loop rest alpha beta value best_move
      end
  end.
End minimax_ab_body.

Fixpoint minimax_ab_fuel (fuel : nat) (state : list Z) (alpha beta : number)
    (maximizing : bool) : option solution :=
  match fuel with
  | O => None
  | S fuel' =>
      if is_terminal state then Some (Int (utility state maximizing), None)
      else if maximizing
      then ab_max_loop (minimax_ab_fuel fuel') (get_successors state)
             alpha beta NegInf None
      else ab_min_loop (minimax_ab_fuel fuel') (get_successors state)
             alpha beta PosInf None
  end.

Definition minimax_ab (state : list Z) (alpha beta : number)
    (maximizing : bool) : option solution :=
  minimax_ab_fuel (S (tokens state)) state alpha beta maximizing.

(** ** Monte Carlo tree search *)

(** The exceptions the search can raise. [ValueError] is raised both by
    [math.log] / [math.sqrt] outside their domain and by [max] on an
    empty sequence; the two are kept apart. *)
Inductive exn : Type :=
  | ZeroDivisionError
  | MathDomainError
  | EmptyMaxError
  | IndexError.

(** The outcome of running a piece of the search: a value, a Python
    exception, or [Stuck] when the model itself cannot go on (a loop
    bound is reached or a node id is not in the arena). The last case
    is shown never to happen. *)
Inductive outcome (A : Type) : Type :=
  | Ok (a : A)
  | Raise (e : exn)
  | Stuck.
Arguments Ok {A} a.
Arguments Raise {A} e.
Arguments Stuck {A}.

#[global] Instance outcome_ret : MRet outcome := λ A a, Ok a.
#[global] Instance outcome_bind : MBind outcome := λ A B f m,
  match m with
  | Ok a => f a
  | Raise e => Raise e
  | Stuck => Stuck
  end.

(** The random source: the stream of raw draws still to come. *)
Definition rng : Type := nat → nat.

Definition rng_next (g : rng) : rng := λ n, g (S n).

(** [random.choice(seq)]: [IndexError] on an empty sequence, otherwise
    the element at a drawn index below [len(seq)]. *)
Definition random_choice {A : Type} (seq : list A) (g : rng) : outcome (A * rng) :=
  match seq !! (g 0%nat `mod` length seq)%nat with
  | Some x => Ok (x, rng_next g)
  | None => Raise IndexError
  end.

(** The builtin [max(seq, key=...)]: the first element whose key is
    maximal; the keys are computed in order, once per element. *)
Section py_max.
Context {A K : Type} (ltb : K → K → bool) (key : A → outcome K).

Fixpoint py_max_from (seq : list A) (best : A) (best_key : K) : outcome A :=
  match seq with
  | [] => Ok best
  | x :: rest =>
      k ← key x;
      if ltb best_key k then py_max_from rest x k
      else py_max_from rest best best_key
  end.

Definition py_max (seq : list A) : outcome A :=
  match seq with
  | [] => Raise EmptyMaxError
  | x :: rest => k ← key x; py_max_from rest x k
  end.
End py_max.

(** [list.pop()]: the last element and the list without it. *)
Definition pop {A : Type} (l : list A) : option (A * list A) :=
  match reverse l with
  | x :: rest => Some (x, reverse rest)
  | [] => None
  end.

(** A search node. Nodes are objects that refer to each other; they
    live in an arena (a list of nodes) and [parent] and [children] hold
    positions in it. *)
Record MCTSNode : Type := mkNode {
  state : list Z;
  parent : option nat;
  children : list nat;
  wins : Z;
  visits : Z;
  untried_moves : list successor
}.

(** [MCTSNode.__init__]. *)
Definition new_node (st : list Z) (par : option nat) : MCTSNode :=
  {| state := st; parent := par; children := []; wins := 0; visits := 0;
     untried_moves := get_successors st |}.

(** Reading the node object behind an id. *)
Definition get (tree : list MCTSNode) (id : nat) : outcome MCTSNode :=
  match tree !! id with
  | Some n => Ok n
  | None => Stuck
  end.

(** [simulate]: the rollout loop, bounded by [fuel] steps. *)
Fixpoint simulate_loop (fuel : nat) (current : list Z) (maximizing : bool)
    (g : rng) : outcome (Z * rng) :=
  match fuel with
  | O => Stuck
  | S fuel' =>
      if negb (is_terminal current) then
        '((_, take, next_state), g) ← random_choice (get_successors current) g;
        simulate_loop fuel' next_state (negb maximizing) g
      else Ok (utility current (negb maximizing), g)
  end.

Definition simulate (st : list Z) (g : rng) : outcome (Z * rng) :=
  simulate_loop (S (tokens st)) st true g.

Section mcts.
(** The UCB1 score is a floating-point expression; where it is
    defined its value is [ucb1 wins visits parent_visits], and scores
    are compared by [key_ltb]. The search is modelled for every such
    pair. *)
Context {K : Type} (key_ltb : K → K → bool) (ucb1 : Z → Z → Z → K).

(** The key of [uct_select] at child [c] of [self]:
    [c.wins / c.visits + math.sqrt(2 * math.log(self.visits) / c.visits)]. *)
Definition uct_key (tree : list MCTSNode) (self : MCTSNode) (c : nat)
    : outcome K :=
  cn ← get tree c;
  if visits cn =? 0 then Raise ZeroDivisionError
  else if visits self <=? 0 then Raise MathDomainError
  else if (visits cn <? 0) && (1 <? visits self) then Raise MathDomainError
  else Ok (ucb1 (wins cn) (visits cn) (visits self)).

Definition uct_select (tree : list MCTSNode) (self : MCTSNode) : outcome nat :=
  py_max key_ltb (uct_key tree self) (children self).

(** 1. Selection: [while not node.untried_moves and node.children]. *)
Fixpoint select (fuel : nat) (tree : list MCTSNode) (node : nat) : outcome nat :=
  match fuel with
  | O => Stuck
  | S fuel' =>
      n ← get tree node;
      match untried_moves n, children n with
      | [], _ :: _ => c ← uct_select tree n; select fuel' tree c
      | _, _ => Ok node
      end
  end.

(** 2. Expansion: the popped move becomes a new child, stored at the
    end of the arena. *)
Definition expand (tree : list MCTSNode) (node : nat)
    : outcome (list MCTSNode * nat) :=
  n ← get tree node;
  match pop (untried_moves n) with
  | None => Ok (tree, node)
  | Some ((i, take, new_state), rest) =>
      let child := length tree in
      let n' := {| state := state n; parent := parent n;
                   children := children n ++ [child];
                   wins := wins n; visits := visits n;
                   untried_moves := rest |} in
      Ok (<[node := n']> tree ++ [new_node new_state (Some node)], child)
  end.

(** 4. Backpropagation: [while node: ...; node = node.parent]. *)
Fixpoint backpropagate (fuel : nat) (tree : list MCTSNode)
    (node : option nat) (result : Z) : outcome (list MCTSNode) :=
  match node with
  | None => Ok tree
  | Some id =>
      match fuel with
      | O => Stuck
      | S fuel' =>
          n ← get tree id;
          let n' := {| state := state n; parent := parent n;
                       children := children n;
                       wins := wins n + result; visits := visits n + 1;
                       untried_moves := untried_moves n |} in
          backpropagate fuel' (<[id := n']> tree) (parent n) result
      end
  end.

(** One pass of the main loop; the root is node [0]. *)
Definition iteration (tg : list MCTSNode * rng) : outcome (list MCTSNode * rng) :=
  let '(tree, g) := tg in
  node ← select (length tree) tree 0%nat;
  '(tree, node) ← expand tree node;
  n ← get tree node;
  '(result, g) ← simulate (state n) g;
  tree ← backpropagate (length tree) tree (Some node) result;
  Ok (tree, g).

(** [for _ in range(iter_count)]. *)
Fixpoint iterations (n : nat) (tg : list MCTSNode * rng)
    : outcome (list MCTSNode * rng) :=
  match n with
  | O => Ok tg
  | S n' => tg ← iteration tg; iterations n' tg
  end.

(** The final loop: the first successor whose state is the best
    child's. *)
Fixpoint find_move (target : list Z) (succs : list successor) : option move :=
  match succs with
  | [] => None
  | (i, take, new_state) :: rest =>
      if bool_decide (new_state = target) then Some (i, take)
      else find_move target rest
  end.

Definition mcts (st : list Z) (iter_count : Z) (g : rng) : outcome (option move) :=
  let root := new_node st None in
  '(tree, _) ← iterations (Z.to_nat iter_count) ([root], g);
  r ← get tree 0%nat;
  best_child ← py_max Z.ltb (λ c, cn ← get tree c; Ok (visits cn)) (children r);
  bc ← get tree best_child;
  Ok (find_move (state bc) (get_successors st)).
End mcts.

(** ** The game screen

    The main loop of [game_loop] and the menu of [draw_ai_menu] react to
    mouse events on buttons. Drawing has no effect on the course of the
    game and is left out: a drawing function is its return value. *)

(** [pygame.Rect(x, y, w, h)]. *)
Record Rect : Type := mkRect { rect_x : Z; rect_y : Z; rect_w : Z; rect_h : Z }.

Definition WIDTH : Z := 800.

(** [draw_button(text, x, y, w, h, ...)] returns the rectangle it drew. *)
Definition draw_button (x y w h : Z) : Rect := mkRect x y w h.

(** The loop of [draw_matches], from the rows still to draw and the
    current [start_y]: the row buttons, each with its row. *)
Fixpoint draw_rows (rows : list (nat * Z)) (start_y : Z) : list (Rect * nat) :=
  match rows with
  | [] => []
  | (row, count) :: rest =>
      (draw_button (WIDTH - 120) (start_y + 10) 100 40, row)
      :: draw_rows rest (start_y + 80)
  end.

Definition draw_matches (st : list Z) : list (Rect * nat) :=
  draw_rows (enumerate st) 100.

(** The four buttons below the board. *)
Definition new_btn : Rect := draw_button 40 520 120 40.
Definition exit_btn : Rect := draw_button 180 520 140 40.
Definition take_btn : Rect := draw_button 340 520 120 40.
Definition confirm_btn : Rect := draw_button 480 520 120 40.

(** The events the loops look at: their type and, for the mouse, the
    position [ev.pos]. *)
Inductive event : Type :=
  | QUIT
  | MOUSEBUTTONDOWN (pos : Z * Z)
  | MOUSEBUTTONUP (pos : Z * Z)
  | OtherEvent.

(** The strings [turn], [pressed_action] and [ai_mode] range over. *)
Inductive turn_t : Type := player | pc.
Inductive action_t : Type := ActNew | ActExit | ActTake | ActConfirm.
Inductive ai_mode_t : Type := ModeMinimax | ModeMinimaxAB | ModeMcts.

#[global] Instance action_eq_dec : EqDecision action_t.
Proof. solve_decision. Defined.

(** The local variables of [game_loop] that change in its main loop. *)
Record game : Type := mkGame {
  gl_state : list Z;
  gl_selected_row : option nat;
  gl_turn : turn_t;
  gl_pressed_row : option nat;
  gl_pressed_action : option action_t
}.

(** How an invocation of [game_loop] leaves its main loop: by
    [return game_loop()] after a click on "New game", after the message
    "Player Wins!" or after the message "PC Wins!", or by [sys.exit()]. *)
Inductive ending : Type := NewGame | PlayerWins | PcWins | SysExit.

Inductive status : Type :=
  | Running (v : game)
  | Ended (e : ending).

(** [l[i]] for an index that is not negative. *)
Definition item (l : list Z) (i : nat) : outcome Z :=
  match l !! i with
  | Some c => Ok c
  | None => Raise IndexError
  end.

(** The variables at the start of [game_loop]. *)
Definition new_game : game :=
  {| gl_state := [1; 3; 5; 7]; gl_selected_row := None; gl_turn := player;
     gl_pressed_row := None; gl_pressed_action := None |}.

Section game_loop.
(** [Rect.collidepoint] belongs to pygame; the loops are modelled for
    every hit test. The UCB1 score is as in section [mcts]. *)
Context (collidepoint : Rect → Z → Z → bool).
Context {K : Type} (key_ltb : K → K → bool) (ucb1 : Z → Z → Z → K).

(** [MOUSEBUTTONDOWN], the loop over the row buttons:
    [if btn.collidepoint(x, y) and state[row] > 0: pressed_row = row]. *)
Fixpoint press_row (row_rects : list (Rect * nat)) (st : list Z) (x y : Z)
    (pressed_row : option nat) : outcome (option nat) :=
  match row_rects with
  | [] => Ok pressed_row
  | (btn, row) :: rest =>
      hit ← (if collidepoint btn x y
             then c ← item st row; Ok (0 <? c)
             else Ok false);
      press_row rest st x y (if hit : bool then Some row else pressed_row)
  end.

(** [MOUSEBUTTONDOWN], the action buttons. *)
Definition press_action (x y : Z) (pressed_action : option action_t)
    : option action_t :=
  if collidepoint new_btn x y then Some ActNew
  else if collidepoint exit_btn x y then Some ActExit
  else if collidepoint take_btn x y then Some ActTake
  else if collidepoint confirm_btn x y then Some ActConfirm
  else pressed_action.

(** [MOUSEBUTTONUP], the loop that picks the row:
    [if btn.collidepoint(x, y) and state[row] > 0 and pressed_row == row:
    selected_row = row]. *)
Fixpoint pick_row (row_rects : list (Rect * nat)) (st : list Z) (x y : Z)
    (pressed_row selected_row : option nat) : outcome (option nat) :=
  match row_rects with
  | [] => Ok selected_row
  | (btn, row) :: rest =>
      hit ← (if collidepoint btn x y
             then c ← item st row; Ok ((0 <? c) && bool_decide (pressed_row = Some row))
             else Ok false);
      pick_row rest st x y pressed_row (if hit : bool then Some row else selected_row)
  end.

(** [MOUSEBUTTONUP], the block [if turn == "player"]: the row is picked
    if none is, "Take 1" removes a token from the picked row, "Confirm"
    ends the turn. *)
Definition player_release (row_rects : list (Rect * nat)) (v : game) (x y : Z)
    : outcome status :=
  selected_row ← match gl_selected_row v with
                 | None => pick_row row_rects (gl_state v) x y (gl_pressed_row v) None
                 | Some r => Ok (Some r)
                 end;
  st ← (if collidepoint take_btn x y
           && bool_decide (gl_pressed_action v = Some ActTake)
        then match selected_row with
             | Some r =>
                 c ← item (gl_state v) r;
                 if 0 <? c then Ok (<[r := c - 1]> (gl_state v))
                 else Ok (gl_state v)
             | None => Ok (gl_state v)
             end
        else Ok (gl_state v));
  if collidepoint confirm_btn x y
     && bool_decide (gl_pressed_action v = Some ActConfirm)
     && bool_decide (is_Some selected_row)
  then
    if is_terminal st then Ok (Ended PlayerWins)
    else Ok (Running {| gl_state := st; gl_selected_row := None; gl_turn := pc;
                        gl_pressed_row := gl_pressed_row v;
                        gl_pressed_action := gl_pressed_action v |})
  else Ok (Running {| gl_state := st; gl_selected_row := selected_row;
                      gl_turn := gl_turn v;
                      gl_pressed_row := gl_pressed_row v;
                      gl_pressed_action := gl_pressed_action v |}).

(** The body of [for ev in pygame.event.get()]. *)
Definition handle_event (row_rects : list (Rect * nat)) (v : game) (ev : event)
    : outcome status :=
  match ev with
  | QUIT => Ok (Ended SysExit)
  | MOUSEBUTTONDOWN (x, y) =>
      pressed_row ← press_row row_rects (gl_state v) x y (gl_pressed_row v);
      Ok (Running {| gl_state := gl_state v; gl_selected_row := gl_selected_row v;
                     gl_turn := gl_turn v; gl_pressed_row := pressed_row;
                     gl_pressed_action := press_action x y (gl_pressed_action v) |})
  | MOUSEBUTTONUP (x, y) =>
      if collidepoint new_btn x y && bool_decide (gl_pressed_action v = Some ActNew)
      then Ok (Ended NewGame)
      else if collidepoint exit_btn x y
              && bool_decide (gl_pressed_action v = Some ActExit)
      then Ok (Ended SysExit)
      else
        s ← match gl_turn v with
            | player => player_release row_rects v x y
            | pc => Ok (Running v)
            end;
        match s with
        | Running v =>
            Ok (Running {| gl_state := gl_state v;
                           gl_selected_row := gl_selected_row v;
                           gl_turn := gl_turn v; gl_pressed_row := None;
                           gl_pressed_action := None |})
        | Ended e => Ok (Ended e)
        end
  | OtherEvent => Ok (Running v)
  end.

Fixpoint handle_events (row_rects : list (Rect * nat)) (v : game)
    (evs : list event) : outcome status :=
  match evs with
  | [] => Ok (Running v)
  | ev :: rest =>
      s ← handle_event row_rects v ev;
      match s with
      | Running v => handle_events row_rects v rest
      | Ended e => Ok (Ended e)
      end
  end.

(** The move of the solver chosen in the menu; the exact solvers return
    a pair, of which the move is kept. *)
Definition ai_move (ai_mode : ai_mode_t) (st : list Z) (g : rng)
    : outcome (option move) :=
  match ai_mode with
  | ModeMinimax =>
      match minimax st true with
      | Some (_, mv) => Ok mv
      | None => Stuck
      end
  | ModeMinimaxAB =>
      match minimax_ab st NegInf PosInf true with
      | Some (_, mv) => Ok mv
      | None => Stuck
      end
  | ModeMcts => mcts key_ltb ucb1 st 100 g
  end.

(** The block [if turn == "pc"] at the end of the loop body. *)
Definition ai_turn (ai_mode : ai_mode_t) (v : game) (g : rng) : outcome status :=
  match gl_turn v with
  | player => Ok (Running v)
  | pc =>
      mv ← ai_move ai_mode (gl_state v) g;
      st ← match mv with
           | Some (i, t) => c ← item (gl_state v) i; Ok (<[i := c - t]> (gl_state v))
           | None => Ok (gl_state v)
           end;
      if is_terminal st then Ok (Ended PcWins)
      else Ok (Running {| gl_state := st; gl_selected_row := None;
                          gl_turn := player;
                          gl_pressed_row := gl_pressed_row v;
                          gl_pressed_action := gl_pressed_action v |})
  end.

(** One pass of [while True]: the board is drawn, the events that have
    arrived are handled in order, then the AI moves if it is its turn.
    A frame is the list of these events and the draws [mcts] may use. *)
Definition frame (ai_mode : ai_mode_t) (v : game) (fr : list event * rng)
    : outcome status :=
  let row_rects := draw_matches (gl_state v) in
  s ← handle_events row_rects v fr.1;
  match s with
  | Running v => ai_turn ai_mode v fr.2
  | Ended e => Ok (Ended e)
  end.

(** The main loop, over the frames that come. *)
Fixpoint main_loop (ai_mode : ai_mode_t) (v : game) (frs : list (list event * rng))
    : outcome status :=
  match frs with
  | [] => Ok (Running v)
  | fr :: rest =>
      s ← frame ai_mode v fr;
      match s with
      | Running v => main_loop ai_mode v rest
      | Ended e => Ok (Ended e)
      end
  end.
End game_loop.

(** ** The menu and the whole program *)

(** The options of [draw_ai_menu], and its buttons with their mode and
    index. *)
Definition options : list ai_mode_t := [ModeMinimax; ModeMinimaxAB; ModeMcts].

Definition menu_rects : list (Rect * ai_mode_t * nat) :=
  (λ '(idx, mode), (draw_button 250 (200 + Z.of_nat idx * 80) 300 60, mode, idx))
  <$> enumerate options.

(** How the event loop of the menu goes on: it keeps waiting, it
    returns a mode, or it ends the program by [sys.exit()]. *)
Inductive menu_status : Type :=
  | MenuWaiting (pressed_button : option nat)
  | MenuReturn (mode : ai_mode_t)
  | MenuExit.

Section draw_ai_menu.
Context (collidepoint : Rect → Z → Z → bool).

(** [MOUSEBUTTONDOWN]: [if btn.collidepoint(ev.pos): pressed_button = idx]
    for each button. *)
Fixpoint menu_press (rects : list (Rect * ai_mode_t * nat)) (x y : Z)
    (pressed_button : option nat) : option nat :=
  match rects with
  | [] => pressed_button
  | (btn, mode, idx) :: rest =>
      menu_press rest x y (if collidepoint btn x y then Some idx else pressed_button)
  end.

(** [MOUSEBUTTONUP]: the mode of the first button with
    [btn.collidepoint(ev.pos) and pressed_button == idx] is returned. *)
Fixpoint menu_release (rects : list (Rect * ai_mode_t * nat)) (x y : Z)
    (pressed_button : option nat) : option ai_mode_t :=
  match rects with
  | [] => None
  | (btn, mode, idx) :: rest =>
      if collidepoint btn x y && bool_decide (pressed_button = Some idx)
      then Some mode
      else menu_release rest x y pressed_button
  end.

(** The body of the event loop of the menu. *)
Definition menu_event (pressed_button : option nat) (ev : event) : menu_status :=
  match ev with
  | QUIT => MenuExit
  | MOUSEBUTTONDOWN (x, y) => MenuWaiting (menu_press menu_rects x y pressed_button)
  | MOUSEBUTTONUP (x, y) =>
      match menu_release menu_rects x y pressed_button with
      | Some mode => MenuReturn mode
      | None => MenuWaiting None
      end
  | OtherEvent => MenuWaiting pressed_button
  end.

Fixpoint menu_events (pressed_button : option nat) (evs : list event)
    : menu_status :=
  match evs with
  | [] => MenuWaiting pressed_button
  | ev :: rest =>
      match menu_event pressed_button ev with
      | MenuWaiting pressed_button => menu_events pressed_button rest
      | s => s
      end
  end.

(** [draw_ai_menu] over the frames that come; the frames that are left
    are returned with the status. *)
Fixpoint draw_ai_menu_from (pressed_button : option nat)
    (frs : list (list event * rng)) : menu_status * list (list event * rng) :=
  match frs with
  | [] => (MenuWaiting pressed_button, [])
  | fr :: rest =>
      match menu_events pressed_button fr.1 with
      | MenuWaiting pressed_button => draw_ai_menu_from pressed_button rest
      | s => (s, rest)
      end
  end.

Definition draw_ai_menu (frs : list (list event * rng))
    : menu_status * list (list event * rng) :=
  draw_ai_menu_from None frs.
End draw_ai_menu.


Section program.
Context (collidepoint : Rect → Z → Z → bool).
Context {K : Type} (key_ltb : K → K → bool) (ucb1 : Z → Z → Z → K).


End program.

(** ** Colours

    [darken_color] multiplies integer channels by a float. Python
    floats are IEEE 754 binary64 numbers; [SpecFloat] of the Standard
    Library computes their operations, here with 53 bits of precision
    and the exponent bound 1024. *)

Definition float : Type := SpecFloat.spec_float.

(** The conversion of the [int] operand of a float operation: the
    nearest float, ties to even. *)
Definition float_of_int (z : Z) : float := SpecFloat.binary_normalize 53 1024 z 0 false.

(** [x * y] on floats. *)
Definition float_mul (x y : float) : float := SpecFloat.SFmul 53 1024 x y.

(** [int(x)] on a float: the digits after the point are dropped; an
    infinity or a NaN raises. *)
Definition int_of_float (x : float) : option Z :=
  match x with
  | SpecFloat.S754_zero _ => Some 0
  | SpecFloat.S754_finite s m e =>
      let v := if 0 <=? e then Z.pos m * 2 ^ e else Z.pos m `quot` 2 ^ (- e) in
      Some (if s then - v else v)
  | _ => None
  end.

(** The literal [0.8] of the default [factor]: the float nearest to
    8/10. *)
Definition factor_default : float :=
  SpecFloat.SFdiv 53 1024 (float_of_int 8) (float_of_int 10).

(** [tuple(max(0, int(c * factor)) for c in color)]; [None] when a
    conversion raises. *)
Definition darken_color (color : list Z) (factor : float) : option (list Z) :=
  mapM (λ c, v ← int_of_float (float_mul (float_of_int c) factor); Some (Z.max 0 v))
       color.

(** ** Auxiliary notions used in the statements *)

(** Well-formed states: no negative pile. *)
Definition nonneg (st : list Z) : Prop := Forall (λ h, 0 ≤ h) st.

(** [a < b], [a <= b] and [a == b] as propositions. *)
Definition num_lt (a b : number) : Prop :=
  match a, b with
  | NegInf, NegInf => False
  | NegInf, _ => True
  | Int _, NegInf => False
  | Int x, Int y => x < y
  | Int _, PosInf => True
  | PosInf, _ => False
  end.

Definition num_le (a b : number) : Prop :=
  match a, b with
  | NegInf, _ => True
  | Int _, NegInf => False
  | Int x, Int y => x ≤ y
  | Int _, PosInf => True
  | PosInf, PosInf => True
  | PosInf, _ => False
  end.

Definition num_eq (a b : number) : Prop :=
  match a, b with
  | NegInf, NegInf => True
  | Int x, Int y => x = y
  | PosInf, PosInf => True
  | _, _ => False
  end.

(** The values of the game: [-1] and [1]. *)
Definition pm1 (v : number) : Prop :=
  match v with
  | Int z => z = -1 ∨ z = 1
  | _ => False
  end.

(** [b] is at least as good as [a] for the mover. *)
Definition better (maximizing : bool) (a b : number) : Prop :=
  if maximizing then num_le a b else num_le b a.

(** [b] is strictly better than [a] for the mover. *)
Definition strictly_better (maximizing : bool) (a b : number) : Prop :=
  if maximizing then num_lt a b else num_lt b a.

(** What a search with window [(alpha, beta)] may return for a position
    of exact value [v]: [v] itself inside the window, and otherwise a
    bound on [v] that lies on the same side of the window. *)
Definition bracket (alpha beta v r : number) : Prop :=
  (num_le v alpha → num_le v r ∧ num_le r alpha) ∧
  (num_lt alpha v → num_lt v beta → num_eq r v) ∧
  (num_le beta v → num_le beta r ∧ num_le r v).

(** What the soundness proof of alpha-beta knows about the successors
    still to visit, [m] being the flag they are searched with: both
    searches return, with game values, and the pruned one brackets the
    exact one for every window. *)
Definition children_ok (rec_mm : list Z → bool → option solution)
    (rec_ab : list Z → number → number → bool → option solution)
    (m : bool) (succs : list successor) : Prop :=
  ∀ i t ns, (i, t, ns) ∈ succs → ∀ alpha beta, num_lt alpha beta →
    ∃ v mv r mr, rec_mm ns m = Some (v, mv) ∧ rec_ab ns alpha beta m = Some (r, mr) ∧
      pm1 v ∧ pm1 r ∧ bracket alpha beta v r.

(** A move is legal in a state: the pile exists and holds at least the
    tokens taken, of which there is at least one. *)
Definition legal_move (st : list Z) (mv : move) : Prop :=
  ∃ c, st !! mv.1 = Some c ∧ 1 ≤ mv.2 ≤ c.

(** The Nim-sum of a state and the positions it predicts to be lost for
    the player to move. *)
Definition nim_sum (st : list Z) : Z := foldr Z.lxor 0 st.

Definition nim_zero (st : list Z) : bool := nim_sum st =? 0.

(** The loop state after the triples [done] have been appended: their
    states are the objects made since the call, in order. *)
Definition obj_inv (h : store) (done : list successor)
    (acc : store * list (nat * Z * nat)) : Prop :=
  acc.1 = h ++ done.*2 ∧ acc.2.*1 = done.*1 ∧
  acc.2.*2 = seq (length h) (length done).

(** The triples of pile [i], as [get_successors] lists them. *)
Definition pile_successors (st : list Z) (i : nat) : list successor :=
  match st !! i with
  | Some cnt => (λ t, (i, t, alter (λ c, c - t) i st)) <$> range 1 (cnt + 1)
  | None => []
  end.

(** The arena is linked as a tree: it holds the root, parents come
    before their children, and children are nodes of the arena. *)
Definition tree_linked (tree : list MCTSNode) : Prop :=
  (0 < length tree)%nat ∧
  ∀ id n, tree !! id = Some n →
    (∀ p, parent n = Some p → (p < id)%nat) ∧
    (∀ c, c ∈ children n → (id < c < length tree)%nat).

(** The UCB1 score is defined at every child of [n]: [n] and each of
    its children have been visited at least once. *)
Definition ucb1_defined (tree : list MCTSNode) (n : MCTSNode) : Prop :=
  1 ≤ visits n ∧ ∀ c, c ∈ children n → ∃ cn, tree !! c = Some cn ∧ 1 ≤ visits cn.

(** The visit counts between two passes of the main loop. *)
Definition tree_visited (tree : list MCTSNode) : Prop :=
  ∀ id n, tree !! id = Some n →
    0 ≤ visits n ∧
    (∀ c, c ∈ children n → ∃ cn, tree !! c = Some cn ∧ 1 ≤ visits cn) ∧
    (children n ≠ [] → 1 ≤ visits n).

(** [n'] is [n] after some more backpropagation steps. *)
Definition node_le (n n' : MCTSNode) : Prop :=
  state n' = state n ∧ parent n' = parent n ∧ children n' = children n ∧
  untried_moves n' = untried_moves n ∧ visits n ≤ visits n'.

Definition tree_le (tree tree' : list MCTSNode) : Prop :=
  length tree' = length tree ∧
  ∀ j n, tree !! j = Some n → ∃ n', tree' !! j = Some n' ∧ node_le n n'.

(** Node [j] has been visited at least once more in [tree']. *)
Definition bumped_at (tree tree' : list MCTSNode) (j : nat) : Prop :=
  ∃ n n', tree !! j = Some n ∧ tree' !! j = Some n' ∧ visits n + 1 ≤ visits n'.

(** The root of a search started on a state without moves, after some
    passes of the main loop. *)
Definition lone_root (st : list Z) (w v : Z) : MCTSNode :=
  {| state := st; parent := None; children := []; wins := w; visits := v;
     untried_moves := [] |}.

(** The order in which the moves are generated: by pile, then by the
    number of tokens taken. *)
Definition move_order (a b : successor) : Prop :=
  (a.1.1 < b.1.1)%nat ∨ (a.1.1 = b.1.1 ∧ a.1.2 < b.1.2).

(** The arena right after the expansion of [nd] by the move to [ns]. *)
Definition expanded (tree : list MCTSNode) (nd : nat) (n : MCTSNode)
    (ns : list Z) (rest : list successor) : list MCTSNode :=
  <[nd := {| state := state n; parent := parent n;
             children := children n ++ [length tree];
             wins := wins n; visits := visits n; untried_moves := rest |}]> tree
  ++ [new_node ns (Some nd)].

(** The arena holds positions of the game started at [st]: the root is
    [st], the untried moves of a node are moves of its state, and the
    state of a child is reached by a move from its parent's. *)
Definition tree_game (st : list Z) (tree : list MCTSNode) : Prop :=
  (∃ r, tree !! 0%nat = Some r ∧ state r = st) ∧
  ∀ id n, tree !! id = Some n →
    (∀ x, x ∈ untried_moves n → x ∈ get_successors (state n)) ∧
    (∀ c, c ∈ children n →
       ∃ cn i t, tree !! c = Some cn ∧ (i, t, state cn) ∈ get_successors (state n)).

(** Every state in the arena is well-formed. *)
Definition tree_nonneg (tree : list MCTSNode) : Prop :=
  ∀ id n, tree !! id = Some n → nonneg (state n).

(** The state from which the rollout of a pass at [n] starts. *)
Definition rollout_state (n : MCTSNode) : list Z :=
  match pop (untried_moves n) with
  | Some ((_, _, ns), _) => ns
  | None => state n
  end.

(** The choice of the move after the main loop. *)
Definition mcts_pick (st : list Z) (tree : list MCTSNode) : outcome (option move) :=
  r ← get tree 0%nat;
  best_child ← py_max Z.ltb (λ c, cn ← get tree c; Ok (visits cn)) (children r);
  bc ← get tree best_child;
  Ok (find_move (state bc) (get_successors st)).

(** The moves of a rollout: the triples [random.choice] returns in the
    loop of [simulate], in order. *)
Fixpoint rollout (fuel : nat) (current : list Z) (g : rng)
    : outcome (list successor) :=
  match fuel with
  | O => Stuck
  | S fuel' =>
      if negb (is_terminal current) then
        '((i, take, next_state), g) ← random_choice (get_successors current) g;
        path ← rollout fuel' next_state g;
        Ok ((i, take, next_state) :: path)
      else Ok []
  end.

(** [path] is a sequence of moves played from [st]. *)
Fixpoint play (st : list Z) (path : list successor) : Prop :=
  match path with
  | [] => True
  | (i, t, ns) :: rest => (i, t, ns) ∈ get_successors st ∧ play ns rest
  end.

(** The state a sequence of moves ends in. *)
Fixpoint play_end (st : list Z) (path : list successor) : list Z :=
  match path with
  | [] => st
  | (_, _, ns) :: rest => play_end ns rest
  end.

(** Only the root has no parent. *)
Definition tree_rooted (tree : list MCTSNode) : Prop :=
  ∀ id n, tree !! id = Some n → parent n = None → id = 0%nat.

(** [n'] is [n] after at most one backpropagation step with [result]. *)
Definition node_step (result : Z) (n n' : MCTSNode) : Prop :=
  state n' = state n ∧ parent n' = parent n ∧ children n' = children n ∧
  untried_moves n' = untried_moves n ∧
  ((visits n' = visits n ∧ wins n' = wins n) ∨
   (visits n' = visits n + 1 ∧ wins n' = wins n + result)).

(** The statistics of the arena after [k] passes of the main loop. *)
Definition tree_stats (k : Z) (tree : list MCTSNode) : Prop :=
  Z.of_nat (length tree) ≤ k + 1 ∧
  (∃ r, tree !! 0%nat = Some r ∧ visits r = k) ∧
  ∀ id n, tree !! id = Some n →
    0 ≤ visits n ≤ k ∧ - visits n ≤ wins n ≤ visits n.

(** The expansion of the root after [k] passes on [st]: the untried
    moves of the root followed by the moves of its children, from the
    newest child to the oldest, are the moves of [st]. *)
Definition root_expanded (st : list Z) (k : nat) (tree : list MCTSNode) : Prop :=
  ∃ r cm, tree !! 0%nat = Some r ∧
    get_successors st = untried_moves r ++ reverse cm ∧
    length cm = (k `min` length (get_successors st))%nat ∧
    Forall2 (λ c (x : successor), ∃ cn, tree !! c = Some cn ∧ state cn = x.2)
      (children r) cm.

(** The rows of the row buttons are rows of a board of [n] piles. *)
Definition rows_ok (row_rects : list (Rect * nat)) (n : nat) : Prop :=
  ∀ btn row, (btn, row) ∈ row_rects → (row < n)%nat.

(** What a turn of the player may have done to the board [b] it started
    with: nothing before a row is picked, and afterwards nothing or a
    move of the game in the picked row. *)
Definition turn_move (b st : list Z) (selected_row : option nat) : Prop :=
  match selected_row with
  | None => st = b
  | Some r => (r < length b)%nat ∧ (st = b ∨ ∃ t, (r, t, st) ∈ get_successors b)
  end.

(** The variables of the main loop against the board [b] at the start
    of the current turn of the player: while the player is to move,
    [b] has a token and the board is as [turn_move] says; once the turn
    is confirmed, the board still has a token and is [b] or one move
    away from it. *)
Definition game_inv (b : list Z) (v : game) : Prop :=
  nonneg b ∧
  match gl_turn v with
  | player =>
      is_terminal b = false ∧ turn_move b (gl_state v) (gl_selected_row v)
  | pc =>
      is_terminal (gl_state v) = false ∧ gl_selected_row v = None ∧
      (gl_state v = b ∨ ∃ i t, (i, t, gl_state v) ∈ get_successors b)
  end.

(** What is recorded along a run of the main loop: the board at the
    start of the current turn of the player, and whether some turn of
    the player was confirmed with the board as it was at its start. *)
Record watch : Type := mkWatch { turn_board : list Z; passed : bool }.

(** The record after a step of the event loop from [v] to [v']: a turn
    that is handed over is compared with [turn_board]. *)
Definition watch_confirm (w : watch) (v v' : game) : watch :=
  match gl_turn v, gl_turn v' with
  | player, pc =>
      {| turn_board := turn_board w;
         passed := passed w || bool_decide (gl_state v' = turn_board w) |}
  | _, _ => w
  end.

(** The record after the AI block from [v] to [v']: a move of the AI
    starts a turn of the player. *)
Definition watch_ai (w : watch) (v v' : game) : watch :=
  match gl_turn v with
  | pc => {| turn_board := gl_state v'; passed := passed w |}
  | player => w
  end.

Section game_watch.
Context (collidepoint : Rect → Z → Z → bool).
Context {K : Type} (key_ltb : K → K → bool) (ucb1 : Z → Z → Z → K).

Fixpoint watch_events (row_rects : list (Rect * nat)) (w : watch) (v : game)
    (evs : list event) : watch :=
  match evs with
  | [] => w
  | ev :: rest =>
      match handle_event collidepoint row_rects v ev with
      | Ok (Running v') => watch_events row_rects (watch_confirm w v v') v' rest
      | _ => w
      end
  end.

Definition watch_frame (ai_mode : ai_mode_t) (w : watch) (v : game)
    (fr : list event * rng) : watch :=
  let row_rects := draw_matches (gl_state v) in
  let w' := watch_events row_rects w v fr.1 in
  match handle_events collidepoint row_rects v fr.1 with
  | Ok (Running v1) =>
      match ai_turn key_ltb ucb1 ai_mode v1 fr.2 with
      | Ok (Running v2) => watch_ai w' v1 v2
      | _ => w'
      end
  | _ => w'
  end.

Fixpoint watch_loop (ai_mode : ai_mode_t) (w : watch) (v : game)
    (frs : list (list event * rng)) : watch :=
  match frs with
  | [] => w
  | fr :: rest =>
      match frame collidepoint key_ltb ucb1 ai_mode v fr with
      | Ok (Running v') => watch_loop ai_mode (watch_frame ai_mode w v fr) v' rest
      | _ => watch_frame ai_mode w v fr
      end
  end.
End game_watch.

(** The record at the start of a turn of the player on [b]. *)
Definition new_watch (b : list Z) : watch := {| turn_board := b; passed := false |}.

(** The variables at the start of a game on the board [b]; [new_game]
    is [start_game [1; 3; 5; 7]]. *)
Definition start_game (b : list Z) : game :=
  {| gl_state := b; gl_selected_row := None; gl_turn := player;
     gl_pressed_row := None; gl_pressed_action := None |}.

(** The invariant of the main loop with its record: [game_inv] for the
    recorded board, and a turn handed over with [passed] still [false]
    has changed the board. *)
Definition watch_inv (w : watch) (v : game) : Prop :=
  game_inv (turn_board w) v ∧
  (passed w = false → gl_turn v = pc → gl_state v ≠ turn_board w).

(** As long as no turn was passed, the player starts each turn on a
    board of Nim-sum [0]. *)
Definition nim_ok (w : watch) : Prop :=
  passed w = false → nim_zero (turn_board w) = true.

(** [b] is reached from [b0] by moves of the game. *)
Definition reach (b0 b : list Z) : Prop :=
  ∃ path, play b0 path ∧ play_end b0 path = b.

(** The two exact solvers. *)
Definition exact_mode (ai_mode : ai_mode_t) : bool :=
  match ai_mode with
  | ModeMcts => false
  | _ => true
  end.

(** A hit test to run the loops with: the point lies in the rectangle,
    its right and bottom edges left out. *)
Definition rect_contains (r : Rect) (x y : Z) : bool :=
  (rect_x r <=? x) && (x <? rect_x r + rect_w r) &&
  (rect_y r <=? y) && (y <? rect_y r + rect_h r).

(** A click: the button goes down and up at the same point. *)
Definition click (pos : Z * Z) : list event :=
  [MOUSEBUTTONDOWN pos; MOUSEBUTTONUP pos].

(** The clicks of a turn of the player: on the button of row [r], then
    [k] times on "Take 1", then on "Confirm". *)
Definition turn_clicks (r : nat) (k : nat) : list event :=
  click (700, 120 + 80 * Z.of_nat r)
  ++ mjoin (replicate k (click (400, 540)))
  ++ click (500, 540).

(** A press of the mouse button that hits no button of the menu, or
    any event that is not a release. *)
Definition menu_idle (collidepoint : Rect → Z → Z → bool) (ev : event) : Prop :=
  match ev with
  | MOUSEBUTTONUP _ => False
  | MOUSEBUTTONDOWN (x, y) =>
      ∀ btn mode idx, (btn, mode, idx) ∈ menu_rects → collidepoint btn x y = false
  | _ => True
  end.


(** The buttons of the game screen for the board [st], and those of the
    menu. *)
Definition game_buttons (st : list Z) : list Rect :=
  (draw_matches st).*1 ++ [new_btn; exit_btn; take_btn; confirm_btn].

Definition menu_buttons : list Rect := menu_rects.*1.*1.

(** The height of the window. *)
Definition HEIGHT : Z := 600.

(** * Properties *)

(** ** Numbers *)

Lemma num_ltb_true (a b : number) : num_ltb a b = true ↔ num_lt a b.
Proof. destruct a, b; simpl; try done. apply Z.ltb_lt. Qed.

Lemma num_ltb_false (a b : number) : num_ltb a b = false ↔ num_le b a.
Proof. destruct a, b; simpl; try done. apply Z.ltb_ge. Qed.

Lemma num_leb_true (a b : number) : num_leb a b = true ↔ num_le a b.
Proof. unfold num_leb. rewrite negb_true_iff. apply num_ltb_false. Qed.

Lemma num_leb_false (a b : number) : num_leb a b = false ↔ num_lt b a.
Proof. unfold num_leb. rewrite negb_false_iff. apply num_ltb_true. Qed.

Lemma num_eq_eq (a b : number) : num_eq a b ↔ a = b.
Proof. destruct a, b; simpl; split; try done; congruence. Qed.

(** Order facts on numbers, by cases on the numbers involved. *)
Ltac num_solve :=
  repeat match goal with
         | H : num_ltb _ _ = true |- _ => apply num_ltb_true in H
         | H : num_ltb _ _ = false |- _ => apply num_ltb_false in H
         | H : num_leb _ _ = true |- _ => apply num_leb_true in H
         | H : num_leb _ _ = false |- _ => apply num_leb_false in H
         | H : @eq number _ _ |- _ => apply num_eq_eq in H
         | |- @eq number _ _ => apply num_eq_eq
         end;
  unfold bracket, better, num_max, num_min in *;
  repeat match goal with
         | H : pm1 ?x |- _ =>
             is_var x; destruct x; simpl in H; [contradiction| |contradiction]
         end;
  repeat match goal with
         | x : number |- _ => destruct x; simpl in *; try contradiction
         end;
  simpl in *;
  repeat match goal with
         | H : context [(?a <? ?b)] |- _ =>
             destruct (Z.ltb_spec a b); simpl in *; try (exfalso; lia)
         | |- context [(?a <? ?b)] =>
             destruct (Z.ltb_spec a b); simpl in *; try (exfalso; lia)
         end;
  lia.

(** ** The move generator *)

Lemma elem_of_enumerate {A : Type} (l : list A) (i : nat) (x : A) :
  (i, x) ∈ enumerate l ↔ l !! i = Some x.
Proof.
  unfold enumerate. rewrite elem_of_lookup_imap. split.
  - intros (j & y & Heq & Hl). by simplify_eq.
  - intros Hl. eauto.
Qed.

Lemma elem_of_range (lo hi k : Z) : k ∈ range lo hi ↔ lo ≤ k < hi.
Proof. unfold range. rewrite elem_of_seqZ. lia. Qed.

Lemma elem_of_get_successors (st : list Z) (i : nat) (t : Z) (ns : list Z) :
  (i, t, ns) ∈ get_successors st ↔
  ∃ c, st !! i = Some c ∧ 1 ≤ t ≤ c ∧ ns = alter (λ c, c - t) i st.
Proof.
  unfold get_successors. rewrite list_elem_of_bind. split.
  - intros ([j c] & Hin & Hen). apply elem_of_enumerate in Hen.
    apply list_elem_of_bind in Hin as (k & Hin & Hk).
    apply elem_of_range in Hk. apply list_elem_of_singleton in Hin.
    simplify_eq. exists c. split_and!; [done|lia|lia|done].
  - intros (c & Hl & Ht & ->). exists (i, c). split.
    + apply list_elem_of_bind. exists t. split; [apply list_elem_of_singleton; done|].
      apply elem_of_range. lia.
    + by apply elem_of_enumerate.
Qed.

Lemma total_alter (f : Z → Z) (st : list Z) (i : nat) (c : Z) :
  st !! i = Some c → total (alter f i st) = total st - c + f c.
Proof.
  revert i. induction st as [|h st IH]; intros [|i] Hl; simplify_eq/=.
  - unfold total. simpl. lia.
  - unfold total in *. simpl. rewrite (IH i Hl). lia.
Qed.

Lemma tokens_alter (t : Z) (st : list Z) (i : nat) (c : Z) :
  st !! i = Some c → 1 ≤ t ≤ c →
  Z.of_nat (tokens (alter (λ c, c - t) i st)) = Z.of_nat (tokens st) - t.
Proof.
  unfold tokens. intros Hl Ht.
  assert (Hpos : ∀ l : list Z, 0 ≤ foldr (λ h acc, Z.max h 0 + acc) 0 l).
  { induction l; simpl; lia. }
  rewrite !Z2Nat.id by apply Hpos.
  revert i Hl. induction st as [|h st IH]; intros [|i] Hl; simplify_eq/=.
  - lia.
  - rewrite (IH i Hl). lia.
Qed.

Lemma tokens_total (st : list Z) : nonneg st → Z.of_nat (tokens st) = total st.
Proof.
  unfold tokens, total.
  assert (Hpos : ∀ l : list Z, 0 ≤ foldr (λ h acc, Z.max h 0 + acc) 0 l).
  { induction l; simpl; lia. }
  rewrite Z2Nat.id by apply Hpos.
  induction 1 as [|h st Hh _ IH]; simpl; [done|]. rewrite IH. lia.
Qed.

Lemma successor_total (st : list Z) (i : nat) (t : Z) (ns : list Z) :
  (i, t, ns) ∈ get_successors st → 1 ≤ t ∧ total ns = total st - t.
Proof.
  intros (c & Hl & Ht & ->)%elem_of_get_successors. split; [lia|].
  rewrite (total_alter _ _ _ _ Hl). lia.
Qed.

Lemma successor_tokens (st : list Z) (i : nat) (t : Z) (ns : list Z) :
  (i, t, ns) ∈ get_successors st → (tokens ns < tokens st)%nat.
Proof.
  intros (c & Hl & Ht & ->)%elem_of_get_successors.
  pose proof (tokens_alter t st i c Hl Ht). lia.
Qed.

Lemma successor_nonneg (st : list Z) (i : nat) (t : Z) (ns : list Z) :
  nonneg st → (i, t, ns) ∈ get_successors st → nonneg ns.
Proof.
  intros Hst (c & Hl & Ht & ->)%elem_of_get_successors.
  unfold nonneg in *. rewrite Forall_lookup in Hst |- *.
  intros j x. destruct (decide (i = j)) as [->|Hne].
  - rewrite list_lookup_alter_eq, Hl. intros [= <-]. lia.
  - rewrite list_lookup_alter_ne by done. apply Hst.
Qed.

Lemma is_terminal_true (st : list Z) :
  is_terminal st = true ↔ Forall (λ h, h = 0) st.
Proof.
  unfold is_terminal. induction st as [|h st IH]; simpl.
  - split; [constructor|done].
  - split.
    + intros [Hh Ht]%andb_true_iff. constructor; [lia|by apply IH].
    + intros HF. inversion HF as [|?? Hh Ht]; subst. apply andb_true_iff. split; [lia|by apply IH].
Qed.

Lemma terminal_no_successors (st : list Z) :
  is_terminal st = true → get_successors st = [].
Proof.
  intros Hterm%is_terminal_true.
  destruct (get_successors st) as [|[[i t] ns] l] eqn:Hs; [done|].
  assert (Hin : (i, t, ns) ∈ get_successors st) by (rewrite Hs; left).
  apply elem_of_get_successors in Hin as (c & Hl & Ht & _).
  rewrite Forall_lookup in Hterm. specialize (Hterm _ _ Hl). simpl in Hterm. lia.
Qed.

Lemma nonterminal_has_successor (st : list Z) :
  nonneg st → is_terminal st = false → get_successors st ≠ [].
Proof.
  intros Hst Hterm Hnil.
  assert (Hex : Exists (λ h, h ≠ 0) st).
  { apply not_Forall_Exists; [intros x; apply _|].
    intros HF%is_terminal_true. congruence. }
  apply Exists_exists in Hex as (c & Hin & Hc).
  assert (Hin' : c ∈ st) by (first [exact Hin | by apply list_elem_of_In]).
  apply list_elem_of_lookup in Hin' as [i Hl].
  unfold nonneg in Hst. rewrite Forall_lookup in Hst. specialize (Hst _ _ Hl). simpl in Hst.
  assert (Hs : (i, 1, alter (λ c, c - 1) i st) ∈ get_successors st).
  { apply elem_of_get_successors. exists c. split_and!; [done|lia|lia|done]. }
  rewrite Hnil in Hs. by apply elem_of_nil in Hs.
Qed.

(** ** The loop of [minimax] *)

Section minimax_loop_facts.
Context (rec : list Z → bool → option solution).

Lemma minimax_loop_cons (m : bool) (i : nat) (t : Z) (ns : list Z)
    (rest : list successor) (bv : number) (bm : option move) (val : number)
    (mv : option move) :
  rec ns (negb m) = Some (val, mv) →
  minimax_loop rec m ((i, t, ns) :: rest) bv bm =
  if (m && num_ltb bv val) || (negb m && num_ltb val bv)
  then minimax_loop rec m rest val (Some (i, t))
  else minimax_loop rec m rest bv bm.
Proof. intros Hrec. simpl. by rewrite Hrec. Qed.

(** The loop returns a game value that is at least as good as the one
    it started from. *)
Lemma minimax_loop_pm1 (m : bool) (succs : list successor) (bv : number)
    (bm : option move) :
  (∀ i t ns, (i, t, ns) ∈ succs → ∃ v mv, rec ns (negb m) = Some (v, mv) ∧ pm1 v) →
  pm1 bv ∨ (succs ≠ [] ∧ bv = if m then NegInf else PosInf) →
  ∃ v mv, minimax_loop rec m succs bv bm = Some (v, mv) ∧ pm1 v ∧ better m bv v.
Proof.
  revert bv bm. induction succs as [|[[i t] ns] rest IH]; intros bv bm Hrec Hbv.
  - destruct Hbv as [Hbv|[Hne _]]; [|by destruct Hne]. exists bv, bm. split_and!; [done|done|].
    unfold better. destruct m; num_solve.
  - destruct (Hrec i t ns) as (val & mv & Hval & Hpm); [left|].
    rewrite (minimax_loop_cons _ _ _ _ _ _ _ _ _ Hval).
    assert (Hrest : ∀ i t ns, (i, t, ns) ∈ rest →
              ∃ v mv, rec ns (negb m) = Some (v, mv) ∧ pm1 v).
    { intros i' t' ns' Hin. apply (Hrec i' t'). by right. }
    destruct ((m && num_ltb bv val) || (negb m && num_ltb val bv)) eqn:Hc.
    + destruct (IH val (Some (i, t)) Hrest) as (v & mv' & Hl & Hv & Hb); [by left|].
      exists v, mv'. split_and!; [done|done|].
      unfold better in *. destruct m; simpl in Hc; num_solve.
    + assert (Hbv' : pm1 bv).
      { destruct Hbv as [?|[_ ->]]; [done|]. destruct m; simpl in Hc; num_solve. }
      destruct (IH bv bm Hrest) as (v & mv' & Hl & Hv & Hb); [by left|].
      eauto.
Qed.

(** The value the loop returns is at least as good as every child's. *)
Lemma minimax_loop_better_child (m : bool) (succs : list successor)
    (bv : number) (bm : option move) (v : number) (mv : option move) :
  minimax_loop rec m succs bv bm = Some (v, mv) →
  better m bv v ∧
  ∀ i t ns val mv', (i, t, ns) ∈ succs → rec ns (negb m) = Some (val, mv') →
    better m val v.
Proof.
  revert bv bm. induction succs as [|[[i t] ns] rest IH]; intros bv bm Hl.
  - simpl in Hl. simplify_eq. split.
    + unfold better. destruct m; num_solve.
    + intros ????? Hin. by apply elem_of_nil in Hin.
  - simpl in Hl. destruct (rec ns (negb m)) as [[val mv0]|] eqn:Hval; [|done].
    destruct ((m && num_ltb bv val) || (negb m && num_ltb val bv)) eqn:Hc;
      apply IH in Hl as [Hb Hch].
    + split.
      * unfold better in *. destruct m; simpl in Hc; num_solve.
      * intros i' t' ns' val' mv' Hin Hrec'.
        apply elem_of_cons in Hin as [Heq|Hin]; [|by eapply Hch].
        simplify_eq. done.
    + split; [done|].
      intros i' t' ns' val' mv' Hin Hrec'.
      apply elem_of_cons in Hin as [Heq|Hin]; [|by eapply Hch].
      simplify_eq. unfold better in *. destruct m; simpl in Hc; num_solve.
Qed.

(** The value the loop returns is the initial one or a child's. *)
Lemma minimax_loop_value_from (m : bool) (succs : list successor)
    (bv : number) (bm : option move) (v : number) (mv : option move) :
  minimax_loop rec m succs bv bm = Some (v, mv) →
  v = bv ∨ ∃ i t ns mv', (i, t, ns) ∈ succs ∧ rec ns (negb m) = Some (v, mv').
Proof.
  revert bv bm. induction succs as [|[[i t] ns] rest IH]; intros bv bm Hl.
  - simpl in Hl. simplify_eq. by left.
  - simpl in Hl. destruct (rec ns (negb m)) as [[val mv0]|] eqn:Hval; [|done].
    destruct ((m && num_ltb bv val) || (negb m && num_ltb val bv));
      apply IH in Hl as [->|(i' & t' & ns' & mv' & Hin & Hrec')].
    + right. exists i, t, ns, mv0. split; [left|done].
    + right. exists i', t', ns', mv'. split; [by right|done].
    + by left.
    + right. exists i', t', ns', mv'. split; [by right|done].
Qed.

(** The move the loop returns is the initial one or one of the list. *)
Lemma minimax_loop_move_from (m : bool) (succs : list successor)
    (bv : number) (bm : option move) (v : number) (mv : option move) :
  minimax_loop rec m succs bv bm = Some (v, mv) →
  mv = bm ∨ ∃ i t ns, (i, t, ns) ∈ succs ∧ mv = Some (i, t).
Proof.
  revert bv bm. induction succs as [|[[i t] ns] rest IH]; intros bv bm Hl.
  - simpl in Hl. simplify_eq. by left.
  - simpl in Hl. destruct (rec ns (negb m)) as [[val mv0]|] eqn:Hval; [|done].
    destruct ((m && num_ltb bv val) || (negb m && num_ltb val bv));
      apply IH in Hl as [->|(i' & t' & ns' & Hin & ->)].
    + right. exists i, t, ns. split; [left|done].
    + right. exists i', t', ns'. split; [by right|done].
    + by left.
    + right. exists i', t', ns'. split; [by right|done].
Qed.

(** The loop ends as soon as every recursive call does. *)
Lemma minimax_loop_total (m : bool) (succs : list successor) (bv : number)
    (bm : option move) :
  (∀ i t ns, (i, t, ns) ∈ succs → is_Some (rec ns (negb m))) →
  is_Some (minimax_loop rec m succs bv bm).
Proof.
  revert bv bm. induction succs as [|[[i t] ns] rest IH]; intros bv bm Hrec.
  - done.
  - simpl. destruct (Hrec i t ns) as [[val mv0] ->]; [left|].
    destruct ((m && num_ltb bv val) || (negb m && num_ltb val bv));
      apply IH; intros i' t' ns' Hin; apply (Hrec i' t'); by right.
Qed.
End minimax_loop_facts.

(** ** The loops of [minimax_ab] against the loop of [minimax] *)

Section ab_loop_facts.
Context (rec_mm : list Z → bool → option solution).
Context (rec_ab : list Z → number → number → bool → option solution).

(** One turn of each loop, the new value written with [max] / [min]. *)
Lemma minimax_loop_cons_max (i : nat) (t : Z) (ns : list Z)
    (rest : list successor) (bv : number) (bm : option move) (val : number)
    (mv : option move) :
  rec_mm ns false = Some (val, mv) →
  minimax_loop rec_mm true ((i, t, ns) :: rest) bv bm =
  minimax_loop rec_mm true rest (num_max bv val)
    (if num_ltb bv val then Some (i, t) else bm).
Proof.
  intros Hrec. simpl. rewrite Hrec, orb_false_r. unfold num_max.
  by destruct (num_ltb bv val).
Qed.

Lemma minimax_loop_cons_min (i : nat) (t : Z) (ns : list Z)
    (rest : list successor) (bv : number) (bm : option move) (val : number)
    (mv : option move) :
  rec_mm ns true = Some (val, mv) →
  minimax_loop rec_mm false ((i, t, ns) :: rest) bv bm =
  minimax_loop rec_mm false rest (num_min bv val)
    (if num_ltb val bv then Some (i, t) else bm).
Proof.
  intros Hrec. simpl. rewrite Hrec. unfold num_min.
  by destruct (num_ltb val bv).
Qed.

Lemma ab_max_loop_cons (i : nat) (t : Z) (ns : list Z) (rest : list successor)
    (alpha beta value : number) (bm : option move) (val : number)
    (mv : option move) :
  rec_ab ns alpha beta false = Some (val, mv) →
  ab_max_loop rec_ab ((i, t, ns) :: rest) alpha beta value bm =
  if num_leb beta (num_max alpha (num_max value val))
  then Some (num_max value val, if num_ltb value val then Some (i, t) else bm)
  else ab_max_loop rec_ab rest (num_max alpha (num_max value val)) beta
         (num_max value val) (if num_ltb value val then Some (i, t) else bm).
Proof.
  intros Hrec. simpl. rewrite Hrec. unfold num_max.
  by destruct (num_ltb value val).
Qed.

Lemma ab_min_loop_cons (i : nat) (t : Z) (ns : list Z) (rest : list successor)
    (alpha beta value : number) (bm : option move) (val : number)
    (mv : option move) :
  rec_ab ns alpha beta true = Some (val, mv) →
  ab_min_loop rec_ab ((i, t, ns) :: rest) alpha beta value bm =
  if num_leb (num_min beta (num_min value val)) alpha
  then Some (num_min value val, if num_ltb val value then Some (i, t) else bm)
  else ab_min_loop rec_ab rest alpha (num_min beta (num_min value val))
         (num_min value val) (if num_ltb val value then Some (i, t) else bm).
Proof.
  intros Hrec. simpl. rewrite Hrec. unfold num_min.
  by destruct (num_ltb val value).
Qed.

Lemma children_ok_tail (m : bool) (x : successor) (rest : list successor) :
  children_ok rec_mm rec_ab m (x :: rest) → children_ok rec_mm rec_ab m rest.
Proof. intros H i t ns Hin. apply (H i t). by right. Qed.

Lemma children_ok_minimax (m : bool) (succs : list successor) :
  children_ok rec_mm rec_ab (negb m) succs →
  ∀ i t ns, (i, t, ns) ∈ succs → ∃ v mv, rec_mm ns (negb m) = Some (v, mv) ∧ pm1 v.
Proof.
  intros H i t ns Hin.
  destruct (H i t ns Hin NegInf PosInf) as (v & mv & _ & _ & Hv & _ & Hpm & _); [done|].
  eauto.
Qed.

(** The maximizing loop, entered with the original [alpha0] raised to
    the current [value]. *)
Lemma ab_max_loop_sound (succs : list successor) (alpha0 beta best value : number)
    (bm bm' : option move) :
  children_ok rec_mm rec_ab false succs →
  num_lt (num_max alpha0 value) beta →
  (pm1 best ∧ pm1 value) ∨ (succs ≠ [] ∧ num_eq best NegInf ∧ num_eq value NegInf) →
  (num_le best alpha0 → num_le best value ∧ num_le value alpha0) →
  (num_lt alpha0 best → num_eq value best) →
  ∃ v mv r mr,
    minimax_loop rec_mm true succs best bm = Some (v, mv) ∧
    ab_max_loop rec_ab succs (num_max alpha0 value) beta value bm' = Some (r, mr) ∧
    pm1 v ∧ pm1 r ∧ bracket alpha0 beta v r.
Proof.
  revert best value bm bm'.
  induction succs as [|[[i t] ns] rest IH]; intros best value bm bm' Hch Hwin Hval H1 H2.
  - destruct Hval as [[Hb Hv]|[Hne _]]; [|by destruct Hne].
    exists best, bm, value, bm'. split_and!; [done|done|done|done|]. num_solve.
  - destruct (Hch i t ns (list_elem_of_here _ _) _ _ Hwin)
      as (v' & mv' & r' & mr' & Hmm & Hab & Hv' & Hr' & Hbr).
    pose proof (children_ok_tail _ _ _ Hch) as Hrest.
    rewrite (minimax_loop_cons_max _ _ _ _ _ _ _ _ Hmm).
    rewrite (ab_max_loop_cons _ _ _ _ _ _ _ _ _ _ Hab).
    assert (Hval' : (pm1 best ∧ pm1 value) ∨ (num_eq best NegInf ∧ num_eq value NegInf))
      by (destruct Hval as [?|[_ ?]]; [by left|by right]).
    clear Hval Hmm Hab Hch.
    replace (num_max (num_max alpha0 value) (num_max value r'))
      with (num_max alpha0 (num_max value r')) by (clear; num_solve).
    assert (Hb1 : pm1 (num_max best v')) by (clear -Hval' Hv'; num_solve).
    assert (Hv1 : pm1 (num_max value r')) by (clear -Hval' Hr'; num_solve).
    destruct (num_leb beta (num_max alpha0 (num_max value r'))) eqn:Hbreak.
    + destruct (minimax_loop_pm1 rec_mm true rest (num_max best v')
                  (if num_ltb best v' then Some (i, t) else bm))
        as (v & mv & Hl & Hv & Hbt).
      { by apply (children_ok_minimax true). }
      { by left. }
      eexists v, mv, _, _. split_and!; [done|done|done|done|].
      clear -Hwin Hval' H1 H2 Hv' Hr' Hbr Hbreak Hv Hbt. num_solve.
    + apply IH; [done| |by left| |].
      * clear -Hbreak. num_solve.
      * clear -Hwin Hval' H1 H2 Hv' Hr' Hbr Hbreak. num_solve.
      * clear -Hwin Hval' H1 H2 Hv' Hr' Hbr Hbreak. num_solve.
Qed.

(** The minimizing loop, entered with the original [beta0] lowered to
    the current [value]. *)
Lemma ab_min_loop_sound (succs : list successor) (alpha beta0 best value : number)
    (bm bm' : option move) :
  children_ok rec_mm rec_ab true succs →
  num_lt alpha (num_min beta0 value) →
  (pm1 best ∧ pm1 value) ∨ (succs ≠ [] ∧ num_eq best PosInf ∧ num_eq value PosInf) →
  (num_le beta0 best → num_le value best ∧ num_le beta0 value) →
  (num_lt best beta0 → num_eq value best) →
  ∃ v mv r mr,
    minimax_loop rec_mm false succs best bm = Some (v, mv) ∧
    ab_min_loop rec_ab succs alpha (num_min beta0 value) value bm' = Some (r, mr) ∧
    pm1 v ∧ pm1 r ∧ bracket alpha beta0 v r.
Proof.
  revert best value bm bm'.
  induction succs as [|[[i t] ns] rest IH]; intros best value bm bm' Hch Hwin Hval H1 H2.
  - destruct Hval as [[Hb Hv]|[Hne _]]; [|by destruct Hne].
    exists best, bm, value, bm'. split_and!; [done|done|done|done|]. num_solve.
  - destruct (Hch i t ns (list_elem_of_here _ _) _ _ Hwin)
      as (v' & mv' & r' & mr' & Hmm & Hab & Hv' & Hr' & Hbr).
    pose proof (children_ok_tail _ _ _ Hch) as Hrest.
    rewrite (minimax_loop_cons_min _ _ _ _ _ _ _ _ Hmm).
    rewrite (ab_min_loop_cons _ _ _ _ _ _ _ _ _ _ Hab).
    assert (Hval' : (pm1 best ∧ pm1 value) ∨ (num_eq best PosInf ∧ num_eq value PosInf))
      by (destruct Hval as [?|[_ ?]]; [by left|by right]).
    clear Hval Hmm Hab Hch.
    replace (num_min (num_min beta0 value) (num_min value r'))
      with (num_min beta0 (num_min value r')) by (clear; num_solve).
    assert (Hb1 : pm1 (num_min best v')) by (clear -Hval' Hv'; num_solve).
    assert (Hv1 : pm1 (num_min value r')) by (clear -Hval' Hr'; num_solve).
    destruct (num_leb (num_min beta0 (num_min value r')) alpha) eqn:Hbreak.
    + destruct (minimax_loop_pm1 rec_mm false rest (num_min best v')
                  (if num_ltb v' best then Some (i, t) else bm))
        as (v & mv & Hl & Hv & Hbt).
      { by apply (children_ok_minimax false). }
      { by left. }
      eexists v, mv, _, _. split_and!; [done|done|done|done|].
      clear -Hwin Hval' H1 H2 Hv' Hr' Hbr Hbreak Hv Hbt. num_solve.
    + apply IH; [done| |by left| |].
      * clear -Hbreak. num_solve.
      * clear -Hwin Hval' H1 H2 Hv' Hr' Hbr Hbreak. num_solve.
      * clear -Hwin Hval' H1 H2 Hv' Hr' Hbr Hbreak. num_solve.
Qed.

(** With the full window the pruned loops follow the exact loop turn
    by turn: same value and same move. *)
Lemma ab_max_loop_root (succs : list successor) (best : number) (bm : option move) :
  children_ok rec_mm rec_ab false succs →
  pm1 best ∨ num_eq best NegInf →
  ∃ r, minimax_loop rec_mm true succs best bm = Some r ∧
       ab_max_loop rec_ab succs best PosInf best bm = Some r.
Proof.
  revert best bm. induction succs as [|[[i t] ns] rest IH]; intros best bm Hch Hbest.
  - eexists. split; reflexivity.
  - destruct (Hch i t ns (list_elem_of_here _ _) best PosInf)
      as (v' & mv' & r' & mr' & Hmm & Hab & Hv' & Hr' & Hbr).
    { clear -Hbest. num_solve. }
    rewrite (minimax_loop_cons_max _ _ _ _ _ _ _ _ Hmm).
    rewrite (ab_max_loop_cons _ _ _ _ _ _ _ _ _ _ Hab).
    assert (Hsame : num_max best r' = num_max best v' ∧
                    num_max best (num_max best r') = num_max best v').
    { clear -Hbest Hv' Hr' Hbr. split; num_solve. }
    destruct Hsame as [-> ->].
    assert (Hlt : num_ltb best r' = num_ltb best v').
    { clear -Hbest Hv' Hr' Hbr.
      destruct (num_ltb best r') eqn:?, (num_ltb best v') eqn:?; [done| | |done];
        exfalso; num_solve. }
    rewrite Hlt.
    assert (Hnb : num_leb PosInf (num_max best v') = false).
    { clear -Hbest Hv'. apply num_leb_false. num_solve. }
    rewrite Hnb. apply IH; [by eapply children_ok_tail|].
    left. clear -Hbest Hv'. num_solve.
Qed.

Lemma ab_min_loop_root (succs : list successor) (best : number) (bm : option move) :
  children_ok rec_mm rec_ab true succs →
  pm1 best ∨ num_eq best PosInf →
  ∃ r, minimax_loop rec_mm false succs best bm = Some r ∧
       ab_min_loop rec_ab succs NegInf best best bm = Some r.
Proof.
  revert best bm. induction succs as [|[[i t] ns] rest IH]; intros best bm Hch Hbest.
  - eexists. split; reflexivity.
  - destruct (Hch i t ns (list_elem_of_here _ _) NegInf best)
      as (v' & mv' & r' & mr' & Hmm & Hab & Hv' & Hr' & Hbr).
    { clear -Hbest. num_solve. }
    rewrite (minimax_loop_cons_min _ _ _ _ _ _ _ _ Hmm).
    rewrite (ab_min_loop_cons _ _ _ _ _ _ _ _ _ _ Hab).
    assert (Hsame : num_min best r' = num_min best v' ∧
                    num_min best (num_min best r') = num_min best v').
    { clear -Hbest Hv' Hr' Hbr. split; num_solve. }
    destruct Hsame as [-> ->].
    assert (Hlt : num_ltb r' best = num_ltb v' best).
    { clear -Hbest Hv' Hr' Hbr.
      destruct (num_ltb r' best) eqn:?, (num_ltb v' best) eqn:?; [done| | |done];
        exfalso; num_solve. }
    rewrite Hlt.
    assert (Hnb : num_leb (num_min best v') NegInf = false).
    { clear -Hbest Hv'. apply num_leb_false. num_solve. }
    rewrite Hnb. apply IH; [by eapply children_ok_tail|].
    left. clear -Hbest Hv'. num_solve.
Qed.
End ab_loop_facts.

(** ** [minimax] and [minimax_ab] *)

Lemma utility_terminal (st : list Z) (m : bool) :
  is_terminal st = true → utility st m = if m then -1 else 1.
Proof. intros Ht. unfold utility. rewrite Ht. by destruct m. Qed.

(** On a well-formed state both searches return a game value, and the
    value of the pruned search brackets the exact one. *)
Lemma minimax_ab_fuel_sound (fuel : nat) (st : list Z) :
  nonneg st → (tokens st < fuel)%nat →
  ∀ m alpha beta, num_lt alpha beta →
    ∃ v mv r mr,
      minimax_fuel fuel st m = Some (v, mv) ∧
      minimax_ab_fuel fuel st alpha beta m = Some (r, mr) ∧
      pm1 v ∧ pm1 r ∧ bracket alpha beta v r.
Proof.
  revert st. induction fuel as [|fuel IH]; intros st Hst Hfuel m alpha beta Hwin; [lia|].
  simpl. destruct (is_terminal st) eqn:Hterm.
  - rewrite (utility_terminal _ _ Hterm).
    eexists _, _, _, _. split_and!; [done|done| | |].
    + destruct m; simpl; lia.
    + destruct m; simpl; lia.
    + destruct m; clear -Hwin; num_solve.
  - assert (Hch : ∀ m', children_ok (minimax_fuel fuel) (minimax_ab_fuel fuel) m'
                          (get_successors st)).
    { intros m' i t ns Hin a b Hab. apply IH; [by eapply successor_nonneg| |done].
      apply successor_tokens in Hin. lia. }
    pose proof (nonterminal_has_successor st Hst Hterm) as Hne.
    destruct m.
    + destruct (ab_max_loop_sound _ _ (get_successors st) alpha beta NegInf NegInf
                  None None (Hch false)) as (v & mv & r & mr & H1 & H2 & H3);
        [clear -Hwin; num_solve|by right|clear; num_solve|clear; num_solve|].
      replace (num_max alpha NegInf) with alpha in H2 by (clear; num_solve).
      exists v, mv, r, mr. done.
    + destruct (ab_min_loop_sound _ _ (get_successors st) alpha beta PosInf PosInf
                  None None (Hch true)) as (v & mv & r & mr & H1 & H2 & H3);
        [clear -Hwin; num_solve|by right|clear; num_solve|clear; num_solve|].
      replace (num_min beta PosInf) with beta in H2 by (clear; num_solve).
      exists v, mv, r, mr. done.
Qed.

(** With the full window, value and move agree, whatever the fuel. *)
Lemma minimax_ab_fuel_root (fuel : nat) (st : list Z) (m : bool) :
  nonneg st → (tokens st < fuel)%nat →
  ∃ r, minimax_fuel fuel st m = Some r ∧
       minimax_ab_fuel fuel st NegInf PosInf m = Some r.
Proof.
  intros Hst Hfuel. destruct fuel as [|fuel]; [lia|].
  simpl. destruct (is_terminal st) eqn:Hterm; [eauto|].
  assert (Hch : ∀ m', children_ok (minimax_fuel fuel) (minimax_ab_fuel fuel) m'
                        (get_successors st)).
  { intros m' i t ns Hin a b Hab.
    apply minimax_ab_fuel_sound; [by eapply successor_nonneg| |done].
    apply successor_tokens in Hin. lia. }
  destruct m.
  - apply ab_max_loop_root; [done|by right].
  - apply ab_min_loop_root; [done|by right].
Qed.

(** ** Termination: the fuel is enough *)

Lemma minimax_loop_ext (rec1 rec2 : list Z → bool → option solution) (m : bool)
    (succs : list successor) (bv : number) (bm : option move) :
  (∀ i t ns, (i, t, ns) ∈ succs → rec1 ns (negb m) = rec2 ns (negb m)) →
  minimax_loop rec1 m succs bv bm = minimax_loop rec2 m succs bv bm.
Proof.
  revert bv bm. induction succs as [|[[i t] ns] rest IH]; intros bv bm Hrec; [done|].
  simpl. rewrite <- (Hrec i t ns) by left.
  destruct (rec1 ns (negb m)) as [[val mv]|]; [|done].
  destruct ((m && num_ltb bv val) || (negb m && num_ltb val bv));
    apply IH; intros i' t' ns' Hin; apply (Hrec i' t'); by right.
Qed.

Lemma ab_max_loop_ext (rec1 rec2 : list Z → number → number → bool → option solution)
    (succs : list successor) (alpha beta value : number) (bm : option move) :
  (∀ i t ns a b, (i, t, ns) ∈ succs → rec1 ns a b false = rec2 ns a b false) →
  ab_max_loop rec1 succs alpha beta value bm = ab_max_loop rec2 succs alpha beta value bm.
Proof.
  revert alpha value bm.
  induction succs as [|[[i t] ns] rest IH]; intros alpha value bm Hrec; [done|].
  simpl. rewrite <- (Hrec i t ns) by left.
  destruct (rec1 ns alpha beta false) as [[val mv]|]; [|done].
  destruct (num_ltb value val);
    (destruct (num_leb beta _); [done|]);
    apply IH; intros i' t' ns' a b Hin; apply (Hrec i' t'); by right.
Qed.

Lemma ab_min_loop_ext (rec1 rec2 : list Z → number → number → bool → option solution)
    (succs : list successor) (alpha beta value : number) (bm : option move) :
  (∀ i t ns a b, (i, t, ns) ∈ succs → rec1 ns a b true = rec2 ns a b true) →
  ab_min_loop rec1 succs alpha beta value bm = ab_min_loop rec2 succs alpha beta value bm.
Proof.
  revert beta value bm.
  induction succs as [|[[i t] ns] rest IH]; intros beta value bm Hrec; [done|].
  simpl. rewrite <- (Hrec i t ns) by left.
  destruct (rec1 ns alpha beta true) as [[val mv]|]; [|done].
  destruct (num_ltb val value);
    (destruct (num_leb _ alpha); [done|]);
    apply IH; intros i' t' ns' a b Hin; apply (Hrec i' t'); by right.
Qed.

Lemma ab_max_loop_total (rec : list Z → number → number → bool → option solution)
    (succs : list successor) (alpha beta value : number) (bm : option move) :
  (∀ i t ns a b, (i, t, ns) ∈ succs → is_Some (rec ns a b false)) →
  is_Some (ab_max_loop rec succs alpha beta value bm).
Proof.
  revert alpha value bm.
  induction succs as [|[[i t] ns] rest IH]; intros alpha value bm Hrec; [done|].
  simpl. destruct (Hrec i t ns alpha beta) as [[val mv] ->]; [left|].
  destruct (num_ltb value val);
    (destruct (num_leb beta _); [done|]);
    apply IH; intros i' t' ns' a b Hin; apply (Hrec i' t'); by right.
Qed.

Lemma ab_min_loop_total (rec : list Z → number → number → bool → option solution)
    (succs : list successor) (alpha beta value : number) (bm : option move) :
  (∀ i t ns a b, (i, t, ns) ∈ succs → is_Some (rec ns a b true)) →
  is_Some (ab_min_loop rec succs alpha beta value bm).
Proof.
  revert beta value bm.
  induction succs as [|[[i t] ns] rest IH]; intros beta value bm Hrec; [done|].
  simpl. destruct (Hrec i t ns alpha beta) as [[val mv] ->]; [left|].
  destruct (num_ltb val value);
    (destruct (num_leb _ alpha); [done|]);
    apply IH; intros i' t' ns' a b Hin; apply (Hrec i' t'); by right.
Qed.

(** Any two bounds above the token count give the same result. *)
Lemma minimax_fuel_irrelevant (fuel1 fuel2 : nat) (st : list Z) (m : bool) :
  (tokens st < fuel1)%nat → (tokens st < fuel2)%nat →
  minimax_fuel fuel1 st m = minimax_fuel fuel2 st m.
Proof.
  revert fuel2 st m. induction fuel1 as [|fuel1 IH]; intros [|fuel2] st m H1 H2; try lia.
  simpl. destruct (is_terminal st); [done|].
  destruct m; apply minimax_loop_ext; intros i t ns Hin%successor_tokens; apply IH; lia.
Qed.

Lemma minimax_ab_fuel_irrelevant (fuel1 fuel2 : nat) (st : list Z)
    (alpha beta : number) (m : bool) :
  (tokens st < fuel1)%nat → (tokens st < fuel2)%nat →
  minimax_ab_fuel fuel1 st alpha beta m = minimax_ab_fuel fuel2 st alpha beta m.
Proof.
  revert fuel2 st alpha beta m.
  induction fuel1 as [|fuel1 IH]; intros [|fuel2] st alpha beta m H1 H2; try lia.
  simpl. destruct (is_terminal st); [done|].
  destruct m; [apply ab_max_loop_ext|apply ab_min_loop_ext];
    intros i t ns a b Hin%successor_tokens; apply IH; lia.
Qed.

Lemma minimax_fuel_enough (fuel : nat) (st : list Z) (m : bool) :
  (tokens st < fuel)%nat → minimax_fuel fuel st m = minimax st m.
Proof. intros H. apply minimax_fuel_irrelevant; lia. Qed.

Lemma minimax_ab_fuel_enough (fuel : nat) (st : list Z) (alpha beta : number)
    (m : bool) :
  (tokens st < fuel)%nat →
  minimax_ab_fuel fuel st alpha beta m = minimax_ab st alpha beta m.
Proof. intros H. apply minimax_ab_fuel_irrelevant; lia. Qed.

(** The recursive equations of the two solvers, as the source reads. *)
Lemma minimax_unfold (st : list Z) (m : bool) :
  minimax st m =
  if is_terminal st then Some (Int (utility st m), None)
  else minimax_loop minimax m (get_successors st)
         (if m then NegInf else PosInf) None.
Proof.
  unfold minimax at 1. simpl. destruct (is_terminal st); [done|].
  destruct m; apply minimax_loop_ext;
    intros i t ns Hin%successor_tokens; apply minimax_fuel_enough; lia.
Qed.

Lemma minimax_ab_unfold (st : list Z) (alpha beta : number) (m : bool) :
  minimax_ab st alpha beta m =
  if is_terminal st then Some (Int (utility st m), None)
  else if m then ab_max_loop minimax_ab (get_successors st) alpha beta NegInf None
  else ab_min_loop minimax_ab (get_successors st) alpha beta PosInf None.
Proof.
  unfold minimax_ab at 1. simpl. destruct (is_terminal st); [done|].
  destruct m; [apply ab_max_loop_ext|apply ab_min_loop_ext];
    intros i t ns a b Hin%successor_tokens; apply minimax_ab_fuel_enough; lia.
Qed.

Lemma minimax_fuel_total (fuel : nat) (st : list Z) (m : bool) :
  (tokens st < fuel)%nat → is_Some (minimax_fuel fuel st m).
Proof.
  revert st m. induction fuel as [|fuel IH]; intros st m H; [lia|].
  simpl. destruct (is_terminal st); [done|].
  destruct m; apply minimax_loop_total;
    intros i t ns Hin%successor_tokens; apply IH; lia.
Qed.

Lemma minimax_ab_fuel_total (fuel : nat) (st : list Z) (alpha beta : number)
    (m : bool) :
  (tokens st < fuel)%nat → is_Some (minimax_ab_fuel fuel st alpha beta m).
Proof.
  revert st alpha beta m. induction fuel as [|fuel IH]; intros st alpha beta m H; [lia|].
  simpl. destruct (is_terminal st); [done|].
  destruct m; [apply ab_max_loop_total|apply ab_min_loop_total];
    intros i t ns a b Hin%successor_tokens; apply IH; lia.
Qed.

(** ** Moves returned by the exact solvers *)

Lemma ab_max_loop_move_from (rec : list Z → number → number → bool → option solution)
    (succs : list successor) (alpha beta value : number) (bm : option move)
    (v : number) (mv : option move) :
  ab_max_loop rec succs alpha beta value bm = Some (v, mv) →
  mv = bm ∨ ∃ i t ns, (i, t, ns) ∈ succs ∧ mv = Some (i, t).
Proof.
  revert alpha value bm.
  induction succs as [|[[i t] ns] rest IH]; intros alpha value bm Hl.
  - simpl in Hl. simplify_eq. by left.
  - simpl in Hl. destruct (rec ns alpha beta false) as [[val mv0]|]; [|done].
    destruct (num_ltb value val); (destruct (num_leb beta _);
      [simplify_eq|apply IH in Hl as [->|(i' & t' & ns' & Hin & ->)]]).
    + right. exists i, t, ns. split; [left|done].
    + right. exists i, t, ns. split; [left|done].
    + right. exists i', t', ns'. split; [by right|done].
    + by left.
    + by left.
    + right. exists i', t', ns'. split; [by right|done].
Qed.

Lemma ab_min_loop_move_from (rec : list Z → number → number → bool → option solution)
    (succs : list successor) (alpha beta value : number) (bm : option move)
    (v : number) (mv : option move) :
  ab_min_loop rec succs alpha beta value bm = Some (v, mv) →
  mv = bm ∨ ∃ i t ns, (i, t, ns) ∈ succs ∧ mv = Some (i, t).
Proof.
  revert beta value bm.
  induction succs as [|[[i t] ns] rest IH]; intros beta value bm Hl.
  - simpl in Hl. simplify_eq. by left.
  - simpl in Hl. destruct (rec ns alpha beta true) as [[val mv0]|]; [|done].
    destruct (num_ltb val value); (destruct (num_leb _ alpha);
      [simplify_eq|apply IH in Hl as [->|(i' & t' & ns' & Hin & ->)]]).
    + right. exists i, t, ns. split; [left|done].
    + right. exists i, t, ns. split; [left|done].
    + right. exists i', t', ns'. split; [by right|done].
    + by left.
    + by left.
    + right. exists i', t', ns'. split; [by right|done].
Qed.

Lemma minimax_move_successor (st : list Z) (m : bool) (v : number) (mv : move) :
  minimax st m = Some (v, Some mv) → ∃ ns, (mv.1, mv.2, ns) ∈ get_successors st.
Proof.
  unfold minimax. simpl. destruct (is_terminal st); [done|].
  destruct m; intros [?|(i & t & ns & Hin & ?)]%minimax_loop_move_from;
    simplify_eq; eauto.
Qed.

Lemma minimax_ab_move_successor (st : list Z) (alpha beta : number) (m : bool)
    (v : number) (mv : move) :
  minimax_ab st alpha beta m = Some (v, Some mv) →
  ∃ ns, (mv.1, mv.2, ns) ∈ get_successors st.
Proof.
  unfold minimax_ab. simpl. destruct (is_terminal st); [done|].
  destruct m;
    [intros [?|(i & t & ns & Hin & ?)]%ab_max_loop_move_from
    |intros [?|(i & t & ns & Hin & ?)]%ab_min_loop_move_from];
    simplify_eq; eauto.
Qed.

(** A move taken from the move generator is legal, and playing it
    removes tokens. *)
Lemma successor_move_legal (st : list Z) (mv : move) (ns : list Z) :
  (mv.1, mv.2, ns) ∈ get_successors st →
  legal_move st mv ∧ apply_move st mv = ns ∧ total (apply_move st mv) < total st.
Proof.
  intros Hin. pose proof (successor_total _ _ _ _ Hin) as [Ht Htot].
  apply elem_of_get_successors in Hin as (c & Hl & Hc & ->).
  split_and!; [by exists c|done|]. unfold apply_move. lia.
Qed.

(** ** Lost positions and the value of [minimax] *)

Section lost_positions.
Context (lost : list Z → bool) (dom : list Z → Prop).
Hypothesis dom_nonneg : ∀ st, dom st → nonneg st.
Hypothesis dom_closed : ∀ st i t ns, dom st → (i, t, ns) ∈ get_successors st → dom ns.
Hypothesis lost_moves_out : ∀ st i t ns,
  dom st → lost st = true → (i, t, ns) ∈ get_successors st → lost ns = false.
Hypothesis won_moves_in : ∀ st,
  dom st → lost st = false → ∃ i t ns, (i, t, ns) ∈ get_successors st ∧ lost ns = true.

(** The value of a position is [-1] for the maximizing player and [1]
    for the minimizing one exactly when the player to move is in a lost
    position. *)
Lemma minimax_fuel_lost (fuel : nat) (st : list Z) (m : bool) :
  dom st → (tokens st < fuel)%nat →
  ∃ mv, minimax_fuel fuel st m = Some (Int (if xorb (lost st) m then 1 else -1), mv).
Proof.
  revert st m. induction fuel as [|fuel IH]; intros st m Hdom Hfuel; [lia|].
  simpl. destruct (is_terminal st) eqn:Hterm.
  - destruct (lost st) eqn:Hlost.
    + rewrite (utility_terminal _ _ Hterm). exists None. by destruct m.
    + destruct (won_moves_in st Hdom Hlost) as (i & t & ns & Hin & _).
      rewrite (terminal_no_successors _ Hterm) in Hin. by apply elem_of_nil in Hin.
  - pose proof (nonterminal_has_successor st (dom_nonneg _ Hdom) Hterm) as Hne.
    assert (Hch : ∀ i t ns, (i, t, ns) ∈ get_successors st →
              ∃ mv, minimax_fuel fuel ns (negb m) =
                    Some (Int (if xorb (lost ns) (negb m) then 1 else -1), mv)).
    { intros i t ns Hin. apply IH; [by eapply dom_closed|].
      apply successor_tokens in Hin. lia. }
    destruct (minimax_loop_pm1 (minimax_fuel fuel) m (get_successors st)
                (if m then NegInf else PosInf) None) as (v & mv & Hl & Hv & _).
    { intros i t ns Hin. destruct (Hch i t ns Hin) as [mv Hmv]. eexists _, _.
      split; [done|]. simpl. destruct (xorb _ _); lia. }
    { right. by destruct m. }
    assert (Hloop : minimax_loop (minimax_fuel fuel) m (get_successors st)
                      (if m then NegInf else PosInf) None = Some (v, mv)) by done.
    exists mv.
    replace (let '(best_val, best_move) :=
               if m then (NegInf, None) else (PosInf, None) in
             minimax_loop (minimax_fuel fuel) m (get_successors st) best_val best_move)
      with (minimax_loop (minimax_fuel fuel) m (get_successors st)
              (if m then NegInf else PosInf) None) by (by destruct m).
    rewrite Hloop. do 2 f_equal. destruct (lost st) eqn:Hlost.
    + apply minimax_loop_value_from in Hloop
        as [->|(i & t & ns & mv' & Hin & Hrec)].
      { destruct m; simpl in Hv; done. }
      destruct (Hch i t ns Hin) as [mv'' Hmv]. rewrite Hrec in Hmv.
      rewrite (lost_moves_out _ _ _ _ Hdom Hlost Hin) in Hmv.
      simplify_eq. by destruct m.
    + destruct (won_moves_in st Hdom Hlost) as (i & t & ns & Hin & Hns).
      destruct (Hch i t ns Hin) as [mv' Hmv]. rewrite Hns in Hmv.
      apply minimax_loop_better_child in Hloop as [_ Hbetter].
      specialize (Hbetter _ _ _ _ _ Hin Hmv).
      clear -Hbetter Hv. destruct m; simpl in *; num_solve.
Qed.
End lost_positions.

(** ** Nim-sums *)

Ltac xor_solve :=
  apply Z.bits_inj'; intros ? ?; rewrite ?Z.lxor_spec, ?Z.bits_0;
  repeat match goal with
         | |- context [Z.testbit ?a ?n] => destruct (Z.testbit a n)
         end;
  reflexivity.

Lemma nim_sum_nonneg (st : list Z) : nonneg st → 0 ≤ nim_sum st.
Proof.
  induction 1 as [|h st Hh _ IH]; [done|].
  unfold nim_sum in *. simpl. by apply Z.lxor_nonneg.
Qed.

Lemma nim_sum_alter (f : Z → Z) (st : list Z) (i : nat) (c : Z) :
  st !! i = Some c →
  nim_sum (alter f i st) = Z.lxor (nim_sum st) (Z.lxor c (f c)).
Proof.
  unfold nim_sum. revert i. induction st as [|h st IH]; intros [|i] Hc; simplify_eq/=.
  - xor_solve.
  - rewrite (IH i Hc). xor_solve.
Qed.

(** Some pile has the bit that is set in the Nim-sum. *)
Lemma nim_sum_bit (st : list Z) (k : Z) :
  Z.testbit (nim_sum st) k = true → ∃ i c, st !! i = Some c ∧ Z.testbit c k = true.
Proof.
  unfold nim_sum. induction st as [|h st IH]; simpl.
  - by rewrite Z.bits_0.
  - rewrite Z.lxor_spec. destruct (Z.testbit h k) eqn:Hh.
    + intros _. exists 0%nat, h. done.
    + simpl. intros (i & c & Hc & Hb)%IH. exists (S i), c. done.
Qed.

(** Clearing the top bit of [x] in [c] by a xor lowers [c]. *)
Lemma lxor_lt (c x : Z) :
  0 ≤ c → 0 < x → Z.testbit c (Z.log2 x) = true → 0 ≤ Z.lxor c x < c.
Proof.
  intros Hc Hx Hbit. set (k := Z.log2 x) in *.
  assert (Hk : 0 ≤ k) by apply Z.log2_nonneg.
  assert (Hy : 0 ≤ Z.lxor c x) by (apply Z.lxor_nonneg; lia).
  split; [done|].
  set (y := Z.lxor c x) in *.
  assert (Hhigh : y / 2 ^ (k + 1) = c / 2 ^ (k + 1)).
  { unfold y. rewrite <- !Z.shiftr_div_pow2 by lia. rewrite Z.shiftr_lxor.
    rewrite (Z.shiftr_eq_0 x (k + 1)) by (unfold k; lia). apply Z.lxor_0_r. }
  assert (Hyk : Z.testbit y k = false).
  { unfold y. rewrite Z.lxor_spec, Hbit. unfold k. rewrite Z.bit_log2 by done. done. }
  assert (Hpow : 2 ^ (k + 1) = 2 ^ k * 2) by (rewrite Z.pow_add_r by lia; lia).
  assert (Hpos : 0 < 2 ^ k) by (apply Z.pow_pos_nonneg; lia).
  apply Z.testbit_true in Hbit; [|done]. apply Z.testbit_false in Hyk; [|done].
  pose proof (Z.div_mod c (2 ^ k) ltac:(lia)) as Hc1.
  pose proof (Z.div_mod y (2 ^ k) ltac:(lia)) as Hy1.
  pose proof (Z.mod_pos_bound c (2 ^ k) Hpos) as Hc2.
  pose proof (Z.mod_pos_bound y (2 ^ k) Hpos) as Hy2.
  pose proof (Z.div_mod (c / 2 ^ k) 2 ltac:(lia)) as Hc3.
  pose proof (Z.div_mod (y / 2 ^ k) 2 ltac:(lia)) as Hy3.
  rewrite Z.div_div in Hc3, Hy3 by lia.
  rewrite <- Hpow, Hhigh in Hy3. rewrite <- Hpow in Hc3.
  rewrite Hbit in Hc3. rewrite Hyk in Hy3.
  nia.
Qed.

(** The positions of Nim-sum [0] are the lost ones: a move from one of
    them changes the Nim-sum, and from any other position some move
    reaches one of them. *)
Lemma nim_zero_moves_out (st : list Z) (i : nat) (t : Z) (ns : list Z) :
  nim_zero st = true → (i, t, ns) ∈ get_successors st → nim_zero ns = false.
Proof.
  unfold nim_zero. intros Hz%Z.eqb_eq (c & Hc & Ht & ->)%elem_of_get_successors.
  apply Z.eqb_neq. rewrite (nim_sum_alter _ _ _ _ Hc), Hz, Z.lxor_0_l.
  intros Heq%Z.lxor_eq. lia.
Qed.

Lemma nim_zero_moves_in (st : list Z) :
  nonneg st → nim_zero st = false →
  ∃ i t ns, (i, t, ns) ∈ get_successors st ∧ nim_zero ns = true.
Proof.
  unfold nim_zero. intros Hst Hz%Z.eqb_neq.
  pose proof (nim_sum_nonneg st Hst) as Hx. set (x := nim_sum st) in *.
  destruct (nim_sum_bit st (Z.log2 x)) as (i & c & Hc & Hbit).
  { apply Z.bit_log2. lia. }
  assert (Hc0 : 0 ≤ c).
  { unfold nonneg in Hst. rewrite list.Forall_lookup in Hst. by apply (Hst i). }
  destruct (lxor_lt c x Hc0 ltac:(lia) Hbit) as [Hlo Hhi].
  exists i, (c - Z.lxor c x), (alter (λ c', c' - (c - Z.lxor c x)) i st). split.
  - apply elem_of_get_successors. exists c. split_and!; [done|lia|lia|done].
  - apply Z.eqb_eq. rewrite (nim_sum_alter _ _ _ _ Hc). fold x.
    replace (c - (c - Z.lxor c x)) with (Z.lxor c x) by lia. xor_solve.
Qed.

(** The value [minimax] returns on a well-formed state is decided by the
    Nim-sum: the player to move loses exactly when it is [0]. *)
Lemma minimax_value_by_nim_sum (st : list Z) (m : bool) :
  nonneg st →
  ∃ mv, minimax st m = Some (Int (if xorb (nim_zero st) m then 1 else -1), mv).
Proof.
  intros Hst. apply (minimax_fuel_lost nim_zero nonneg); [done| | | |done|lia].
  - intros s i t ns Hs Hin. by eapply successor_nonneg.
  - intros s i t ns _ Hz Hin. by eapply nim_zero_moves_out.
  - intros s Hs Hz. by apply nim_zero_moves_in.
Qed.

(** ** Monte Carlo tree search: the rollout *)

Lemma random_choice_nonempty {A : Type} (seq : list A) (g : rng) :
  seq ≠ [] → ∃ x, x ∈ seq ∧ random_choice seq g = Ok (x, rng_next g).
Proof.
  intros Hne. unfold random_choice.
  assert (Hlt : (g 0%nat `mod` length seq < length seq)%nat).
  { apply Nat.mod_upper_bound. destruct seq; [done|]. simpl. lia. }
  apply lookup_lt_is_Some in Hlt as [x Hx]. rewrite Hx.
  exists x. split; [by eapply list_elem_of_lookup_2|done].
Qed.

Lemma random_choice_cases {A : Type} (seq : list A) (g : rng) :
  (∃ x, x ∈ seq ∧ random_choice seq g = Ok (x, rng_next g)) ∨
  random_choice seq g = Raise IndexError.
Proof.
  destruct seq as [|a seq].
  - right. unfold random_choice. by rewrite lookup_nil.
  - left. by apply random_choice_nonempty.
Qed.

(** On a well-formed state the rollout ends with the utility of a
    terminal state, whatever the draws. *)
Lemma simulate_loop_nonneg (fuel : nat) (cur : list Z) (m : bool) (g : rng) :
  nonneg cur → (tokens cur < fuel)%nat →
  ∃ z g', simulate_loop fuel cur m g = Ok (z, g') ∧ (z = -1 ∨ z = 1).
Proof.
  revert cur m g. induction fuel as [|fuel IH]; intros cur m g Hst Hfuel; [lia|].
  simpl. destruct (is_terminal cur) eqn:Hterm; simpl.
  - eexists _, _. split; [done|]. rewrite (utility_terminal _ _ Hterm).
    destruct m; simpl; lia.
  - destruct (random_choice_nonempty (get_successors cur) g)
      as ([[i t] ns] & Hin & ->); [by apply nonterminal_has_successor|].
    simpl. apply IH; [by eapply successor_nonneg|].
    apply successor_tokens in Hin. lia.
Qed.

(** On any state the rollout stops within the bound: it returns, or
    [random.choice] raises on an empty move list. *)
Lemma simulate_loop_cases (fuel : nat) (cur : list Z) (m : bool) (g : rng) :
  (tokens cur < fuel)%nat →
  (∃ r, simulate_loop fuel cur m g = Ok r) ∨
  simulate_loop fuel cur m g = Raise IndexError.
Proof.
  revert cur m g. induction fuel as [|fuel IH]; intros cur m g Hfuel; [lia|].
  simpl. destruct (is_terminal cur) eqn:Hterm; simpl; [eauto|].
  destruct (random_choice_cases (get_successors cur) g)
    as [([[i t] ns] & Hin & ->)| ->]; [|by right].
  simpl. apply IH. apply successor_tokens in Hin. lia.
Qed.

(** ** Monte Carlo tree search: [max] with a key *)

Section py_max_facts.
Context {A K : Type} (ltb : K → K → bool) (key : A → outcome K).

Lemma py_max_from_elem (seq : list A) (best : A) (bk : K) (x : A) :
  py_max_from ltb key seq best bk = Ok x → x = best ∨ x ∈ seq.
Proof.
  revert best bk. induction seq as [|y seq IH]; intros best bk Hm; simpl in Hm.
  - simplify_eq. by left.
  - destruct (key y) as [k| |]; simpl in Hm; try done.
    destruct (ltb bk k); apply IH in Hm as [->|Hin].
    + right. left.
    + right. by right.
    + by left.
    + right. by right.
Qed.

Lemma py_max_elem (seq : list A) (x : A) : py_max ltb key seq = Ok x → x ∈ seq.
Proof.
  destruct seq as [|y seq]; simpl; [done|].
  destruct (key y) as [k| |]; simpl; try done.
  intros [->|Hin]%py_max_from_elem; [left|by right].
Qed.

Lemma py_max_from_ok (seq : list A) (best : A) (bk : K) :
  (∀ y, y ∈ seq → ∃ k, key y = Ok k) → ∃ x, py_max_from ltb key seq best bk = Ok x.
Proof.
  revert best bk. induction seq as [|y seq IH]; intros best bk Hkey; simpl; [eauto|].
  destruct (Hkey y) as [k ->]; [left|]. simpl.
  destruct (ltb bk k); apply IH; intros y' Hin; apply Hkey; by right.
Qed.

Lemma py_max_ok (seq : list A) :
  seq ≠ [] → (∀ y, y ∈ seq → ∃ k, key y = Ok k) → ∃ x, py_max ltb key seq = Ok x.
Proof.
  destruct seq as [|y seq]; [done|]. intros _ Hkey. simpl.
  destruct (Hkey y) as [k ->]; [left|]. simpl.
  apply py_max_from_ok. intros y' Hin. apply Hkey. by right.
Qed.
End py_max_facts.

(** ** Monte Carlo tree search: the arena *)

Lemma get_Ok (tree : list MCTSNode) (id : nat) (n : MCTSNode) :
  get tree id = Ok n ↔ tree !! id = Some n.
Proof. unfold get. destruct (tree !! id); split; intros; by simplify_eq. Qed.

Lemma node_le_refl (n : MCTSNode) : node_le n n.
Proof. unfold node_le. split_and!; (done || lia). Qed.

Lemma tree_le_refl (tree : list MCTSNode) : tree_le tree tree.
Proof. split; [done|]. intros j n Hn. exists n. split; [done|apply node_le_refl]. Qed.

Lemma tree_le_trans (t1 t2 t3 : list MCTSNode) :
  tree_le t1 t2 → tree_le t2 t3 → tree_le t1 t3.
Proof.
  intros [Hl1 H1] [Hl2 H2]. split; [congruence|].
  intros j n Hn. destruct (H1 j n Hn) as (n2 & Hn2 & Hle1).
  destruct (H2 j n2 Hn2) as (n3 & Hn3 & Hle2). exists n3. split; [done|].
  unfold node_le in *. destruct Hle1 as (?&?&?&?&?), Hle2 as (?&?&?&?&?).
  split_and!; (congruence || lia).
Qed.

(** One backpropagation step only touches the counters of its node. *)
Lemma tree_le_step (tree : list MCTSNode) (id : nat) (n : MCTSNode) (result : Z) :
  tree !! id = Some n →
  tree_le tree
    (<[id := {| state := state n; parent := parent n; children := children n;
                wins := wins n + result; visits := visits n + 1;
                untried_moves := untried_moves n |}]> tree).
Proof.
  intros Hn. split; [by rewrite length_insert|].
  intros j m Hm. destruct (decide (j = id)) as [->|Hne].
  - rewrite list_lookup_insert_eq by (by eapply lookup_lt_Some).
    eexists. split; [done|]. simplify_eq. unfold node_le. simpl.
    split_and!; (done || lia).
  - rewrite list_lookup_insert_ne by done. exists m. split; [done|apply node_le_refl].
Qed.

Lemma tree_linked_le (tree tree' : list MCTSNode) :
  tree_linked tree → tree_le tree tree' → tree_linked tree'.
Proof.
  intros [Hlen Hlink] [Hl Hle]. split; [lia|].
  intros id n' Hn'.
  assert (Hlt : (id < length tree)%nat) by (apply lookup_lt_Some in Hn'; lia).
  apply lookup_lt_is_Some in Hlt as [n Hn].
  destruct (Hle id n Hn) as (n'' & Hn'' & _ & Hp & Hc & _). simplify_eq.
  rewrite Hp, Hc, Hl. by apply Hlink.
Qed.

Section mcts_facts.
Context {K : Type} (key_ltb : K → K → bool) (ucb1 : Z → Z → Z → K).

Lemma backpropagate_None (fuel : nat) (tree : list MCTSNode) (result : Z) :
  backpropagate fuel tree None result = Ok tree.
Proof. by destruct fuel. Qed.

(** Backpropagation from [id] visits [id] and its parent once more and
    lowers no counter. *)
Lemma backpropagate_effect (fuel : nat) (tree : list MCTSNode) (id : nat)
    (result : Z) (tree' : list MCTSNode) :
  backpropagate fuel tree (Some id) result = Ok tree' →
  tree_le tree tree' ∧ bumped_at tree tree' id ∧
  ∀ n p, tree !! id = Some n → parent n = Some p → bumped_at tree tree' p.
Proof.
  revert tree id. induction fuel as [|fuel IH]; intros tree id Hb; [done|].
  simpl in Hb. unfold get in Hb. destruct (tree !! id) as [n|] eqn:Hn; [|done].
  simpl in Hb. pose proof (tree_le_step tree id n result Hn) as Hstep.
  set (n1 := {| state := state n; parent := parent n; children := children n;
                wins := wins n + result; visits := visits n + 1;
                untried_moves := untried_moves n |}) in *.
  assert (Hn1 : <[id := n1]> tree !! id = Some n1).
  { apply list_lookup_insert_eq. by eapply lookup_lt_Some. }
  destruct (parent n) as [p|] eqn:Hp.
  - apply IH in Hb as (Hle & Hbump & _).
    split_and!.
    + by eapply tree_le_trans.
    + destruct Hle as [_ Hle]. destruct (Hle id n1 Hn1) as (n' & Hn' & Hnle).
      exists n, n'. split_and!; [done|done|].
      destruct Hnle as (_ & _ & _ & _ & Hv). simpl in Hv. lia.
    + intros n0 p0 Hn0 Hp0.
      assert (n0 = n) as -> by congruence. assert (p0 = p) as -> by congruence.
      destruct Hbump as (pn1 & pn' & Hpn1 & Hpn' & Hv).
      destruct (decide (p = id)) as [->|Hne].
      * assert (pn1 = n1) as -> by congruence.
        exists n, pn'. split_and!; [done|done|]. simpl in Hv. lia.
      * rewrite list_lookup_insert_ne in Hpn1 by done.
        exists pn1, pn'. done.
  - rewrite backpropagate_None in Hb. simplify_eq.
    split_and!; [done| |].
    + exists n, n1. split_and!; [done|done|]. simpl. lia.
    + intros n0 p0 Hn0 Hp0. congruence.
Qed.

(** Backpropagation reaches the root when parents come first. *)
Lemma backpropagate_ok (fuel : nat) (tree : list MCTSNode) (id : nat) (result : Z) :
  tree_linked tree → (id < length tree)%nat → (id < fuel)%nat →
  ∃ tree', backpropagate fuel tree (Some id) result = Ok tree'.
Proof.
  revert tree id. induction fuel as [|fuel IH]; intros tree id Hlink Hid Hfuel; [lia|].
  simpl. unfold get. destruct (lookup_lt_is_Some_2 tree id Hid) as [n Hn].
  rewrite Hn. simpl. pose proof (tree_le_step tree id n result Hn) as Hstep.
  destruct (parent n) as [p|] eqn:Hp.
  - pose proof (tree_linked_le _ _ Hlink Hstep) as Hlink'.
    destruct Hlink as [Hlen Hl]. destruct (Hl id n Hn) as [Hpar _].
    specialize (Hpar p Hp). apply IH.
    + done.
    + rewrite length_insert. lia.
    + lia.
  - rewrite backpropagate_None. eauto.
Qed.
End mcts_facts.

(** ** Monte Carlo tree search: one pass of the main loop *)

Section mcts_pass.
Context {K : Type} (key_ltb : K → K → bool) (ucb1 : Z → Z → Z → K).

Lemma uct_key_ok (tree : list MCTSNode) (self : MCTSNode) (c : nat) :
  ucb1_defined tree self → c ∈ children self →
  ∃ k, uct_key ucb1 tree self c = Ok k.
Proof.
  intros [Hself Hch] Hc. destruct (Hch c Hc) as (cn & Hcn & Hv).
  unfold uct_key, get. rewrite Hcn. simpl.
  destruct (Z.eqb_spec (visits cn) 0); [lia|].
  destruct (Z.leb_spec (visits self) 0); [lia|].
  destruct (Z.ltb_spec (visits cn) 0); [lia|]. simpl. eauto.
Qed.

Lemma uct_select_ok (tree : list MCTSNode) (self : MCTSNode) :
  ucb1_defined tree self → children self ≠ [] →
  ∃ c, uct_select key_ltb ucb1 tree self = Ok c ∧ c ∈ children self.
Proof.
  intros Hdef Hne. unfold uct_select.
  destruct (py_max_ok key_ltb (uct_key ucb1 tree self) (children self) Hne) as [c Hc].
  { intros c Hin. by apply uct_key_ok. }
  exists c. split; [done|]. by eapply py_max_elem.
Qed.

(** Selection walks down the tree without raising and stops at a node
    of the arena. *)
Lemma select_ok (tree : list MCTSNode) (fuel id : nat) :
  tree_linked tree → tree_visited tree →
  (id < length tree)%nat → (length tree ≤ fuel + id)%nat →
  ∃ nd n, select key_ltb ucb1 fuel tree id = Ok nd ∧ tree !! nd = Some n.
Proof.
  intros Hlink Hvis. revert id.
  induction fuel as [|fuel IH]; intros id Hid Hfuel; [lia|].
  simpl. unfold get. destruct (lookup_lt_is_Some_2 tree id Hid) as [n Hn].
  rewrite Hn. simpl.
  destruct (untried_moves n) as [|u us] eqn:Hu; [|eauto].
  destruct (children n) as [|c0 cs] eqn:Hc; [eauto|].
  destruct (Hvis id n Hn) as (_ & Hchv & Hself).
  destruct (uct_select_ok tree n) as (c & Hsel & Hin).
  { split; [apply Hself; by rewrite Hc|done]. }
  { by rewrite Hc. }
  rewrite Hsel. simpl.
  destruct Hlink as [_ Hl]. destruct (Hl id n Hn) as [_ Hrange].
  specialize (Hrange c Hin). apply IH; lia.
Qed.

Lemma pop_snoc {A : Type} (l : list A) (x : A) (rest : list A) :
  pop l = Some (x, rest) → l = rest ++ [x].
Proof.
  unfold pop. destruct (reverse l) as [|y r] eqn:Hr; [done|].
  intros [= -> <-]. rewrite <- (reverse_involutive l), Hr.
  by rewrite reverse_cons.
Qed.

Lemma pop_None {A : Type} (l : list A) : pop l = None → l = [].
Proof.
  unfold pop. destruct (reverse l) as [|y r] eqn:Hr; [|done].
  intros _. rewrite <- (reverse_involutive l), Hr. done.
Qed.

(** The arena after an expansion of node [nd]. *)
Lemma expand_lookup (tree : list MCTSNode) (nd : nat) (n' child : MCTSNode) (j : nat) :
  (nd < length tree)%nat →
  (<[nd := n']> tree ++ [child]) !! j =
  if decide (j = nd) then Some n'
  else if decide (j = length tree) then Some child
  else tree !! j.
Proof.
  intros Hnd. destruct (decide (j = nd)) as [->|Hne].
  - rewrite lookup_app_l by (rewrite length_insert; lia).
    by apply list_lookup_insert_eq.
  - destruct (decide (j = length tree)) as [->|Hne'].
    + rewrite lookup_app_r by (rewrite length_insert; lia).
      rewrite length_insert. by rewrite Nat.sub_diag.
    + destruct (decide (j < length tree)%nat).
      * rewrite lookup_app_l by (rewrite length_insert; lia).
        by apply list_lookup_insert_ne.
      * rewrite (lookup_ge_None_2 tree) by lia.
        apply lookup_ge_None_2. rewrite length_app, length_insert. simpl. lia.
Qed.

Lemma tree_le_inv (tree tree' : list MCTSNode) (j : nat) (n' : MCTSNode) :
  tree_le tree tree' → tree' !! j = Some n' →
  ∃ n, tree !! j = Some n ∧ node_le n n'.
Proof.
  intros [Hl Hle] Hn'.
  assert (Hlt : (j < length tree)%nat) by (apply lookup_lt_Some in Hn'; lia).
  apply lookup_lt_is_Some in Hlt as [n Hn].
  destruct (Hle j n Hn) as (n'' & Hn'' & Hnle). exists n. split; [done|congruence].
Qed.

Lemma tree_visited_le (tree tree' : list MCTSNode) :
  tree_visited tree → tree_le tree tree' → tree_visited tree'.
Proof.
  intros Hvis Hle id n' Hn'.
  destruct (tree_le_inv _ _ _ _ Hle Hn') as (n & Hn & _ & _ & Hc & _ & Hv).
  destruct (Hvis id n Hn) as (H0 & Hch & Hself). rewrite Hc. split_and!.
  - lia.
  - intros c Hin. destruct (Hch c Hin) as (cn & Hcn & Hcv).
    destruct Hle as [_ Hle]. destruct (Hle c cn Hcn) as (cn' & Hcn' & _ & _ & _ & _ & Hv').
    exists cn'. split; [done|lia].
  - intros Hne. specialize (Hself Hne). lia.
Qed.

(** A pass of the main loop keeps the arena linked and leaves every
    child, and every node that has children, visited. *)
Lemma iteration_inv (tree : list MCTSNode) (g : rng) (tree' : list MCTSNode) (g' : rng) :
  tree_linked tree → tree_visited tree →
  iteration key_ltb ucb1 (tree, g) = Ok (tree', g') →
  tree_linked tree' ∧ tree_visited tree'.
Proof.
  intros Hlink Hvis Hit. unfold iteration in Hit.
  destruct (select key_ltb ucb1 (length tree) tree 0) as [nd| |]; simpl in Hit; try done.
  unfold expand, get in Hit. destruct (tree !! nd) as [n|] eqn:Hn; simpl in Hit; [|done].
  pose proof (lookup_lt_Some _ _ _ Hn) as Hnd.
  destruct (pop (untried_moves n)) as [[[[i t] ns] rest]|] eqn:Hpop; simpl in Hit.
  - set (n1 := {| state := state n; parent := parent n;
                  children := children n ++ [length tree];
                  wins := wins n; visits := visits n; untried_moves := rest |}) in *.
    set (child := new_node ns (Some nd)) in *.
    set (tree1 := <[nd := n1]> tree ++ [child]) in *.
    assert (Hlook : ∀ j, tree1 !! j =
              if decide (j = nd) then Some n1
              else if decide (j = length tree) then Some child else tree !! j).
    { intros j. by apply expand_lookup. }
    assert (Hlen1 : length tree1 = S (length tree)).
    { unfold tree1. rewrite length_app, length_insert. simpl. lia. }
    unfold get in Hit. rewrite (Hlook (length tree)) in Hit.
    destruct (decide (length tree = nd)) as [|_]; [lia|].
    destruct (decide (length tree = length tree)) as [_|]; [|done].
    simpl in Hit. destruct (simulate ns g) as [[result g1]| |]; simpl in Hit; try done.
    destruct (backpropagate (length tree1) tree1 (Some (length tree)) result)
      as [tree2| |] eqn:Hbp; simpl in Hit; try done.
    assert (tree2 = tree') as -> by congruence.
    apply backpropagate_effect in Hbp as (Hle & Hbc & Hbpar).
    assert (Hlink1 : tree_linked tree1).
    { destruct Hlink as [Hlen Hl]. split; [lia|]. intros id m Hm.
      rewrite Hlook in Hm. rewrite Hlen1.
      destruct (decide (id = nd)) as [->|?]; [|destruct (decide (id = length tree)) as [->|?]].
      - assert (m = n1) as -> by congruence. destruct (Hl nd n Hn) as [Hp Hc]. split.
        + apply Hp.
        + simpl. intros c [Hin|Hin%list_elem_of_singleton]%elem_of_app.
          * specialize (Hc c Hin). lia.
          * lia.
      - assert (m = child) as -> by congruence. simpl. split.
        + intros p [= <-]. lia.
        + intros c Hin. by apply elem_of_nil in Hin.
      - destruct (Hl id m Hm) as [Hp Hc]. split; [done|].
        intros c Hin. specialize (Hc c Hin). lia. }
    split; [by eapply tree_linked_le|].
    assert (Hold : ∀ c cn, tree !! c = Some cn →
              ∃ cn2, tree' !! c = Some cn2 ∧ visits cn ≤ visits cn2).
    { intros c cn Hcn.
      assert (∃ cn1, tree1 !! c = Some cn1 ∧ visits cn1 = visits cn) as (cn1 & Hcn1 & Hv1).
      { rewrite Hlook. destruct (decide (c = nd)) as [->|?].
        - exists n1. split; [done|]. simpl. congruence.
        - destruct (decide (c = length tree)) as [->|?]; [|eauto].
          apply lookup_lt_Some in Hcn. lia. }
      destruct Hle as [_ Hle]. destruct (Hle c cn1 Hcn1) as (cn2 & Hcn2 & _ & _ & _ & _ & Hv2).
      exists cn2. split; [done|lia]. }
    assert (Hnew : ∃ cn2, tree' !! length tree = Some cn2 ∧ 1 ≤ visits cn2).
    { destruct Hbc as (c1 & c2 & Hc1 & Hc2 & Hv). rewrite Hlook in Hc1.
      destruct (decide (length tree = nd)) as [|_]; [lia|].
      destruct (decide (length tree = length tree)) as [_|]; [|done].
      assert (c1 = child) as -> by congruence. simpl in Hv. exists c2. split; [done|lia]. }
    intros id n2 Hn2.
    destruct (tree_le_inv _ _ _ _ Hle Hn2) as (m & Hm & _ & _ & Hc & _ & Hv).
    rewrite Hc. rewrite Hlook in Hm.
    destruct (decide (id = nd)) as [->|?]; [|destruct (decide (id = length tree)) as [->|?]].
    + assert (m = n1) as -> by congruence. simpl in *.
      destruct (Hvis nd n Hn) as (H0 & Hch & _).
      destruct (Hbpar child nd) as (p1 & p2 & Hp1 & Hp2 & Hpv); [|done|].
      { rewrite Hlook. destruct (decide (length tree = nd)) as [|_]; [lia|].
        by destruct (decide (length tree = length tree)). }
      rewrite Hlook in Hp1. destruct (decide (nd = nd)) as [_|]; [|done].
      assert (p1 = n1) as -> by congruence. assert (p2 = n2) as -> by congruence.
      simpl in Hpv. split_and!; [lia| |lia].
      intros c [Hin|Hin%list_elem_of_singleton]%elem_of_app.
      * destruct (Hch c Hin) as (cn & Hcn & Hcv).
        destruct (Hold c cn Hcn) as (cn2 & Hcn2 & Hv2). exists cn2. split; [done|lia].
      * by subst c.
    + assert (m = child) as -> by congruence. simpl in *. split_and!; [lia| |done].
      intros c Hin. by apply elem_of_nil in Hin.
    + destruct (Hvis id m Hm) as (H0 & Hch & Hself). split_and!; [lia| |].
      * intros c Hin. destruct (Hch c Hin) as (cn & Hcn & Hcv).
        destruct (Hold c cn Hcn) as (cn2 & Hcn2 & Hv2). exists cn2. split; [done|lia].
      * intros Hne. specialize (Hself Hne). lia.
  - unfold get in Hit. rewrite Hn in Hit. simpl in Hit.
    destruct (simulate (state n) g) as [[result g1]| |]; simpl in Hit; try done.
    destruct (backpropagate (length tree) tree (Some nd) result)
      as [tree2| |] eqn:Hbp; simpl in Hit; try done.
    assert (tree2 = tree') as -> by congruence.
    apply backpropagate_effect in Hbp as (Hle & _ & _).
    split; [by eapply tree_linked_le|by eapply tree_visited_le].
Qed.
End mcts_pass.

Section mcts_run.
Context {K : Type} (key_ltb : K → K → bool) (ucb1 : Z → Z → Z → K).

Lemma new_tree_inv (st : list Z) :
  tree_linked [new_node st None] ∧ tree_visited [new_node st None].
Proof.
  split.
  - split; [simpl; lia|]. intros [|id] n Hn; [|done]. simpl in Hn.
    assert (n = new_node st None) as -> by congruence. simpl. split; [done|].
    intros c Hin. by apply elem_of_nil in Hin.
  - intros [|id] n Hn; [|done]. simpl in Hn.
    assert (n = new_node st None) as -> by congruence. simpl. split_and!; [lia| |done].
    intros c Hin. by apply elem_of_nil in Hin.
Qed.

Lemma iterations_inv (k : nat) (tree : list MCTSNode) (g : rng)
    (tree' : list MCTSNode) (g' : rng) :
  tree_linked tree → tree_visited tree →
  iterations key_ltb ucb1 k (tree, g) = Ok (tree', g') →
  tree_linked tree' ∧ tree_visited tree'.
Proof.
  revert tree g. induction k as [|k IH]; intros tree g Hlink Hvis Hit;
    cbn [iterations] in Hit.
  - injection Hit as <- <-. done.
  - destruct (iteration key_ltb ucb1 (tree, g)) as [[tree1 g1]| |] eqn:H1;
      cbn [mbind outcome_bind] in Hit; try done.
    apply iteration_inv in H1 as [Hlink1 Hvis1]; [|done|done]. by eapply IH.
Qed.

(** The last loop of [mcts] returns one of the moves it goes through. *)
Lemma find_move_successor (target : list Z) (succs : list successor) (mv : move) :
  find_move target succs = Some mv → ∃ ns, (mv.1, mv.2, ns) ∈ succs.
Proof.
  induction succs as [|[[i t] ns] rest IH]; simpl; [done|].
  destruct (bool_decide (ns = target)).
  - intros [= <-]. exists ns. left.
  - intros (ns' & Hin)%IH. exists ns'. by right.
Qed.

Lemma mcts_move_successor (st : list Z) (iter_count : Z) (g : rng) (mv : move) :
  mcts key_ltb ucb1 st iter_count g = Ok (Some mv) →
  ∃ ns, (mv.1, mv.2, ns) ∈ get_successors st.
Proof.
  unfold mcts.
  destruct (iterations _ _ _ _) as [[tree g1]| |]; simpl; try done.
  destruct (get tree 0) as [r| |]; simpl; try done.
  destruct (py_max _ _ _) as [bc| |]; simpl; try done.
  destruct (get tree bc) as [bcn| |]; simpl; try done.
  intros [= Hf]. by eapply find_move_successor.
Qed.

(** A root without moves stays alone in the arena. *)
Lemma iteration_lone_root (st : list Z) (w v : Z) (g : rng) :
  is_terminal st = true →
  iteration key_ltb ucb1 ([lone_root st w v], g) = Ok ([lone_root st (w + 1) (v + 1)], g).
Proof.
  intros Hterm. unfold iteration. simpl. unfold simulate. simpl.
  by rewrite Hterm.
Qed.

Lemma iterations_lone_root (k : nat) (st : list Z) (w v : Z) (g : rng) :
  is_terminal st = true →
  iterations key_ltb ucb1 k ([lone_root st w v], g) =
  Ok ([lone_root st (w + Z.of_nat k) (v + Z.of_nat k)], g).
Proof.
  intros Hterm. revert w v. induction k as [|k IH]; intros w v.
  - simpl. by rewrite !Z.add_0_r.
  - cbn [iterations]. rewrite (iteration_lone_root _ _ _ _ Hterm). simpl.
    rewrite IH. do 4 f_equal; lia.
Qed.

(** On a terminal root the final [max] is taken over no child. *)
Lemma mcts_terminal_raises (st : list Z) (iter_count : Z) (g : rng) :
  is_terminal st = true →
  mcts key_ltb ucb1 st iter_count g = Raise EmptyMaxError.
Proof.
  intros Hterm. unfold mcts.
  replace (new_node st None) with (lone_root st 0 0)
    by (unfold new_node, lone_root; by rewrite (terminal_no_successors _ Hterm)).
  by rewrite (iterations_lone_root _ _ _ _ _ Hterm).
Qed.

(** Without a pass of the main loop the root has no child either. *)
Lemma mcts_no_iteration_raises (st : list Z) (iter_count : Z) (g : rng) :
  iter_count ≤ 0 →
  mcts key_ltb ucb1 st iter_count g = Raise EmptyMaxError.
Proof.
  intros Hn. unfold mcts. replace (Z.to_nat iter_count) with 0%nat by lia. done.
Qed.
End mcts_run.

(** A run of [k + j] passes is a run of [k] passes followed by [j]
    more: every pass starts from the arena some number of passes has
    built. *)
Lemma iterations_split {K : Type} (key_ltb : K → K → bool) (ucb1 : Z → Z → Z → K)
    (k j : nat) (tg : list MCTSNode * rng) :
  iterations key_ltb ucb1 (k + j) tg =
  iterations key_ltb ucb1 k tg ≫= iterations key_ltb ucb1 j.
Proof.
  revert tg. induction k as [|k IH]; intros tg; [done|].
  cbn [Nat.add iterations].
  destruct (iteration key_ltb ucb1 tg) as [tg1| |]; cbn [mbind outcome_bind]; [|done|done].
  apply IH.
Qed.

(** ** The order of the generated moves *)

Lemma StronglySorted_lookup_2 {A : Type} (R : A → A → Prop) (l : list A) :
  (∀ i j a b, (i < j)%nat → l !! i = Some a → l !! j = Some b → R a b) →
  StronglySorted R l.
Proof.
  induction l as [|x l IH]; intros H; constructor.
  - apply IH. intros i j a b Hij Ha Hb. apply (H (S i) (S j)); [lia|done|done].
  - apply Forall_lookup. intros j b Hb. apply (H 0%nat (S j)); [lia|done|done].
Qed.

Lemma StronglySorted_bind {A B : Type} (R' : A → A → Prop) (R : B → B → Prop)
    (f : A → list B) (l : list A) :
  StronglySorted R' l →
  (∀ x, x ∈ l → StronglySorted R (f x)) →
  (∀ x y a b, R' x y → a ∈ f x → b ∈ f y → R a b) →
  StronglySorted R (l ≫= f).
Proof.
  intros Hl Hf HR. induction Hl as [|x l Hl IH Hx]; csimpl; [constructor|].
  apply StronglySorted_app. split_and!.
  - intros a b Ha (y & Hb & Hy)%list_elem_of_bind.
    rewrite Forall_forall in Hx. eapply HR; [|done|done]. by apply Hx.
  - apply Hf. left.
  - apply IH. intros y Hy. apply Hf. by right.
Qed.

Lemma StronglySorted_fmap {A B : Type} (R : B → B → Prop) (f : A → B) (l : list A) :
  StronglySorted (λ a b, R (f a) (f b)) l → StronglySorted R (f <$> l).
Proof.
  induction 1 as [|x l Hl IH Hx]; csimpl; constructor; [done|].
  by apply Forall_fmap.
Qed.

Lemma StronglySorted_NoDup {A : Type} (R : A → A → Prop) (l : list A) :
  (∀ x, ¬ R x x) → StronglySorted R l → NoDup l.
Proof.
  intros Hirr. induction 1 as [|x l Hl IH Hx]; constructor; [|done].
  intros Hin. rewrite Forall_forall in Hx. by apply (Hirr x), Hx.
Qed.

Lemma enumerate_sorted {A : Type} (l : list A) :
  StronglySorted (λ a b : nat * A, (a.1 < b.1)%nat) (enumerate l).
Proof.
  apply StronglySorted_lookup_2. intros i j a b Hij Ha Hb. unfold enumerate in *.
  rewrite list_lookup_imap in Ha, Hb.
  destruct (l !! i); [|done]. destruct (l !! j); [|done]. by simplify_eq/=.
Qed.

Lemma range_sorted (lo hi : Z) : StronglySorted Z.lt (range lo hi).
Proof.
  apply StronglySorted_lookup_2. intros i j a b Hij Ha Hb. unfold range in *.
  apply lookup_seqZ in Ha as [-> _], Hb as [-> _]. lia.
Qed.

Lemma get_successors_sorted (st : list Z) :
  StronglySorted move_order (get_successors st).
Proof.
  unfold get_successors.
  apply (StronglySorted_bind (λ a b : nat * Z, (a.1 < b.1)%nat)).
  - apply enumerate_sorted.
  - intros [i cnt] _. apply (StronglySorted_bind Z.lt).
    + apply range_sorted.
    + intros t _. repeat constructor.
    + intros t1 t2 a b Ht ->%list_elem_of_singleton ->%list_elem_of_singleton.
      right. simpl. split; [done|lia].
  - intros [i1 c1] [i2 c2] a b Hi (t1 & ->%list_elem_of_singleton & _)%list_elem_of_bind
      (t2 & ->%list_elem_of_singleton & _)%list_elem_of_bind.
    left. done.
Qed.

(** No two generated triples make the same move. *)
Lemma get_successors_moves_NoDup (st : list Z) :
  NoDup ((λ x : successor, x.1) <$> get_successors st).
Proof.
  apply (StronglySorted_NoDup
           (λ a b : move, (a.1 < b.1)%nat ∨ (a.1 = b.1 ∧ a.2 < b.2))).
  - intros [i t]. simpl. lia.
  - apply StronglySorted_fmap. apply get_successors_sorted.
Qed.

(** The resulting state of a move, read pile by pile. *)
Lemma alter_sub_ext (st ns : list Z) (i : nat) (t c : Z) :
  st !! i = Some c →
  ns = alter (λ c, c - t) i st ↔
  length ns = length st ∧ ns !! i = Some (c - t) ∧ ∀ j, j ≠ i → ns !! j = st !! j.
Proof.
  intros Hc. split.
  - intros ->. split_and!.
    + apply length_alter.
    + by rewrite list_lookup_alter_eq, Hc.
    + intros j Hj. by apply list_lookup_alter_ne.
  - intros (Hlen & Hi & Hj). apply list_eq. intros j.
    destruct (decide (j = i)) as [->|Hne].
    + by rewrite list_lookup_alter_eq, Hc.
    + rewrite list_lookup_alter_ne by done. by apply Hj.
Qed.

(** ** The move generator on list objects and the pure one *)

Lemma insert_as_alter (f : Z → Z) (l : list Z) (i : nat) (c : Z) :
  l !! i = Some c → <[i := f c]> l = alter f i l.
Proof.
  intros Hc. apply list_eq. intros j. destruct (decide (j = i)) as [->|Hne].
  - rewrite list_lookup_insert_eq by (by eapply lookup_lt_Some).
    by rewrite list_lookup_alter_eq, Hc.
  - rewrite list_lookup_insert_ne by done. by rewrite list_lookup_alter_ne.
Qed.

Lemma obj_inv_snoc (h : store) (done : list successor)
    (acc : store * list (nat * Z * nat)) (i : nat) (t : Z) (ns : list Z) :
  obj_inv h done acc →
  obj_inv h (done ++ [(i, t, ns)]) (acc.1 ++ [ns], acc.2 ++ [(i, t, length acc.1)]).
Proof.
  intros (H1 & H2 & H3). unfold obj_inv. simpl. rewrite !fmap_app. simpl.
  split_and!.
  - rewrite H1. by rewrite <- app_assoc.
  - by rewrite H2.
  - rewrite H3, H1, !length_app, length_fmap, Nat.add_1_r, seq_S. done.
Qed.

Lemma successor_step_spec (h : store) (st_ref : nat) (st : list Z) (i : nat)
    (c t : Z) (done : list successor) (acc : store * list (nat * Z * nat)) :
  h !! st_ref = Some st → st !! i = Some c → obj_inv h done acc →
  ∃ acc', successor_step st_ref i acc t = Some acc' ∧
          obj_inv h (done ++ [(i, t, alter (λ c, c - t) i st)]) acc'.
Proof.
  intros Hst Hc Hinv. pose proof Hinv as (H1 & _ & _).
  assert (Hst' : acc.1 !! st_ref = Some st).
  { rewrite H1. rewrite lookup_app_l by (by eapply lookup_lt_Some). done. }
  unfold successor_step, list_copy, list_isub. rewrite Hst'. simpl.
  rewrite list_lookup_middle by done. simpl. rewrite Hc. simpl.
  eexists. split; [done|].
  rewrite insert_app_r_alt by lia. rewrite Nat.sub_diag. simpl.
  rewrite (insert_as_alter (λ c, c - t) st i c Hc).
  by apply obj_inv_snoc.
Qed.

Lemma successor_steps_spec (h : store) (st_ref : nat) (st : list Z) (i : nat)
    (c : Z) (ts : list Z) (done : list successor)
    (acc : store * list (nat * Z * nat)) :
  h !! st_ref = Some st → st !! i = Some c → obj_inv h done acc →
  ∃ acc', for_each (successor_step st_ref i) ts acc = Some acc' ∧
          obj_inv h (done ++ ((λ t, (i, t, alter (λ c, c - t) i st)) <$> ts)) acc'.
Proof.
  intros Hst Hc. revert done acc. induction ts as [|t ts IH]; intros done acc Hinv.
  - exists acc. split; [done|]. by rewrite app_nil_r.
  - destruct (successor_step_spec h st_ref st i c t done acc Hst Hc Hinv)
      as (acc1 & Hstep & Hinv1).
    destruct (IH _ _ Hinv1) as (acc' & Hrest & Hinv').
    exists acc'. split.
    + simpl. rewrite Hstep. done.
    + csimpl. by rewrite <- app_assoc in Hinv'.
Qed.

Lemma successor_piles_spec (h : store) (st_ref : nat) (st : list Z)
    (piles : list nat) (done : list successor) (acc : store * list (nat * Z * nat)) :
  h !! st_ref = Some st → Forall (λ i, (i < length st)%nat) piles →
  obj_inv h done acc →
  ∃ acc', for_each (successor_pile st_ref) piles acc = Some acc' ∧
          obj_inv h (done ++ (piles ≫= pile_successors st)) acc'.
Proof.
  intros Hst Hpiles. revert done acc.
  induction Hpiles as [|i piles Hi _ IH]; intros done acc Hinv.
  - exists acc. split; [done|]. by rewrite app_nil_r.
  - apply lookup_lt_is_Some in Hi as [c Hc].
    pose proof Hinv as (H1 & _ & _).
    assert (Hst' : acc.1 !! st_ref = Some st).
    { rewrite H1. rewrite lookup_app_l by (by eapply lookup_lt_Some). done. }
    destruct (successor_steps_spec h st_ref st i c (range 1 (c + 1)) done acc
                Hst Hc Hinv) as (acc1 & Hsteps & Hinv1).
    destruct (IH _ _ Hinv1) as (acc' & Hrest & Hinv').
    exists acc'. split.
    + assert (Hpile : successor_pile st_ref acc i = Some acc1).
      { unfold successor_pile. rewrite Hst'. simpl. rewrite Hc. done. }
      cbn [for_each]. rewrite Hpile. done.
    + csimpl. unfold pile_successors at 1. rewrite Hc.
      by rewrite <- app_assoc in Hinv'.
Qed.

Lemma bind_singleton_fmap {A B : Type} (f : A → B) (l : list A) :
  l ≫= (λ x, [f x]) = f <$> l.
Proof. induction l as [|x l IH]; csimpl; [done|]. by rewrite IH. Qed.

Lemma successors_by_pile_prefix (full l : list Z) :
  (∀ i c, l !! i = Some c → full !! i = Some c) →
  enumerate l ≫= (λ '(i, cnt), take ← range 1 (cnt + 1);
                     [(i, take, alter (λ c, c - take) i full)])
  = seq 0 (length l) ≫= pile_successors full.
Proof.
  unfold enumerate. induction l as [|c l IH] using rev_ind; intros Hpre; [done|].
  rewrite imap_app, length_app, Nat.add_1_r, seq_S, !bind_app. f_equal.
  - apply IH. intros i c' Hl. apply Hpre. by apply lookup_app_l_Some.
  - csimpl. rewrite !app_nil_r, Nat.add_0_r. unfold pile_successors.
    rewrite (Hpre (length l) c) by (by apply list_lookup_middle).
    apply bind_singleton_fmap.
Qed.

Lemma get_successors_by_pile (st : list Z) :
  get_successors st = seq 0 (length st) ≫= pile_successors st.
Proof. unfold get_successors. by apply successors_by_pile_prefix. Qed.

(** The object-level generator makes one new object per triple, in
    order, holding the state the pure generator computes; it writes
    into no object that existed before the call, the input included. *)
Lemma get_successors_obj_spec (h : store) (st_ref : nat) (st : list Z) :
  h !! st_ref = Some st →
  ∃ h' moves,
    get_successors_obj h st_ref = Some (h', moves) ∧
    h' = h ++ (get_successors st).*2 ∧
    moves.*1 = (get_successors st).*1 ∧
    moves.*2 = seq (length h) (length (get_successors st)).
Proof.
  intros Hst.
  destruct (successor_piles_spec h st_ref st (seq 0 (length st)) [] (h, []) Hst)
    as ([h' moves] & Hrun & H1 & H2 & H3).
  { apply Forall_forall. intros i Hi%elem_of_seq. lia. }
  { unfold obj_inv. simpl. by rewrite app_nil_r. }
  exists h', moves. unfold get_successors_obj. rewrite Hst. simpl.
  rewrite get_successors_by_pile. done.
Qed.

(** ** Monte Carlo tree search: the outcome of a run *)

Section mcts_outcome.
Context {K : Type} (key_ltb : K → K → bool) (ucb1 : Z → Z → Z → K).

(** What a pass that returns has done. *)
Lemma iteration_Ok_inv (tree : list MCTSNode) (g : rng) (tree' : list MCTSNode)
    (g' : rng) :
  iteration key_ltb ucb1 (tree, g) = Ok (tree', g') →
  ∃ nd n result,
    select key_ltb ucb1 (length tree) tree 0 = Ok nd ∧ tree !! nd = Some n ∧
    ((pop (untried_moves n) = None ∧
      simulate (state n) g = Ok (result, g') ∧
      backpropagate (length tree) tree (Some nd) result = Ok tree') ∨
     (∃ i t ns rest,
        pop (untried_moves n) = Some ((i, t, ns), rest) ∧
        simulate ns g = Ok (result, g') ∧
        backpropagate (S (length tree)) (expanded tree nd n ns rest)
          (Some (length tree)) result = Ok tree')).
Proof.
  intros Hit. unfold iteration in Hit.
  destruct (select key_ltb ucb1 (length tree) tree 0) as [nd| |]; simpl in Hit; try done.
  unfold expand, get in Hit. destruct (tree !! nd) as [n|] eqn:Hn; simpl in Hit; [|done].
  pose proof (lookup_lt_Some _ _ _ Hn) as Hnd.
  exists nd, n.
  destruct (pop (untried_moves n)) as [[[[i t] ns] rest]|] eqn:Hpop; simpl in Hit.
  - assert (Hexp : <[nd := {| state := state n; parent := parent n;
                              children := children n ++ [length tree];
                              wins := wins n; visits := visits n;
                              untried_moves := rest |}]> tree
                   ++ [new_node ns (Some nd)] = expanded tree nd n ns rest) by done.
    rewrite Hexp in Hit.
    assert (Hnew : expanded tree nd n ns rest !! length tree
                   = Some (new_node ns (Some nd))).
    { unfold expanded. rewrite expand_lookup by done.
      destruct (decide (length tree = nd)) as [|_]; [lia|].
      by destruct (decide (length tree = length tree)). }
    unfold get in Hit. rewrite Hnew in Hit.
    simpl in Hit. destruct (simulate ns g) as [[result g1]| |] eqn:Hsim; simpl in Hit; try done.
    replace (length (expanded tree nd n ns rest)) with (S (length tree)) in Hit
      by (unfold expanded; rewrite length_app, length_insert; simpl; lia).
    destruct (backpropagate _ _ _ _) as [tree2| |] eqn:Hbp; simpl in Hit; try done.
    injection Hit as <- <-. exists result. split_and!; [done|done|].
    right. exists i, t, ns, rest. done.
  - unfold get in Hit. rewrite Hn in Hit. simpl in Hit.
    destruct (simulate (state n) g) as [[result g1]| |] eqn:Hsim; simpl in Hit; try done.
    destruct (backpropagate _ _ _ _) as [tree2| |] eqn:Hbp; simpl in Hit; try done.
    injection Hit as <- <-. exists result. split_and!; [done|done|].
    left. done.
Qed.

Lemma tree_game_le (st : list Z) (tree tree' : list MCTSNode) :
  tree_game st tree → tree_le tree tree' → tree_game st tree'.
Proof.
  intros [(r & Hr & Hst) Hg] Hle. split.
  - destruct Hle as [_ Hle]. destruct (Hle 0%nat r Hr) as (r' & Hr' & Hs & _).
    exists r'. split; [done|congruence].
  - intros id n' Hn'.
    destruct (tree_le_inv _ _ _ _ Hle Hn') as (n & Hn & Hs & _ & Hc & Hu & _).
    destruct (Hg id n Hn) as [Hun Hch]. rewrite Hs, Hu, Hc. split; [done|].
    intros c Hin. destruct (Hch c Hin) as (cn & i & t & Hcn & Hmv).
    destruct Hle as [_ Hle]. destruct (Hle c cn Hcn) as (cn' & Hcn' & Hs' & _).
    exists cn', i, t. rewrite Hs'. done.
Qed.

Lemma tree_nonneg_le (tree tree' : list MCTSNode) :
  tree_nonneg tree → tree_le tree tree' → tree_nonneg tree'.
Proof.
  intros Hnn Hle id n' Hn'.
  destruct (tree_le_inv _ _ _ _ Hle Hn') as (n & Hn & Hs & _). rewrite Hs. by eapply Hnn.
Qed.

Lemma expanded_lookup (tree : list MCTSNode) (nd : nat) (n : MCTSNode)
    (ns : list Z) (rest : list successor) (j : nat) :
  (nd < length tree)%nat →
  expanded tree nd n ns rest !! j =
  if decide (j = nd)
  then Some {| state := state n; parent := parent n;
               children := children n ++ [length tree];
               wins := wins n; visits := visits n; untried_moves := rest |}
  else if decide (j = length tree) then Some (new_node ns (Some nd))
  else tree !! j.
Proof. intros Hnd. unfold expanded. by apply expand_lookup. Qed.

Lemma expanded_length (tree : list MCTSNode) (nd : nat) (n : MCTSNode)
    (ns : list Z) (rest : list successor) :
  length (expanded tree nd n ns rest) = S (length tree).
Proof. unfold expanded. rewrite length_app, length_insert. simpl. lia. Qed.

Lemma expanded_linked (tree : list MCTSNode) (nd : nat) (n : MCTSNode)
    (ns : list Z) (rest : list successor) :
  tree_linked tree → tree !! nd = Some n →
  tree_linked (expanded tree nd n ns rest).
Proof.
  intros [Hlen Hl] Hn. pose proof (lookup_lt_Some _ _ _ Hn) as Hnd.
  split; [rewrite expanded_length; lia|]. intros id m Hm.
  rewrite expanded_lookup in Hm by done. rewrite expanded_length.
  destruct (decide (id = nd)) as [->|?]; [|destruct (decide (id = length tree)) as [->|?]].
  - injection Hm as <-. simpl. destruct (Hl nd n Hn) as [Hp Hc]. split; [done|].
    intros c [Hin|Hin%list_elem_of_singleton]%elem_of_app.
    + specialize (Hc c Hin). lia.
    + lia.
  - injection Hm as <-. simpl. split.
    + intros p [= <-]. lia.
    + intros c Hin. by apply elem_of_nil in Hin.
  - destruct (Hl id m Hm) as [Hp Hc]. split; [done|].
    intros c Hin. specialize (Hc c Hin). lia.
Qed.

Lemma expanded_game (st : list Z) (tree : list MCTSNode) (nd : nat) (n : MCTSNode)
    (i : nat) (t : Z) (ns : list Z) (rest : list successor) :
  tree_game st tree → tree !! nd = Some n →
  pop (untried_moves n) = Some ((i, t, ns), rest) →
  tree_game st (expanded tree nd n ns rest).
Proof.
  intros [(r & Hr & Hst) Hg] Hn Hpop%pop_snoc.
  pose proof (lookup_lt_Some _ _ _ Hn) as Hnd.
  destruct (Hg nd n Hn) as [Hun Hch].
  assert (Hmv : (i, t, ns) ∈ get_successors (state n)).
  { apply Hun. rewrite Hpop. apply elem_of_app. right. left. }
  assert (Hold : ∀ c cn, tree !! c = Some cn →
            ∃ cn', expanded tree nd n ns rest !! c = Some cn' ∧ state cn' = state cn).
  { intros c cn Hcn. rewrite expanded_lookup by done.
    destruct (decide (c = nd)) as [->|?].
    - eexists. split; [done|]. simpl. congruence.
    - destruct (decide (c = length tree)) as [->|?]; [|eauto].
      apply lookup_lt_Some in Hcn. lia. }
  split.
  - destruct (Hold 0%nat r Hr) as (r' & Hr' & Hs). exists r'. split; [done|congruence].
  - intros id m Hm. rewrite expanded_lookup in Hm by done.
    destruct (decide (id = nd)) as [->|?]; [|destruct (decide (id = length tree)) as [->|?]].
    + injection Hm as <-. simpl. split.
      * intros x Hx. apply Hun. rewrite Hpop. apply elem_of_app. by left.
      * intros c [Hin|Hin%list_elem_of_singleton]%elem_of_app.
        -- destruct (Hch c Hin) as (cn & i' & t' & Hcn & Hmv').
           destruct (Hold c cn Hcn) as (cn' & Hcn' & Hs).
           exists cn', i', t'. rewrite Hs. done.
        -- subst c. exists (new_node ns (Some nd)), i, t. split; [|done].
           rewrite expanded_lookup by done.
           destruct (decide (length tree = nd)) as [|_]; [lia|].
           by destruct (decide (length tree = length tree)).
    + injection Hm as <-. simpl. split; [done|].
      intros c Hin. by apply elem_of_nil in Hin.
    + destruct (Hg id m Hm) as [Hun' Hch']. split; [done|].
      intros c Hin. destruct (Hch' c Hin) as (cn & i' & t' & Hcn & Hmv').
      destruct (Hold c cn Hcn) as (cn' & Hcn' & Hs).
      exists cn', i', t'. rewrite Hs. done.
Qed.

Lemma expanded_nonneg (st : list Z) (tree : list MCTSNode) (nd : nat) (n : MCTSNode)
    (i : nat) (t : Z) (ns : list Z) (rest : list successor) :
  tree_game st tree → tree_nonneg tree → tree !! nd = Some n →
  pop (untried_moves n) = Some ((i, t, ns), rest) →
  tree_nonneg (expanded tree nd n ns rest).
Proof.
  intros [_ Hg] Hnn Hn Hpop%pop_snoc.
  pose proof (lookup_lt_Some _ _ _ Hn) as Hnd.
  destruct (Hg nd n Hn) as [Hun _].
  assert (Hmv : (i, t, ns) ∈ get_successors (state n)).
  { apply Hun. rewrite Hpop. apply elem_of_app. right. left. }
  intros id m Hm. rewrite expanded_lookup in Hm by done.
  destruct (decide (id = nd)) as [->|?]; [|destruct (decide (id = length tree)) as [->|?]].
  - injection Hm as <-. simpl. by eapply Hnn.
  - injection Hm as <-. simpl. eapply successor_nonneg; [|done]. by eapply Hnn.
  - by eapply Hnn.
Qed.

Lemma iteration_game (st : list Z) (tree : list MCTSNode) (g : rng)
    (tree' : list MCTSNode) (g' : rng) :
  tree_game st tree → tree_nonneg tree →
  iteration key_ltb ucb1 (tree, g) = Ok (tree', g') →
  tree_game st tree' ∧ tree_nonneg tree'.
Proof.
  intros Hg Hnn (nd & n & result & _ & Hn & [(_ & _ & Hbp)|
    (i & t & ns & rest & Hpop & _ & Hbp)])%iteration_Ok_inv;
    apply backpropagate_effect in Hbp as (Hle & _ & _).
  - split; [by eapply tree_game_le|by eapply tree_nonneg_le].
  - split.
    + eapply tree_game_le; [|done]. by eapply expanded_game.
    + eapply tree_nonneg_le; [|done]. by eapply expanded_nonneg.
Qed.

(** A pass never stops the model and raises nothing but the
    [IndexError] of a rollout that meets a state without moves. *)
Lemma iteration_cases (tree : list MCTSNode) (g : rng) :
  tree_linked tree → tree_visited tree →
  ∃ nd n, select key_ltb ucb1 (length tree) tree 0 = Ok nd ∧ tree !! nd = Some n ∧
    ((∃ tg', iteration key_ltb ucb1 (tree, g) = Ok tg') ∨
     (iteration key_ltb ucb1 (tree, g) = Raise IndexError ∧
      simulate (rollout_state n) g = Raise IndexError)).
Proof.
  intros Hlink Hvis.
  destruct (select_ok key_ltb ucb1 tree (length tree) 0 Hlink Hvis)
    as (nd & n & Hsel & Hn); [by destruct Hlink|lia|].
  pose proof (lookup_lt_Some _ _ _ Hn) as Hnd.
  exists nd, n. split; [done|]. split; [done|].
  unfold iteration, rollout_state. rewrite Hsel. simpl. unfold expand, get. rewrite Hn.
  simpl. destruct (pop (untried_moves n)) as [[[[i t] ns] rest]|] eqn:Hpop; simpl.
  - assert (Hexp : <[nd := {| state := state n; parent := parent n;
                              children := children n ++ [length tree];
                              wins := wins n; visits := visits n;
                              untried_moves := rest |}]> tree
                   ++ [new_node ns (Some nd)] = expanded tree nd n ns rest) by done.
    rewrite Hexp.
    assert (Hnew : expanded tree nd n ns rest !! length tree
                   = Some (new_node ns (Some nd))).
    { rewrite expanded_lookup by done.
      destruct (decide (length tree = nd)) as [|_]; [lia|].
      by destruct (decide (length tree = length tree)). }
    unfold get. rewrite Hnew. simpl.
    destruct (simulate_loop_cases (S (tokens ns)) ns true g) as [[[result g1] Hs]|Hs];
      [lia| |]; unfold simulate; rewrite Hs; simpl; [|by right].
    destruct (backpropagate_ok (length (expanded tree nd n ns rest))
                (expanded tree nd n ns rest) (length tree) result) as [tree' ->].
    + by apply expanded_linked.
    + rewrite expanded_length. lia.
    + rewrite expanded_length. lia.
    + left. simpl. eauto.
  - unfold get. rewrite Hn. simpl.
    destruct (simulate_loop_cases (S (tokens (state n))) (state n) true g)
      as [[[result g1] Hs]|Hs]; [lia| |]; unfold simulate; rewrite Hs; simpl; [|by right].
    destruct (backpropagate_ok (length tree) tree nd result) as [tree' ->];
      [done|done|done|].
    left. simpl. eauto.
Qed.

Lemma iteration_progress (tree : list MCTSNode) (g : rng) :
  tree_linked tree → tree_visited tree →
  (∃ tg', iteration key_ltb ucb1 (tree, g) = Ok tg') ∨
  iteration key_ltb ucb1 (tree, g) = Raise IndexError.
Proof.
  intros Hlink Hvis.
  destruct (iteration_cases tree g Hlink Hvis) as (nd & n & _ & _ & [?|[? _]]); eauto.
Qed.

Lemma iteration_progress_nonneg (st : list Z) (tree : list MCTSNode) (g : rng) :
  tree_linked tree → tree_visited tree → tree_game st tree → tree_nonneg tree →
  ∃ tg', iteration key_ltb ucb1 (tree, g) = Ok tg'.
Proof.
  intros Hlink Hvis [_ Hg] Hnn.
  destruct (iteration_cases tree g Hlink Hvis) as (nd & n & _ & Hn & [?|[_ Hs]]); [done|].
  exfalso.
  assert (Hroll : nonneg (rollout_state n)).
  { unfold rollout_state.
    destruct (pop (untried_moves n)) as [[[[i t] ns] rest]|] eqn:Hpop; [|by eapply Hnn].
    apply pop_snoc in Hpop. destruct (Hg nd n Hn) as [Hun _].
    eapply (successor_nonneg (state n) i t); [by eapply Hnn|].
    apply Hun. rewrite Hpop. apply elem_of_app. right. left. }
  destruct (simulate_loop_nonneg (S (tokens (rollout_state n))) (rollout_state n) true g)
    as (z & g' & Hs' & _); [done|lia|].
  unfold simulate in Hs. congruence.
Qed.

(** Once the root has a child or an untried move, it has a child after
    every pass. *)
Lemma iteration_root_children (tree : list MCTSNode) (g : rng) (r : MCTSNode)
    (tree' : list MCTSNode) (g' : rng) :
  tree !! 0%nat = Some r → children r ≠ [] ∨ untried_moves r ≠ [] →
  iteration key_ltb ucb1 (tree, g) = Ok (tree', g') →
  ∃ r', tree' !! 0%nat = Some r' ∧ children r' ≠ [].
Proof.
  intros Hr Hroot Hit.
  pose proof (lookup_lt_Some _ _ _ Hr) as Hlen.
  apply iteration_Ok_inv in Hit as (nd & n & result & Hsel & Hn & Hcase).
  pose proof (lookup_lt_Some _ _ _ Hn) as Hnd.
  assert (Hnd0 : children r = [] → nd = 0%nat ∧ n = r).
  { intros Hc. destruct Hroot as [?|Hu]; [done|].
    destruct (length tree) as [|fuel] eqn:Hl; [lia|]. simpl in Hsel.
    unfold get in Hsel. rewrite Hr in Hsel. simpl in Hsel.
    destruct (untried_moves r); [done|]. injection Hsel as <-. split; [done|congruence]. }
  destruct Hcase as [(Hpop & _ & Hbp)|(i & t & ns & rest & Hpop & _ & Hbp)];
    apply backpropagate_effect in Hbp as ([_ Hle] & _ & _).
  - destruct (Hle 0%nat r Hr) as (r' & Hr' & _ & _ & Hc & _).
    exists r'. split; [done|]. rewrite Hc.
    destruct (decide (children r = [])) as [Hnil|]; [|done].
    destruct (Hnd0 Hnil) as [-> ->]. apply pop_None in Hpop.
    destruct Hroot; congruence.
  - assert (∃ r1, expanded tree nd n ns rest !! 0%nat = Some r1 ∧ children r1 ≠ [])
      as (r1 & Hr1 & Hc1).
    { rewrite expanded_lookup by done. destruct (decide (0%nat = nd)) as [<-|Hne].
      - eexists. split; [done|]. simpl. by destruct (children n).
      - destruct (decide (0%nat = length tree)); [lia|].
        exists r. split; [done|]. intros Hnil. destruct (Hnd0 Hnil). lia. }
    destruct (Hle 0%nat r1 Hr1) as (r' & Hr' & _ & _ & Hc & _).
    exists r'. split; [done|]. by rewrite Hc.
Qed.

Lemma iterations_progress (k : nat) (tree : list MCTSNode) (g : rng) :
  tree_linked tree → tree_visited tree →
  (∃ tree' g', iterations key_ltb ucb1 k (tree, g) = Ok (tree', g') ∧
               tree_linked tree' ∧ tree_visited tree') ∨
  iterations key_ltb ucb1 k (tree, g) = Raise IndexError.
Proof.
  revert tree g. induction k as [|k IH]; intros tree g Hlink Hvis.
  - left. exists tree, g. done.
  - cbn [iterations].
    destruct (iteration_progress tree g Hlink Hvis) as [[[tree1 g1] H1]| ->];
      [|by right].
    rewrite H1. cbn [mbind outcome_bind].
    apply iteration_inv in H1 as [Hlink1 Hvis1]; [|done|done]. by apply IH.
Qed.

Lemma iterations_progress_nonneg (st : list Z) (k : nat) (tree : list MCTSNode)
    (g : rng) :
  tree_linked tree → tree_visited tree → tree_game st tree → tree_nonneg tree →
  ∃ tree' g', iterations key_ltb ucb1 k (tree, g) = Ok (tree', g') ∧
    tree_linked tree' ∧ tree_visited tree' ∧ tree_game st tree' ∧ tree_nonneg tree'.
Proof.
  revert tree g. induction k as [|k IH]; intros tree g Hlink Hvis Hg Hnn.
  - exists tree, g. done.
  - cbn [iterations].
    destruct (iteration_progress_nonneg st tree g Hlink Hvis Hg Hnn) as [[tree1 g1] H1].
    rewrite H1. cbn [mbind outcome_bind].
    pose proof (iteration_inv _ _ _ _ _ _ Hlink Hvis H1) as [Hlink1 Hvis1].
    pose proof (iteration_game _ _ _ _ _ Hg Hnn H1) as [Hg1 Hnn1].
    by apply IH.
Qed.

Lemma iterations_root_children (k : nat) (tree : list MCTSNode) (g : rng)
    (r : MCTSNode) (tree' : list MCTSNode) (g' : rng) :
  tree !! 0%nat = Some r → children r ≠ [] ∨ untried_moves r ≠ [] →
  iterations key_ltb ucb1 (S k) (tree, g) = Ok (tree', g') →
  ∃ r', tree' !! 0%nat = Some r' ∧ children r' ≠ [].
Proof.
  revert tree g r. induction k as [|k IH]; intros tree g r Hr Hroot Hit;
    cbn [iterations] in Hit;
    destruct (iteration key_ltb ucb1 (tree, g)) as [[tree1 g1]| |] eqn:H1;
    cbn [mbind outcome_bind] in Hit; try done;
    destruct (iteration_root_children _ _ _ _ _ Hr Hroot H1) as (r1 & Hr1 & Hc1).
  - injection Hit as <- <-. eauto.
  - eapply (IH tree1 g1 r1); [done|by left|done].
Qed.

Lemma find_move_found (target : list Z) (succs : list successor) (i : nat) (t : Z) :
  (i, t, target) ∈ succs → ∃ mv, find_move target succs = Some mv.
Proof.
  induction succs as [|[[i' t'] ns] rest IH]; intros Hin; [by apply elem_of_nil in Hin|].
  simpl. destruct (bool_decide (ns = target)) eqn:Hd; [eauto|].
  apply elem_of_cons in Hin as [Heq|Hin]; [|by apply IH].
  apply bool_decide_eq_false in Hd. congruence.
Qed.

Lemma mcts_pick_cases (st : list Z) (tree : list MCTSNode) :
  tree_linked tree → tree_visited tree →
  ∃ r, tree !! 0%nat = Some r ∧
    ((children r = [] ∧ mcts_pick st tree = Raise EmptyMaxError) ∨
     (∃ c cn, c ∈ children r ∧ tree !! c = Some cn ∧
              mcts_pick st tree = Ok (find_move (state cn) (get_successors st)))).
Proof.
  intros [Hlen Hl] Hvis. destruct (lookup_lt_is_Some_2 tree 0 Hlen) as [r Hr].
  exists r. split; [done|]. unfold mcts_pick. rewrite (proj2 (get_Ok tree 0 r) Hr). simpl.
  destruct (children r) as [|c0 cs] eqn:Hc; [by left|]. right.
  destruct (Hvis 0%nat r Hr) as (_ & Hch & _).
  destruct (py_max_ok Z.ltb (λ c, cn ← get tree c; Ok (visits cn)) (c0 :: cs))
    as [c Hmax]; [done| |].
  { intros c Hin. rewrite <- Hc in Hin. destruct (Hch c Hin) as (cn & Hcn & _).
    unfold get. rewrite Hcn. simpl. eauto. }
  pose proof (py_max_elem _ _ _ _ Hmax) as Hin. rewrite Hmax. simpl.
  rewrite <- Hc in Hin. destruct (Hch c Hin) as (cn & Hcn & _).
  exists c, cn. rewrite (proj2 (get_Ok tree c cn) Hcn). split_and!; [by rewrite <- Hc|done|done].
Qed.
End mcts_outcome.

(** ** The move [minimax] keeps *)

Section minimax_loop_choice.
Context (rec : list Z → bool → option solution).

(** Either the loop keeps what it started from, no successor doing
    strictly better, or it returns the first successor of the list whose
    value is the best one. *)
Lemma minimax_loop_first (m : bool) (succs : list successor) (bv : number)
    (bm : option move) (v : number) (mv : option move) :
  minimax_loop rec m succs bv bm = Some (v, mv) →
  (v = bv ∧ mv = bm ∧
   ∀ i t ns, (i, t, ns) ∈ succs →
     ∃ val mv', rec ns (negb m) = Some (val, mv') ∧ better m val bv) ∨
  (∃ pre i t ns post mv',
     succs = pre ++ (i, t, ns) :: post ∧ mv = Some (i, t) ∧
     rec ns (negb m) = Some (v, mv') ∧ strictly_better m bv v ∧
     (∀ i' t' ns', (i', t', ns') ∈ pre →
        ∃ val mv'', rec ns' (negb m) = Some (val, mv'') ∧ strictly_better m val v) ∧
     (∀ i' t' ns', (i', t', ns') ∈ post →
        ∃ val mv'', rec ns' (negb m) = Some (val, mv'') ∧ better m val v)).
Proof.
  revert bv bm. induction succs as [|[[i t] ns] rest IH]; intros bv bm Hl.
  - simpl in Hl. injection Hl as <- <-. left. split_and!; [done|done|].
    intros ??? Hin. by apply elem_of_nil in Hin.
  - simpl in Hl. destruct (rec ns (negb m)) as [[val mv0]|] eqn:Hval; [|done].
    destruct ((m && num_ltb bv val) || (negb m && num_ltb val bv)) eqn:Hc;
      apply IH in Hl
        as [(-> & -> & Hrest)|(pre & i' & t' & ns' & post & mv' & -> & -> & Hrec & Hsb & Hpre & Hpost)].
    + right. exists [], i, t, ns, rest, mv0. split_and!; [done|done|done| | |done].
      * unfold strictly_better. destruct m; simpl in Hc; num_solve.
      * intros ??? Hin. by apply elem_of_nil in Hin.
    + right. exists ((i, t, ns) :: pre), i', t', ns', post, mv'.
      split_and!; [done|done|done| | |done].
      * unfold strictly_better in *. destruct m; simpl in Hc; num_solve.
      * intros i'' t'' ns'' [Heq|Hin]%elem_of_cons; [|by eapply Hpre].
        injection Heq as -> -> ->. eauto.
    + left. split_and!; [done|done|].
      intros i'' t'' ns'' [Heq|Hin]%elem_of_cons; [|by eapply Hrest].
      injection Heq as -> -> ->. exists val, mv0. split; [done|].
      unfold better. destruct m; simpl in Hc; num_solve.
    + right. exists ((i, t, ns) :: pre), i', t', ns', post, mv'.
      split_and!; [done|done|done|done| |done].
      intros i'' t'' ns'' [Heq|Hin]%elem_of_cons; [|by eapply Hpre].
      injection Heq as -> -> ->. exists val, mv0. split; [done|].
      unfold strictly_better in *. destruct m; simpl in Hc; num_solve.
Qed.
End minimax_loop_choice.

(** ** Winning and losing moves of the exact solvers *)

Lemma terminal_nim_zero (st : list Z) : is_terminal st = true → nim_zero st = true.
Proof.
  rewrite is_terminal_true. unfold nim_zero. intros H.
  apply Z.eqb_eq. induction H as [|x l Hx _ IH]; [done|].
  simpl. rewrite IH, Hx. done.
Qed.

Lemma minimax_winning_move (st : list Z) (m : bool) :
  nonneg st → nim_zero st = false →
  ∃ mv ns, minimax st m = Some (Int (if m then 1 else -1), Some mv) ∧
    (mv.1, mv.2, ns) ∈ get_successors st ∧ nim_zero ns = true.
Proof.
  intros Hnn Hnz.
  destruct (minimax_value_by_nim_sum st m Hnn) as [mv Hmm].
  rewrite Hnz in Hmm. simpl in Hmm.
  assert (Hterm : is_terminal st = false).
  { destruct (is_terminal st) eqn:E; [|done].
    apply terminal_nim_zero in E. congruence. }
  pose proof Hmm as Hmm2. rewrite minimax_unfold, Hterm in Hmm2.
  apply minimax_loop_first in Hmm2.
  destruct Hmm2 as [(Hv & _) | (pre & i & t & ns & post & mv' & Hs & Hmv & Hrec & _)].
  - destruct m; discriminate.
  - subst mv. exists (i, t), ns. split; [done|].
    assert (Hin : (i, t, ns) ∈ get_successors st).
    { rewrite Hs. apply elem_of_app. right. left. }
    split; [done|].
    destruct (minimax_value_by_nim_sum ns (negb m)) as [mv2 H2].
    { by eapply successor_nonneg. }
    rewrite Hrec in H2. destruct (nim_zero ns), m; simpl in *; congruence.
Qed.

Lemma get_successors_head (st : list Z) (i : nat) (c : Z) :
  st !! i = Some c → 0 < c → (∀ j c', (j < i)%nat → st !! j = Some c' → c' ≤ 0) →
  ∃ rest, get_successors st = (i, 1, alter (λ c, c - 1) i st) :: rest.
Proof.
  intros Hi Hc Hlow.
  assert (Hin : (i, 1, alter (λ c, c - 1) i st) ∈ get_successors st).
  { apply elem_of_get_successors. exists c. split_and!; (done || lia). }
  pose proof (get_successors_sorted st) as Hsort.
  destruct (get_successors st) as [|[[i' t'] ns'] rest] eqn:Hs.
  { by apply elem_of_nil in Hin. }
  assert (Hhd : (i', t', ns') ∈ get_successors st) by (rewrite Hs; left).
  apply elem_of_get_successors in Hhd as (c' & Hi' & Ht' & Hns').
  apply elem_of_cons in Hin as [Heq | Hin].
  - exists rest. by rewrite Heq.
  - apply StronglySorted_inv in Hsort as [_ Hall].
    rewrite list.Forall_forall in Hall. specialize (Hall _ Hin).
    unfold move_order in Hall. simpl in Hall.
    destruct Hall as [Hlt | [_ Hlt]]; [|lia].
    specialize (Hlow _ _ Hlt Hi'). lia.
Qed.

Lemma minimax_lost_move (st : list Z) (m : bool) (i : nat) (c : Z) :
  nonneg st → nim_zero st = true →
  st !! i = Some c → 0 < c → (∀ j c', (j < i)%nat → st !! j = Some c' → c' ≤ 0) →
  minimax st m = Some (Int (if m then -1 else 1), Some (i, 1)).
Proof.
  intros Hnn Hz Hi Hc Hlow.
  destruct (minimax_value_by_nim_sum st m Hnn) as [mv Hmm].
  rewrite Hz in Hmm.
  assert (Hterm : is_terminal st = false).
  { destruct (is_terminal st) eqn:E; [|done].
    apply is_terminal_true in E. rewrite list.Forall_forall in E.
    specialize (E c (list_elem_of_lookup_2 _ _ _ Hi)). lia. }
  destruct (get_successors_head st i c Hi Hc Hlow) as [rest Hs].
  pose proof Hmm as Hmm2. rewrite minimax_unfold, Hterm in Hmm2.
  apply minimax_loop_first in Hmm2.
  destruct Hmm2 as [(Hv & _) | (pre & i' & t' & ns & post & mv' & Hs' & Hmv & Hrec & _ & Hpre & _)].
  - destruct m; discriminate.
  - destruct pre as [|[[i0 t0] ns0] pre].
    + simpl in Hs'. rewrite Hs in Hs'. simplify_eq.
      rewrite Hmm. by destruct m.
    + exfalso. destruct (Hpre i0 t0 ns0) as (val & mv'' & Hval & Hsb); [left|].
      destruct (minimax_value_by_nim_sum ns0 (negb m)) as [mv2 H2].
      { eapply (successor_nonneg st i0 t0); [done|]. rewrite Hs'. left. }
      rewrite Hval in H2. simplify_eq.
      destruct m, (nim_zero ns0); simpl in Hsb; lia.
Qed.

Lemma minimax_ab_full_window (st : list Z) (m : bool) :
  nonneg st → minimax_ab st NegInf PosInf m = minimax st m.
Proof.
  intros Hnn.
  destruct (minimax_ab_fuel_root (S (tokens st)) st m Hnn) as (r & H1 & H2); [lia|].
  unfold minimax_ab, minimax. congruence.
Qed.

(** ** The reward of a rollout *)

Lemma iter_rng_next (k : nat) (g : rng) :
  Nat.iter k rng_next (rng_next g) = Nat.iter (S k) rng_next g.
Proof. induction k as [|k IH]; [done|]. simpl in *. by rewrite IH. Qed.

Lemma simulate_loop_rollout (fuel : nat) (cur : list Z) (m : bool) (g : rng) :
  nonneg cur → (tokens cur < fuel)%nat →
  ∃ path, rollout fuel cur g = Ok path ∧ play cur path ∧
    is_terminal (play_end cur path) = true ∧
    Z.of_nat (length path) + total (play_end cur path) ≤ total cur ∧
    simulate_loop fuel cur m g =
      Ok ((if xorb m (Nat.even (length path)) then -1 else 1),
          Nat.iter (length path) rng_next g).
Proof.
  revert cur m g. induction fuel as [|fuel IH]; intros cur m g Hnn Hfuel; [lia|].
  simpl. destruct (is_terminal cur) eqn:Hterm; simpl.
  - exists []. simpl. split; [done|]. split; [done|]. split; [done|].
    split; [lia|]. rewrite utility_terminal by done. by destruct m.
  - destruct (random_choice_nonempty (get_successors cur) g) as ([[i t] ns] & Hin & Hch).
    { by apply nonterminal_has_successor. }
    rewrite Hch. cbn [mbind outcome_bind].
    pose proof (successor_tokens _ _ _ _ Hin) as Htok.
    pose proof (successor_nonneg _ _ _ _ Hnn Hin) as Hnn'.
    pose proof (successor_total _ _ _ _ Hin) as [Ht Htot].
    destruct (IH ns (negb m) (rng_next g) Hnn') as (path & Hr & Hplay & Hend & Hlen & Hsim); [lia|].
    rewrite Hr. cbn [mbind outcome_bind].
    exists ((i, t, ns) :: path). split; [done|]. split; [done|].
    split; [done|]. split.
    { cbn [length play_end]. lia. }
    rewrite Hsim. rewrite iter_rng_next. cbn [length].
    rewrite Nat.even_succ, <- Nat.negb_even.
    by destruct m, (Nat.even (length path)).
Qed.

Lemma simulate_loop_pm (fuel : nat) (cur : list Z) (m : bool) (g : rng)
    (z : Z) (g' : rng) :
  simulate_loop fuel cur m g = Ok (z, g') → z = -1 ∨ z = 1.
Proof.
  revert cur m g. induction fuel as [|fuel IH]; intros cur m g H; [done|].
  simpl in H. destruct (is_terminal cur) eqn:Hterm; simpl in H.
  - rewrite utility_terminal in H by done. destruct m; simplify_eq/=; lia.
  - destruct (random_choice (get_successors cur) g) as [[[[i t] ns] g1]| |]; try done.
    cbn [mbind outcome_bind] in H. by eapply IH.
Qed.

(** ** Monte Carlo tree search: the statistics of the arena *)

Lemma node_step_refl (result : Z) (n : MCTSNode) : node_step result n n.
Proof. unfold node_step. split_and!; try done. by left. Qed.

Lemma tree_rooted_le (tree tree' : list MCTSNode) :
  tree_rooted tree → tree_le tree tree' → tree_rooted tree'.
Proof.
  intros Hroot Hle id n' Hn' Hp.
  destruct (tree_le_inv _ _ _ _ Hle Hn') as (n & Hn & _ & Hpar & _).
  apply (Hroot id n Hn). congruence.
Qed.

Lemma expanded_rooted (tree : list MCTSNode) (nd : nat) (n : MCTSNode)
    (ns : list Z) (rest : list successor) :
  tree_rooted tree → tree !! nd = Some n →
  tree_rooted (expanded tree nd n ns rest).
Proof.
  intros Hroot Hn id m Hm Hp.
  pose proof (lookup_lt_Some _ _ _ Hn) as Hnd.
  rewrite expanded_lookup in Hm by done.
  destruct (decide (id = nd)) as [->|?]; [|destruct (decide (id = length tree)) as [->|?]].
  - injection Hm as <-. simpl in Hp. by apply (Hroot nd n).
  - injection Hm as <-. done.
  - by apply (Hroot id m).
Qed.

(** Backpropagation from [id] adds one visit and the result to [id],
    to the root and to some nodes before [id], and to nothing else. *)
Lemma backpropagate_exact (fuel : nat) (tree : list MCTSNode) (id : nat)
    (result : Z) (tree' : list MCTSNode) :
  tree_linked tree → tree_rooted tree →
  backpropagate fuel tree (Some id) result = Ok tree' →
  length tree' = length tree ∧
  ∀ j n, tree !! j = Some n →
    ∃ n', tree' !! j = Some n' ∧ node_step result n n' ∧
      ((id < j)%nat → n' = n) ∧
      (j = id ∨ j = 0%nat → visits n' = visits n + 1 ∧ wins n' = wins n + result).
Proof.
  revert tree id. induction fuel as [|fuel IH]; intros tree id Hlink Hroot Hb; [done|].
  simpl in Hb. unfold get in Hb. destruct (tree !! id) as [n|] eqn:Hn; [|done].
  simpl in Hb. pose proof (tree_le_step tree id n result Hn) as Hstep.
  pose proof (tree_linked_le _ _ Hlink Hstep) as Hlink1.
  pose proof (tree_rooted_le _ _ Hroot Hstep) as Hroot1.
  set (n1 := {| state := state n; parent := parent n; children := children n;
                wins := wins n + result; visits := visits n + 1;
                untried_moves := untried_moves n |}) in *.
  assert (Hidlt : (id < length tree)%nat) by (by eapply lookup_lt_Some).
  assert (Hn1 : <[id := n1]> tree !! id = Some n1) by (by apply list_lookup_insert_eq).
  assert (Hnn1 : node_step result n n1).
  { unfold node_step. simpl. split_and!; try done. by right. }
  destruct (parent n) as [p|] eqn:Hp.
  - assert (Hpid : (p < id)%nat).
    { destruct Hlink as [_ Hl]. destruct (Hl id n Hn) as [Hpar _]. by apply Hpar. }
    destruct (IH _ _ Hlink1 Hroot1 Hb) as [Hlen Hall].
    split; [by rewrite Hlen, length_insert|].
    intros j m Hm. destruct (decide (j = id)) as [->|Hne].
    + assert (m = n) as -> by congruence.
      destruct (Hall id n1 Hn1) as (n' & Hn' & _ & Hsame & _).
      rewrite (Hsame Hpid) in Hn'. exists n1. split_and!; try done.
      intros; lia.
    + assert (Hm1 : <[id := n1]> tree !! j = Some m) by (by rewrite list_lookup_insert_ne).
      destruct (Hall j m Hm1) as (n' & Hn' & Hst & Hsame & Hbump).
      exists n'. split_and!; try done.
      * intros Hlt. apply Hsame. lia.
      * intros [?| ->]; [done|]. apply Hbump. by right.
  - rewrite backpropagate_None in Hb. injection Hb as <-.
    assert (id = 0%nat) as -> by (by eapply Hroot).
    split; [by rewrite length_insert|].
    intros j m Hm. destruct (decide (j = 0%nat)) as [->|Hne].
    + assert (m = n) as -> by congruence. exists n1. split_and!; try done.
      intros; lia.
    + exists m. rewrite list_lookup_insert_ne by done. split_and!; try done.
      * apply node_step_refl.
      * intros [?|?]; done.
Qed.

(** The effect of a backpropagation on the statistics. *)
Lemma backpropagate_stats (fuel : nat) (tree : list MCTSNode) (id : nat)
    (result k : Z) (tree' : list MCTSNode) :
  tree_linked tree → tree_rooted tree →
  (∃ r, tree !! 0%nat = Some r ∧ visits r = k) →
  (∀ j n, tree !! j = Some n → 0 ≤ visits n ≤ k ∧ - visits n ≤ wins n ≤ visits n) →
  result = -1 ∨ result = 1 →
  backpropagate fuel tree (Some id) result = Ok tree' →
  length tree' = length tree ∧
  (∃ r, tree' !! 0%nat = Some r ∧ visits r = k + 1) ∧
  ∀ j n, tree' !! j = Some n → 0 ≤ visits n ≤ k + 1 ∧ - visits n ≤ wins n ≤ visits n.
Proof.
  intros Hlink Hroot (r & Hr & Hrv) Hall Hres Hb.
  destruct (backpropagate_exact _ _ _ _ _ Hlink Hroot Hb) as [Hlen Hex].
  split; [done|]. split.
  - destruct (Hex 0%nat r Hr) as (r' & Hr' & _ & _ & Hbump).
    exists r'. split; [done|]. destruct Hbump as [Hv _]; [by right|]. lia.
  - intros j n' Hn'.
    assert (Hlt : (j < length tree)%nat) by (apply lookup_lt_Some in Hn'; lia).
    apply lookup_lt_is_Some in Hlt as [n Hn].
    destruct (Hex j n Hn) as (n'' & Hn'' & Hst & _). simplify_eq.
    destruct (Hall j n Hn) as [Hv Hw].
    destruct Hst as (_ & _ & _ & _ & [[-> ->]|[-> ->]]); lia.
Qed.

Section mcts_stats.
Context {K : Type} (key_ltb : K → K → bool) (ucb1 : Z → Z → Z → K).

Lemma iteration_stats (k : Z) (tree : list MCTSNode) (g : rng)
    (tree' : list MCTSNode) (g' : rng) :
  0 ≤ k → tree_linked tree → tree_rooted tree → tree_stats k tree →
  iteration key_ltb ucb1 (tree, g) = Ok (tree', g') →
  tree_rooted tree' ∧ tree_stats (k + 1) tree'.
Proof.
  intros Hk Hlink Hroot (Hlen & Hr & Hall) Hit.
  apply iteration_Ok_inv in Hit as (nd & n & result & _ & Hn &
    [(_ & Hsim & Hbp)|(i & t & ns & rest & Hpop & Hsim & Hbp)]).
  - apply simulate_loop_pm in Hsim.
    pose proof (backpropagate_effect _ _ _ _ _ Hbp) as (Hle & _).
    destruct (backpropagate_stats _ _ _ _ k _ Hlink Hroot Hr Hall Hsim Hbp)
      as (Hlen' & Hr' & Hall').
    split; [by eapply tree_rooted_le|].
    split_and!; [lia|done|done].
  - apply simulate_loop_pm in Hsim.
    pose proof (lookup_lt_Some _ _ _ Hn) as Hnd.
    pose proof (expanded_linked tree nd n ns rest Hlink Hn) as Hlink1.
    pose proof (expanded_rooted tree nd n ns rest Hroot Hn) as Hroot1.
    pose proof (backpropagate_effect _ _ _ _ _ Hbp) as (Hle & _).
    assert (Hall1 : ∀ j m, expanded tree nd n ns rest !! j = Some m →
              0 ≤ visits m ≤ k ∧ - visits m ≤ wins m ≤ visits m).
    { intros j m Hm. rewrite expanded_lookup in Hm by done.
      destruct (decide (j = nd)) as [->|?];
        [|destruct (decide (j = length tree)) as [->|?]].
      - injection Hm as <-. simpl. by apply (Hall nd n).
      - injection Hm as <-. simpl. lia.
      - by apply (Hall j m). }
    assert (Hr1 : ∃ r, expanded tree nd n ns rest !! 0%nat = Some r ∧ visits r = k).
    { destruct Hr as (r & Hr & Hv). rewrite expanded_lookup by done.
      destruct (decide (0%nat = nd)) as [<-|?].
      - eexists. split; [done|]. simpl. congruence.
      - destruct (decide (0%nat = length tree)) as [|_]; [lia|]. eauto. }
    destruct (backpropagate_stats _ _ _ _ k _ Hlink1 Hroot1 Hr1 Hall1 Hsim Hbp)
      as (Hlen' & Hr' & Hall').
    split; [by eapply tree_rooted_le|].
    rewrite expanded_length in Hlen'.
    split_and!; [lia|done|done].
Qed.

Lemma iterations_stats (j : nat) (k : Z) (tree : list MCTSNode) (g : rng)
    (tree' : list MCTSNode) (g' : rng) :
  0 ≤ k → tree_linked tree → tree_visited tree → tree_rooted tree →
  tree_stats k tree →
  iterations key_ltb ucb1 j (tree, g) = Ok (tree', g') →
  tree_stats (k + Z.of_nat j) tree'.
Proof.
  revert k tree g. induction j as [|j IH]; intros k tree g Hk Hlink Hvis Hroot Hst Hit.
  - simpl in Hit. injection Hit as <- <-. by replace (k + Z.of_nat 0) with k by lia.
  - cbn [iterations] in Hit.
    destruct (iteration key_ltb ucb1 (tree, g)) as [[tree1 g1]| |] eqn:Hstep; try done.
    cbn [mbind outcome_bind] in Hit.
    destruct (iteration_inv _ _ _ _ _ _ Hlink Hvis Hstep) as [Hlink1 Hvis1].
    destruct (iteration_stats _ _ _ _ _ Hk Hlink Hroot Hst Hstep) as [Hroot1 Hst1].
    replace (k + Z.of_nat (S j)) with (k + 1 + Z.of_nat j) by lia.
    eapply IH; [| | | | |exact Hit]; (done || lia).
Qed.

Lemma new_tree_stats (st : list Z) :
  tree_rooted [new_node st None] ∧ tree_stats 0 [new_node st None].
Proof.
  split.
  - intros [|id] n Hn _; [done|]. by destruct id.
  - split_and!; [simpl; lia|by exists (new_node st None)|].
    intros [|id] n Hn; [|by destruct id]. injection Hn as <-. simpl. lia.
Qed.
End mcts_stats.

(** ** The builtin [max] on integer keys *)

Lemma py_max_from_greatest {A : Type} (key : A → outcome Z) (seq : list A)
    (best : A) (bk : Z) (x : A) :
  key best = Ok bk →
  py_max_from Z.ltb key seq best bk = Ok x →
  ∃ kx, key x = Ok kx ∧ bk ≤ kx ∧ ∀ y, y ∈ seq → ∃ ky, key y = Ok ky ∧ ky ≤ kx.
Proof.
  revert best bk. induction seq as [|a seq IH]; intros best bk Hb H; simpl in H.
  - injection H as <-. exists bk. split_and!; [done|lia|].
    intros y Hy. by apply elem_of_nil in Hy.
  - destruct (key a) as [ka| |] eqn:Ha; try done. cbn [mbind outcome_bind] in H.
    destruct (bk <? ka) eqn:Hlt.
    + apply Z.ltb_lt in Hlt. destruct (IH a ka Ha H) as (kx & Hx & Hle & Hall).
      exists kx. split_and!; [done|lia|].
      intros y [->|Hy]%elem_of_cons; [|by apply Hall]. exists ka. split; [done|lia].
    + apply Z.ltb_ge in Hlt. destruct (IH best bk Hb H) as (kx & Hx & Hle & Hall).
      exists kx. split_and!; [done|lia|].
      intros y [->|Hy]%elem_of_cons; [|by apply Hall]. exists ka. split; [done|lia].
Qed.

Lemma py_max_greatest {A : Type} (key : A → outcome Z) (seq : list A) (x : A) :
  py_max Z.ltb key seq = Ok x →
  x ∈ seq ∧ ∃ kx, key x = Ok kx ∧ ∀ y, y ∈ seq → ∃ ky, key y = Ok ky ∧ ky ≤ kx.
Proof.
  intros H. split; [by eapply py_max_elem|].
  destruct seq as [|a seq]; [done|]. simpl in H.
  destruct (key a) as [ka| |] eqn:Ha; try done. cbn [mbind outcome_bind] in H.
  destruct (py_max_from_greatest key seq a ka x Ha H) as (kx & Hx & Hle & Hall).
  exists kx. split; [done|].
  intros y [->|Hy]%elem_of_cons; [|by apply Hall]. exists ka. split; [done|lia].
Qed.

Lemma find_move_state (target : list Z) (succs : list successor) (mv : move) :
  find_move target succs = Some mv → (mv.1, mv.2, target) ∈ succs.
Proof.
  induction succs as [|[[i t] ns] rest IH]; simpl; [done|].
  case_bool_decide as Heq.
  - intros [= <-]. simpl. subst. left.
  - intros H. right. by apply IH.
Qed.

(** ** Monte Carlo tree search: the expansion of the root *)

Lemma root_expanded_le (st : list Z) (k : nat) (tree tree' : list MCTSNode) :
  root_expanded st k tree → tree_le tree tree' → root_expanded st k tree'.
Proof.
  intros (r & cm & Hr & Hs & Hlen & Hch) [_ Hle].
  destruct (Hle 0%nat r Hr) as (r' & Hr' & _ & _ & Hc & Hu & _).
  exists r', cm. rewrite Hu, Hc. split_and!; try done.
  eapply Forall2_impl; [done|]. intros c x (cn & Hcn & Hst).
  destruct (Hle c cn Hcn) as (cn' & Hcn' & Hs' & _). exists cn'. split; [done|congruence].
Qed.

Section mcts_root.
Context {K : Type} (key_ltb : K → K → bool) (ucb1 : Z → Z → Z → K).

(** The selection stops at a root that has an untried move. *)
Lemma select_root_untried (tree : list MCTSNode) (r : MCTSNode) (nd : nat) :
  tree !! 0%nat = Some r → untried_moves r ≠ [] →
  select key_ltb ucb1 (length tree) tree 0 = Ok nd → nd = 0%nat.
Proof.
  intros Hr Hu. destruct (length tree) as [|f]; [done|]. simpl.
  rewrite (proj2 (get_Ok tree 0 r) Hr). cbn [mbind outcome_bind].
  destruct (untried_moves r); [done|]. by intros [= <-].
Qed.

Lemma iteration_root_expanded (st : list Z) (k : nat) (tree : list MCTSNode)
    (g : rng) (tree' : list MCTSNode) (g' : rng) :
  tree_linked tree → root_expanded st k tree →
  iteration key_ltb ucb1 (tree, g) = Ok (tree', g') →
  root_expanded st (S k) tree'.
Proof.
  intros Hlink (r & cm & Hr & Hs & Hlen & Hch) Hit.
  pose proof (f_equal length Hs) as Hm. rewrite length_app, length_reverse in Hm.
  apply iteration_Ok_inv in Hit as (nd & n & result & Hsel & Hn &
    [(Hpop & _ & Hbp)|(i & t & ns & rest & Hpop & _ & Hbp)]);
    apply backpropagate_effect in Hbp as (Hle & _ & _);
    (eapply root_expanded_le; [|exact Hle]).
  - apply pop_None in Hpop.
    assert (Hu : untried_moves r = []).
    { destruct (untried_moves r) eqn:Hu; [done|].
      assert (nd = 0%nat) as -> by (eapply select_root_untried; [done| |done]; by rewrite Hu).
      congruence. }
    exists r, cm. split_and!; try done. rewrite Hu in Hm. cbn [length] in Hm. lia.
  - pose proof (lookup_lt_Some _ _ _ Hn) as Hnd.
    apply pop_snoc in Hpop.
    assert (Hold : ∀ c cn, tree !! c = Some cn →
              ∃ cn', expanded tree nd n ns rest !! c = Some cn' ∧ state cn' = state cn).
    { intros c cn Hcn. rewrite expanded_lookup by done.
      destruct (decide (c = nd)) as [->|?].
      - eexists. split; [done|]. simpl. congruence.
      - destruct (decide (c = length tree)) as [->|?]; [|eauto].
        apply lookup_lt_Some in Hcn. lia. }
    assert (Hch' : Forall2 (λ c (x : successor),
              ∃ cn, expanded tree nd n ns rest !! c = Some cn ∧ state cn = x.2)
              (children r) cm).
    { eapply Forall2_impl; [done|]. intros c x (cn & Hcn & Hst).
      destruct (Hold c cn Hcn) as (cn' & Hcn' & Hs'). exists cn'. split; [done|congruence]. }
    destruct (decide (nd = 0%nat)) as [->|Hne].
    + assert (n = r) as -> by congruence.
      eexists _, (cm ++ [(i, t, ns)]). split_and!.
      * rewrite expanded_lookup by done. by destruct (decide (0%nat = 0%nat)).
      * simpl. rewrite reverse_snoc, Hs, Hpop. by rewrite <- app_assoc.
      * rewrite length_app. cbn [length]. rewrite Hpop, length_app in Hm.
        cbn [length] in Hm. lia.
      * simpl. apply Forall2_app; [done|]. constructor; [|constructor].
        exists (new_node ns (Some 0%nat)). split; [|done].
        rewrite expanded_lookup by done.
        destruct (decide (length tree = 0%nat)) as [|_]; [lia|].
        by destruct (decide (length tree = length tree)).
    + assert (Hu : untried_moves r = []).
      { destruct (untried_moves r) eqn:Hu; [done|]. exfalso. apply Hne.
        eapply select_root_untried; [done| |done]. by rewrite Hu. }
      exists r, cm. split_and!; try done.
      * rewrite expanded_lookup by done.
        destruct (decide (0%nat = nd)) as [|_]; [congruence|].
        destruct (decide (0%nat = length tree)) as [|_]; [lia|done].
      * rewrite Hu in Hm. cbn [length] in Hm. lia.
Qed.

Lemma iterations_root_expanded (st : list Z) (j k : nat) (tree : list MCTSNode)
    (g : rng) (tree' : list MCTSNode) (g' : rng) :
  tree_linked tree → tree_visited tree → root_expanded st k tree →
  iterations key_ltb ucb1 j (tree, g) = Ok (tree', g') →
  root_expanded st (k + j) tree'.
Proof.
  revert k tree g. induction j as [|j IH]; intros k tree g Hlink Hvis Hex Hit.
  - simpl in Hit. injection Hit as <- <-. by rewrite Nat.add_0_r.
  - cbn [iterations] in Hit.
    destruct (iteration key_ltb ucb1 (tree, g)) as [[tree1 g1]| |] eqn:Hstep; try done.
    cbn [mbind outcome_bind] in Hit.
    destruct (iteration_inv _ _ _ _ _ _ Hlink Hvis Hstep) as [Hlink1 Hvis1].
    pose proof (iteration_root_expanded _ _ _ _ _ _ Hlink Hex Hstep) as Hex1.
    replace (k + S j)%nat with (S k + j)%nat by lia. by eapply IH.
Qed.

Lemma new_tree_expanded (st : list Z) : root_expanded st 0 [new_node st None].
Proof.
  exists (new_node st None), []. simpl. split_and!; try done.
  by rewrite app_nil_r.
Qed.
End mcts_root.

(** ** The number of moves *)

Lemma length_range (lo hi : Z) : length (range lo hi) = Z.to_nat (hi - lo).
Proof. unfold range. apply length_seqZ. Qed.

Lemma length_successors_from {A : Type} (g : nat → Z → A) (l : list Z) (k : nat) :
  length (imap (λ i c, (k + i, c)%nat) l ≫=
            (λ '(i, cnt), t ← range 1 (cnt + 1); [g i t]))
  = Z.to_nat (foldr (λ h acc, Z.max h 0 + acc) 0 l).
Proof.
  revert k. induction l as [|c l IH]; intros k; [done|].
  rewrite imap_cons. cbn [mbind list_bind foldr]. rewrite length_app.
  rewrite (imap_ext _ (λ i c, (S k + i, c)%nat)) by (intros; simpl; f_equal; lia).
  rewrite IH.
  assert (Hlen : length (range 1 (c + 1) ≫= (λ t, [g (k + 0)%nat t]))
                 = Z.to_nat (Z.max c 0)).
  { rewrite bind_singleton_fmap, length_fmap, length_range. lia. }
  etrans; [apply (f_equal (λ n, (n + _)%nat) Hlen)|].
  assert (0 ≤ foldr (λ h acc, Z.max h 0 + acc) 0 l).
  { clear. induction l as [|x l IH]; simpl; lia. }
  lia.
Qed.

Lemma length_get_successors (st : list Z) : length (get_successors st) = tokens st.
Proof.
  unfold get_successors, tokens, enumerate.
  rewrite (imap_ext pair (λ i c, (0 + i, c)%nat)) by done.
  apply (length_successors_from (λ i t, (i, t, alter (λ c, c - t) i st))).
Qed.

(** ** The game loop: one event *)

Lemma item_Ok (l : list Z) (i : nat) (c : Z) : l !! i = Some c → item l i = Ok c.
Proof. intros H. unfold item. by rewrite H. Qed.

Lemma item_lt (l : list Z) (i : nat) :
  (i < length l)%nat → ∃ c, l !! i = Some c ∧ item l i = Ok c.
Proof.
  intros [c Hc]%lookup_lt_is_Some. exists c. split; [done|by apply item_Ok].
Qed.

Lemma draw_rows_row (rows : list (nat * Z)) (y : Z) (btn : Rect) (row : nat) :
  (btn, row) ∈ draw_rows rows y → ∃ c, (row, c) ∈ rows.
Proof.
  revert y. induction rows as [|[r c] rows IH]; intros y; simpl.
  - intros H. by apply elem_of_nil in H.
  - intros [Heq|H]%elem_of_cons.
    + injection Heq as _ ->. exists c. left.
    + destruct (IH _ H) as [c' Hc']. exists c'. by right.
Qed.

Lemma draw_matches_rows_ok (st : list Z) : rows_ok (draw_matches st) (length st).
Proof.
  intros btn row H. apply draw_rows_row in H as [c Hc].
  apply elem_of_enumerate in Hc. by eapply lookup_lt_Some.
Qed.

Lemma successor_length (b : list Z) (i : nat) (t : Z) (ns : list Z) :
  (i, t, ns) ∈ get_successors b → length ns = length b.
Proof.
  intros (c & _ & _ & ->)%elem_of_get_successors. by rewrite length_alter.
Qed.

Lemma turn_move_length (b st : list Z) (sel : option nat) :
  turn_move b st sel → length st = length b.
Proof.
  destruct sel as [r|]; simpl; [|by intros ->].
  intros [_ [->|[t Ht]]]; [done|by eapply successor_length].
Qed.

Lemma turn_move_nonneg (b st : list Z) (sel : option nat) :
  nonneg b → turn_move b st sel → nonneg st.
Proof.
  intros Hnn. destruct sel as [r|]; simpl; [|by intros ->].
  intros [_ [->|[t Ht]]]; [done|by eapply successor_nonneg].
Qed.

(** "Take 1" in the picked row keeps the turn a move of the game. *)
Lemma turn_move_take (b st : list Z) (r : nat) (c : Z) :
  turn_move b st (Some r) → st !! r = Some c → 0 < c →
  turn_move b (<[r := c - 1]> st) (Some r).
Proof.
  intros [Hr [->|[t Ht]]] Hc Hpos; (split; [done|]); right.
  - exists 1. apply elem_of_get_successors. exists c. split_and!; [done|lia|lia|].
    by apply (insert_as_alter (λ c, c - 1)).
  - apply elem_of_get_successors in Ht as (c0 & Hc0 & Ht & ->).
    rewrite list_lookup_alter_eq, Hc0 in Hc. simpl in Hc. injection Hc as <-.
    exists (t + 1). apply elem_of_get_successors. exists c0. split_and!; [done|lia|lia|].
    rewrite <- (insert_as_alter (λ c, c - t) b r c0 Hc0).
    rewrite list_insert_insert_eq.
    replace (c0 - t - 1) with (c0 - (t + 1)) by lia.
    by apply (insert_as_alter (λ c, c - (t + 1))).
Qed.

Section game_facts.
Context (collidepoint : Rect → Z → Z → bool).
Context {K : Type} (key_ltb : K → K → bool) (ucb1 : Z → Z → Z → K).

Lemma press_row_ok (row_rects : list (Rect * nat)) (st : list Z) (x y : Z)
    (p : option nat) :
  rows_ok row_rects (length st) →
  ∃ p', press_row collidepoint row_rects st x y p = Ok p'.
Proof.
  revert p. induction row_rects as [|[btn row] rest IH]; intros p Hok; simpl; [eauto|].
  assert (Hrest : rows_ok rest (length st)).
  { intros b r H. apply (Hok b r). by right. }
  destruct (collidepoint btn x y).
  - destruct (item_lt st row) as (c & _ & ->); [apply (Hok btn row); left|].
    cbn [mbind outcome_bind]. by apply IH.
  - cbn [mbind outcome_bind]. by apply IH.
Qed.

Lemma pick_row_ok (row_rects : list (Rect * nat)) (st : list Z) (x y : Z)
    (p sel : option nat) :
  rows_ok row_rects (length st) →
  (∀ r, sel = Some r → (r < length st)%nat) →
  ∃ sel', pick_row collidepoint row_rects st x y p sel = Ok sel' ∧
          ∀ r, sel' = Some r → (r < length st)%nat.
Proof.
  revert sel. induction row_rects as [|[btn row] rest IH]; intros sel Hok Hsel; simpl;
    [eauto|].
  assert (Hrest : rows_ok rest (length st)).
  { intros b r H. apply (Hok b r). by right. }
  assert (Hrow : (row < length st)%nat) by (apply (Hok btn row); left).
  destruct (collidepoint btn x y).
  - destruct (item_lt st row Hrow) as (c & _ & ->).
    cbn [mbind outcome_bind]. apply IH; [done|].
    destruct (_ && _); [|done]. by intros r [= <-].
  - cbn [mbind outcome_bind]. by apply IH.
Qed.

(** A release of the mouse button during the turn of the player. *)
Lemma player_release_inv (b : list Z) (row_rects : list (Rect * nat)) (v : game)
    (x y : Z) :
  game_inv b v → gl_turn v = player → rows_ok row_rects (length b) →
  ∃ s, player_release collidepoint row_rects v x y = Ok s ∧
    match s with
    | Running v' => game_inv b v'
    | Ended e =>
        e = PlayerWins ∧
        ∃ st r, turn_move b st (Some r) ∧ is_terminal st = true
    end.
Proof.
  destruct v as [st sel trn pr pa]. simpl. intros [Hnn Hinv] -> Hok.
  simpl in Hinv. destruct Hinv as [Hterm Hmove].
  pose proof (turn_move_length _ _ _ Hmove) as Hlen.
  unfold player_release. simpl.
  assert (Hsel : ∃ sel',
    match sel with
    | Some r => Ok (Some r)
    | None => pick_row collidepoint row_rects st x y pr None
    end = Ok sel' ∧ turn_move b st sel').
  { destruct sel as [r|]; [eauto|]. simpl in Hmove. subst st.
    destruct (pick_row_ok row_rects b x y pr None Hok) as (sel' & -> & Hv); [done|].
    exists sel'. split; [done|]. destruct sel' as [r|]; simpl; [|done].
    split; [by apply Hv|by left]. }
  destruct Hsel as (sel' & -> & Hmove'). cbn [mbind outcome_bind].
  assert (Hst : ∃ st',
    (if collidepoint take_btn x y && bool_decide (pa = Some ActTake)
     then match sel' with
          | Some r => c ← item st r; if 0 <? c then Ok (<[r := c - 1]> st) else Ok st
          | None => Ok st
          end
     else Ok st) = Ok st' ∧ turn_move b st' sel').
  { destruct (_ && _); [|eauto]. destruct sel' as [r|]; [|eauto].
    destruct (item_lt st r) as (c & Hc & ->).
    { rewrite Hlen. by destruct Hmove'. }
    cbn [mbind outcome_bind]. destruct (Z.ltb_spec 0 c); [|eauto].
    eexists. split; [done|]. by apply turn_move_take. }
  destruct Hst as (st' & -> & Hmove''). cbn [mbind outcome_bind].
  destruct (collidepoint confirm_btn x y && bool_decide (pa = Some ActConfirm)
            && bool_decide (is_Some sel')) eqn:Hconf.
  - apply andb_true_iff in Hconf as [_ Hs]. apply bool_decide_eq_true in Hs as [r ->].
    destruct (is_terminal st') eqn:Hterm'.
    + eexists. split; [done|]. simpl. split; [done|]. eauto.
    + eexists. split; [done|]. split; [done|]. simpl. split_and!; [done|done|].
      destruct Hmove'' as [_ [->|[t Ht]]]; eauto.
  - eexists. split; [done|]. split; [done|]. simpl. done.
Qed.

(** One event keeps the invariant; it never raises, and it ends the
    loop with "Player Wins!" only on a board without tokens that the
    turn of the player has reached. *)
Lemma handle_event_inv (b : list Z) (row_rects : list (Rect * nat)) (v : game)
    (ev : event) :
  game_inv b v → rows_ok row_rects (length b) →
  ∃ s, handle_event collidepoint row_rects v ev = Ok s ∧
    match s with
    | Running v' =>
        game_inv b v' ∧
        (gl_turn v = pc → gl_turn v' = pc ∧ gl_state v' = gl_state v)
    | Ended PlayerWins =>
        gl_turn v = player ∧
        ∃ st r, turn_move b st (Some r) ∧ is_terminal st = true
    | Ended PcWins => False
    | Ended _ => True
    end.
Proof.
  intros Hinv Hok. destruct ev as [|[x y]|[x y]|]; simpl.
  - by exists (Ended SysExit).
  - assert (Hlen : length (gl_state v) = length b).
    { destruct Hinv as [Hnn Hinv]. destruct (gl_turn v).
      - destruct Hinv as [_ Hm]. by eapply turn_move_length.
      - destruct Hinv as (_ & _ & [->|(i & t & Hs)]); [done|by eapply successor_length]. }
    destruct (press_row_ok row_rects (gl_state v) x y (gl_pressed_row v)) as [p' ->].
    { by rewrite Hlen. }
    cbn [mbind outcome_bind]. eexists. split; [done|]. simpl. split; [|done].
    destruct Hinv as [Hnn Hinv]. split; [done|]. simpl. done.
  - destruct (_ && _); [by exists (Ended NewGame)|].
    destruct (_ && _); [by exists (Ended SysExit)|].
    destruct (gl_turn v) eqn:Hturn.
    + destruct (player_release_inv b row_rects v x y Hinv Hturn Hok) as (s & -> & Hs).
      cbn [mbind outcome_bind]. destruct s as [v'|e].
      * eexists. split; [done|]. split; [|done].
        destruct Hs as [Hnn Hs]. split; [done|]. simpl. done.
      * destruct Hs as [-> Hs]. eexists. split; [done|]. simpl. done.
    + cbn [mbind outcome_bind]. eexists. split; [done|]. simpl. split; [|done].
      destruct Hinv as [Hnn Hinv]. split; [done|]. simpl. by rewrite Hturn in Hinv |- *.
  - exists (Running v). split; [done|]. done.
Qed.
End game_facts.

(** ** The game loop: frames *)

Lemma reach_refl (b : list Z) : reach b b.
Proof. by exists []. Qed.

Lemma play_app (b : list Z) (p q : list successor) :
  play b (p ++ q) ↔ play b p ∧ play (play_end b p) q.
Proof.
  revert b. induction p as [|[[i t] ns] p IH]; intros b; simpl; [tauto|].
  rewrite IH. tauto.
Qed.

Lemma play_end_app (b : list Z) (p q : list successor) :
  play_end b (p ++ q) = play_end (play_end b p) q.
Proof. revert b. induction p as [|[[i t] ns] p IH]; intros b; simpl; [done|]. apply IH. Qed.

Lemma reach_trans (a b c : list Z) : reach a b → reach b c → reach a c.
Proof.
  intros (p & Hp & <-) (q & Hq & <-). exists (p ++ q).
  split; [by apply play_app|by rewrite play_end_app].
Qed.

Lemma reach_step (b : list Z) (i : nat) (t : Z) (ns : list Z) :
  (i, t, ns) ∈ get_successors b → reach b ns.
Proof. intros H. by exists [(i, t, ns)]. Qed.



Lemma reach_nonneg (b0 b : list Z) : nonneg b0 → reach b0 b → nonneg b.
Proof.
  intros Hnn (p & Hp & <-). revert b0 Hnn Hp.
  induction p as [|[[i t] ns] p IH]; intros b0 Hnn; simpl; [done|].
  intros [Hin Hp]. apply (IH ns); [by eapply successor_nonneg|done].
Qed.

Lemma watch_confirm_board (w : watch) (v v' : game) :
  turn_board (watch_confirm w v v') = turn_board w.
Proof. unfold watch_confirm. by destruct (gl_turn v), (gl_turn v'). Qed.

Lemma watch_confirm_passed (w : watch) (v v' : game) :
  passed w = true → passed (watch_confirm w v v') = true.
Proof.
  intros H. unfold watch_confirm. destruct (gl_turn v), (gl_turn v'); simpl; try done.
  by rewrite H.
Qed.

(** The state handed to the AI and the state it leaves. *)
Lemma game_inv_state (b : list Z) (v : game) :
  game_inv b v → nonneg (gl_state v) ∧ length (gl_state v) = length b ∧
  reach b (gl_state v).
Proof.
  intros [Hnn Hinv]. destruct (gl_turn v).
  - destruct Hinv as [_ Hm]. split; [by eapply turn_move_nonneg|].
    split; [by eapply turn_move_length|].
    destruct (gl_selected_row v) as [r|]; simpl in Hm.
    + destruct Hm as [_ [->|[t Ht]]]; [apply reach_refl|by eapply reach_step].
    + rewrite Hm. apply reach_refl.
  - destruct Hinv as (_ & _ & [->|(i & t & Hs)]).
    + split_and!; [done|done|apply reach_refl].
    + split_and!; [by eapply successor_nonneg|by eapply successor_length|
                   by eapply reach_step].
Qed.

Section game_frames.
Context (collidepoint : Rect → Z → Z → bool).
Context {K : Type} (key_ltb : K → K → bool) (ucb1 : Z → Z → Z → K).

(** One event and the record. *)
Lemma handle_event_watch (w : watch) (row_rects : list (Rect * nat)) (v : game)
    (ev : event) :
  watch_inv w v → rows_ok row_rects (length (turn_board w)) →
  ∃ s, handle_event collidepoint row_rects v ev = Ok s ∧
    match s with
    | Running v' => watch_inv (watch_confirm w v v') v'
    | Ended PlayerWins => nim_zero (turn_board w) = false
    | Ended PcWins => False
    | Ended _ => True
    end.
Proof.
  intros [Hinv Hpass] Hok.
  destruct (handle_event_inv collidepoint _ row_rects v ev Hinv Hok) as (s & Hs & Hcase).
  exists s. split; [done|]. destruct s as [v'|[]]; try done.
  - destruct Hcase as [Hinv' Hpc]. split.
    + by rewrite watch_confirm_board.
    + rewrite watch_confirm_board. unfold watch_confirm.
      destruct (gl_turn v) eqn:Hturn.
      * destruct (gl_turn v'); [done|]. simpl.
        intros [_ Hne%bool_decide_eq_false]%orb_false_iff _. done.
      * destruct (Hpc eq_refl) as [-> ->]. intros Hp _. by apply Hpass.
  - destruct Hcase as (Hturn & st & r & Hmove & Hterm).
    destruct Hinv as [Hnn Hinv]. rewrite Hturn in Hinv. destruct Hinv as [Hb _].
    destruct (nim_zero (turn_board w)) eqn:Hz; [|done]. exfalso.
    destruct Hmove as [_ [->|[t Ht]]]; [congruence|].
    pose proof (nim_zero_moves_out _ _ _ _ Hz Ht) as Hout.
    apply terminal_nim_zero in Hterm. congruence.
Qed.

(** The events of a frame and the record. *)
Lemma handle_events_watch (w : watch) (row_rects : list (Rect * nat)) (v : game)
    (evs : list event) :
  watch_inv w v → rows_ok row_rects (length (turn_board w)) →
  ∃ s, handle_events collidepoint row_rects v evs = Ok s ∧
    turn_board (watch_events collidepoint row_rects w v evs) = turn_board w ∧
    (passed w = true → passed (watch_events collidepoint row_rects w v evs) = true) ∧
    match s with
    | Running v' => watch_inv (watch_events collidepoint row_rects w v evs) v'
    | Ended PlayerWins => nim_zero (turn_board w) = false
    | Ended PcWins => False
    | Ended _ => True
    end.
Proof.
  revert w v. induction evs as [|ev evs IH]; intros w v Hinv Hok; simpl.
  - exists (Running v). done.
  - destruct (handle_event_watch w row_rects v ev Hinv Hok) as (s & -> & Hs).
    cbn [mbind outcome_bind]. destruct s as [v'|e].
    + destruct (IH (watch_confirm w v v') v' Hs) as (s' & Hs' & Hb & Hp & Hcase).
      { by rewrite watch_confirm_board. }
      exists s'. rewrite watch_confirm_board in Hb, Hcase.
      split_and!; [done|done| |done].
      intros H. by apply Hp, watch_confirm_passed.
    + exists (Ended e). done.
Qed.

(** The exact solvers and [mcts] return a move of the game on a board
    with a token. *)
Lemma minimax_some_move (st : list Z) (m : bool) :
  nonneg st → is_terminal st = false →
  ∃ v mv ns, minimax st m = Some (v, Some mv) ∧ (mv.1, mv.2, ns) ∈ get_successors st.
Proof.
  intros Hnn Hterm.
  destruct (minimax_value_by_nim_sum st m Hnn) as [mv Hmm].
  pose proof Hmm as Hmm2. rewrite minimax_unfold, Hterm in Hmm2.
  apply minimax_loop_first in Hmm2.
  destruct Hmm2 as [(Hv & _) | (pre & i & t & ns & post & mv' & Hs & Hmv & _)].
  - destruct m; discriminate.
  - subst mv. eexists _, (i, t), ns. split; [done|].
    rewrite Hs. apply elem_of_app. right. left.
Qed.

Lemma mcts_finds_move (st : list Z) (iter_count : Z) (g : rng) :
  nonneg st → is_terminal st = false → 0 < iter_count →
  ∃ mv ns, mcts key_ltb ucb1 st iter_count g = Ok (Some mv) ∧
           (mv.1, mv.2, ns) ∈ get_successors st.
Proof.
  intros Hst Hterm Hn. destruct (new_tree_inv st) as [Hl0 Hv0].
  assert (Hg0 : tree_game st [new_node st None]).
  { split; [by exists (new_node st None)|]. intros [|id] n Hn0; [|done].
    injection Hn0 as <-. simpl. split; [done|].
    intros c Hin. by apply elem_of_nil in Hin. }
  assert (Hnn0 : tree_nonneg [new_node st None]).
  { intros [|id] n Hn0; [|done]. by injection Hn0 as <-. }
  destruct (iterations_progress_nonneg key_ltb ucb1 st (Z.to_nat iter_count) _ g
              Hl0 Hv0 Hg0 Hnn0) as (tree & g' & Hit & Hlink & Hvis & Hg & Hnn).
  assert (∃ r', tree !! 0%nat = Some r' ∧ children r' ≠ []) as (r' & Hr' & Hc').
  { destruct (Z.to_nat iter_count) as [|k] eqn:Hk; [lia|].
    eapply (iterations_root_children key_ltb ucb1 k [new_node st None] g (new_node st None));
      [done| |done].
    right. simpl. by apply nonterminal_has_successor. }
  assert (Hmcts : mcts key_ltb ucb1 st iter_count g = mcts_pick st tree).
  { change (mcts key_ltb ucb1 st iter_count g) with
      ('(tree, _) ← iterations key_ltb ucb1 (Z.to_nat iter_count) ([new_node st None], g);
       mcts_pick st tree).
    by rewrite Hit. }
  destruct (mcts_pick_cases st tree Hlink Hvis)
    as (r & Hr & [[Hnil _]|(c & cn & Hin & Hcn & Hpick)]); [congruence|].
  destruct Hg as [(r0 & Hr0 & Hst0) Hg].
  assert (r0 = r) as -> by congruence.
  destruct (Hg 0%nat r Hr) as [_ Hch].
  destruct (Hch c Hin) as (cn' & i & t & Hcn' & Hmv).
  assert (cn' = cn) as -> by congruence. rewrite Hst0 in Hmv.
  destruct (find_move_found _ _ _ _ Hmv) as [mv Hfind].
  destruct (find_move_successor _ _ _ Hfind) as [ns Hns].
  exists mv, ns. by rewrite Hmcts, Hpick, Hfind.
Qed.

Lemma ai_move_ok (ai_mode : ai_mode_t) (st : list Z) (g : rng) :
  nonneg st → is_terminal st = false →
  ∃ mv ns, ai_move key_ltb ucb1 ai_mode st g = Ok (Some mv) ∧
           (mv.1, mv.2, ns) ∈ get_successors st ∧
           (exact_mode ai_mode = true → nim_zero st = false → nim_zero ns = true).
Proof.
  intros Hnn Hterm. destruct ai_mode; simpl.
  - destruct (nim_zero st) eqn:Hz.
    + destruct (minimax_some_move st true Hnn Hterm) as (v & mv & ns & -> & Hin).
      exists mv, ns. done.
    + destruct (minimax_winning_move st true Hnn Hz) as (mv & ns & -> & Hin & Hz').
      exists mv, ns. done.
  - rewrite minimax_ab_full_window by done. destruct (nim_zero st) eqn:Hz.
    + destruct (minimax_some_move st true Hnn Hterm) as (v & mv & ns & -> & Hin).
      exists mv, ns. done.
    + destruct (minimax_winning_move st true Hnn Hz) as (mv & ns & -> & Hin & Hz').
      exists mv, ns. done.
  - destruct (mcts_finds_move st 100 g Hnn Hterm) as (mv & ns & -> & Hin); [lia|].
    exists mv, ns. done.
Qed.

(** The AI block when it is the turn of the AI. *)
Lemma ai_turn_pc (ai_mode : ai_mode_t) (v : game) (g : rng) :
  gl_turn v = pc → nonneg (gl_state v) → is_terminal (gl_state v) = false →
  ∃ i t ns, (i, t, ns) ∈ get_successors (gl_state v) ∧
    (exact_mode ai_mode = true → nim_zero (gl_state v) = false → nim_zero ns = true) ∧
    ai_turn key_ltb ucb1 ai_mode v g =
      Ok (if is_terminal ns then Ended PcWins
          else Running {| gl_state := ns; gl_selected_row := None; gl_turn := player;
                          gl_pressed_row := gl_pressed_row v;
                          gl_pressed_action := gl_pressed_action v |}).
Proof.
  intros Hturn Hnn Hterm. unfold ai_turn. rewrite Hturn.
  destruct (ai_move_ok ai_mode (gl_state v) g Hnn Hterm) as ([i t] & ns & -> & Hin & Hex).
  simpl in Hin. exists i, t, ns. split; [done|]. split; [done|].
  cbn [mbind outcome_bind].
  pose proof Hin as (c & Hc & Ht & Hns)%elem_of_get_successors.
  rewrite (item_Ok _ _ _ Hc). cbn [mbind outcome_bind].
  rewrite (insert_as_alter (λ c, c - t) _ _ _ Hc), <- Hns.
  by destruct (is_terminal ns).
Qed.

(** The AI block and the record. *)
Lemma ai_turn_watch (ai_mode : ai_mode_t) (w : watch) (v : game) (g : rng) :
  watch_inv w v →
  ∃ s, ai_turn key_ltb ucb1 ai_mode v g = Ok s ∧
    match s with
    | Running v' =>
        watch_inv (watch_ai w v v') v' ∧ gl_turn v' = player ∧
        reach (turn_board w) (turn_board (watch_ai w v v')) ∧
        passed (watch_ai w v v') = passed w ∧
        (exact_mode ai_mode = true → nim_ok w → nim_ok (watch_ai w v v'))
    | Ended PcWins => True
    | Ended _ => False
    end.
Proof.
  intros [Hinv Hpass]. destruct (game_inv_state _ _ Hinv) as (Hnn & Hlen & Hreach).
  destruct (gl_turn v) eqn:Hturn.
  - exists (Running v). unfold ai_turn, watch_ai. rewrite Hturn.
    split; [done|]. split; [|split_and!; try done; apply reach_refl].
    split; [done|]. intros _ Hpc. congruence.
  - pose proof Hinv as [Hnnb Hinv']. rewrite Hturn in Hinv'.
    destruct Hinv' as (Hterm & Hsel & Hmove).
    destruct (ai_turn_pc ai_mode v g Hturn Hnn Hterm) as (i & t & ns & Hin & Hex & ->).
    destruct (is_terminal ns) eqn:Hterm'.
    + by exists (Ended PcWins).
    + eexists. split; [done|]. unfold watch_ai. rewrite Hturn. simpl.
      pose proof (successor_nonneg _ _ _ _ Hnn Hin) as Hnn'.
      split_and!; try done.
      * eapply reach_trans; [done|]. by eapply reach_step.
      * intros Hmode Hok Hp. simpl in *. apply Hex; [done|].
        specialize (Hok Hp). specialize (Hpass Hp eq_refl).
        destruct Hmove as [?|(i' & t' & Hs)]; [done|].
        by eapply nim_zero_moves_out.
Qed.

(** A turn that was passed stays recorded. *)
Lemma watch_frame_passed (ai_mode : ai_mode_t) (w : watch) (v : game)
    (fr : list event * rng) :
  watch_inv w v → passed w = true →
  passed (watch_frame collidepoint key_ltb ucb1 ai_mode w v fr) = true.
Proof.
  intros Hinv Hp. unfold watch_frame.
  destruct (handle_events_watch w (draw_matches (gl_state v)) v fr.1 Hinv)
    as (s & -> & _ & Hpass & Hcase).
  { destruct (game_inv_state _ _ (proj1 Hinv)) as (_ & <- & _).
    apply draw_matches_rows_ok. }
  specialize (Hpass Hp). destruct s as [v1|e]; [|done].
  destruct (ai_turn_watch ai_mode _ v1 fr.2 Hcase) as (s & -> & Hs).
  destruct s as [v2|e]; [|done]. destruct Hs as (_ & _ & _ & -> & _). done.
Qed.

(** One frame and the record. *)
Lemma frame_watch (ai_mode : ai_mode_t) (w : watch) (v : game)
    (fr : list event * rng) :
  watch_inv w v →
  ∃ s, frame collidepoint key_ltb ucb1 ai_mode v fr = Ok s ∧
    reach (turn_board w) (turn_board (watch_frame collidepoint key_ltb ucb1 ai_mode w v fr)) ∧
    (exact_mode ai_mode = true → nim_ok w →
       nim_ok (watch_frame collidepoint key_ltb ucb1 ai_mode w v fr)) ∧
    match s with
    | Running v' =>
        watch_inv (watch_frame collidepoint key_ltb ucb1 ai_mode w v fr) v' ∧
        gl_turn v' = player
    | Ended PlayerWins => nim_zero (turn_board w) = false
    | Ended _ => True
    end.
Proof.
  intros Hinv. unfold frame, watch_frame.
  destruct (handle_events_watch w (draw_matches (gl_state v)) v fr.1 Hinv)
    as (s & -> & Hb & Hpass & Hcase).
  { destruct (game_inv_state _ _ (proj1 Hinv)) as (_ & <- & _).
    apply draw_matches_rows_ok. }
  cbn [mbind outcome_bind].
  set (w1 := watch_events collidepoint (draw_matches (gl_state v)) w v fr.1) in *.
  assert (Hnim1 : nim_ok w → nim_ok w1).
  { intros Hok Hp1. rewrite Hb. apply Hok.
    destruct (passed w) eqn:Hp; [|done]. by rewrite Hpass in Hp1. }
  destruct s as [v1|e].
  - destruct (ai_turn_watch ai_mode w1 v1 fr.2 Hcase) as (s & -> & Hs).
    exists s. split; [done|]. destruct s as [v2|e].
    + destruct Hs as (Hinv2 & Hturn & Hreach & _ & Hnim).
      rewrite Hb in Hreach. split_and!; try done. intros Hm Hok. by apply Hnim, Hnim1.
    + rewrite Hb. destruct e; try done.
      split_and!; [apply reach_refl|by intros _|done].
  - exists (Ended e). split; [done|]. rewrite Hb.
    split_and!; [apply reach_refl|by intros _|]. by destruct e.
Qed.

(** The main loop and the record. *)
Lemma main_loop_watch (ai_mode : ai_mode_t) (w : watch) (v : game)
    (frs : list (list event * rng)) :
  watch_inv w v →
  ∃ s, main_loop collidepoint key_ltb ucb1 ai_mode v frs = Ok s ∧
    reach (turn_board w) (turn_board (watch_loop collidepoint key_ltb ucb1 ai_mode w v frs)) ∧
    match s with
    | Running v' =>
        watch_inv (watch_loop collidepoint key_ltb ucb1 ai_mode w v frs) v' ∧
        (frs ≠ [] → gl_turn v' = player)
    | Ended PlayerWins =>
        exact_mode ai_mode = true → nim_ok w →
        passed (watch_loop collidepoint key_ltb ucb1 ai_mode w v frs) = true
    | Ended _ => True
    end.
Proof.
  revert w v. induction frs as [|fr frs IH]; intros w v Hinv; simpl.
  - exists (Running v). split_and!; [done|apply reach_refl|done|done].
  - destruct (frame_watch ai_mode w v fr Hinv) as (s & Hfr & Hreach & Hnim & Hcase).
    rewrite Hfr. cbn [mbind outcome_bind]. destruct s as [v'|e].
    + destruct Hcase as [Hinv' Hturn].
      destruct (IH _ v' Hinv') as (s' & Hs' & Hreach' & Hcase').
      exists s'. split; [done|]. split; [by eapply reach_trans|].
      destruct s' as [v''|[]]; try done.
      * destruct Hcase' as [Hinv'' Hturn'']. split; [done|]. intros _.
        destruct frs as [|fr' frs]; [|by apply Hturn''].
        simpl in Hs'. by simplify_eq.
      * intros Hm Hok. apply Hcase'; [done|]. by apply Hnim.
    + exists (Ended e). split; [done|]. split; [done|]. destruct e; try done.
      intros Hm Hok. specialize (Hok). destruct (passed w) eqn:Hp.
      * by apply watch_frame_passed.
      * specialize (Hok Hp). congruence.
Qed.

Lemma start_game_inv (b : list Z) :
  nonneg b → is_terminal b = false → watch_inv (new_watch b) (start_game b).
Proof. intros Hnn Hterm. split; [|done]. split; [done|]. simpl. done. Qed.
End game_frames.

(** ** The game loop: clicks *)

Lemma draw_rows_has (rows : list (nat * Z)) (y : Z) (r : nat) (c : Z) :
  (r, c) ∈ rows → ∃ btn, (btn, r) ∈ draw_rows rows y.
Proof.
  revert y. induction rows as [|[r' c'] rows IH]; intros y; simpl.
  - intros H. by apply elem_of_nil in H.
  - intros [Heq|H]%elem_of_cons.
    + injection Heq as -> ->. eexists. left.
    + destruct (IH (y + 80) H) as [btn Hb]. exists btn. by right.
Qed.

Lemma draw_matches_has (st : list Z) (r : nat) (c : Z) :
  st !! r = Some c → ∃ btn, (btn, r) ∈ draw_matches st.
Proof. intros H. apply (draw_rows_has _ _ r c). by apply elem_of_enumerate. Qed.

Section click_facts.
Context (collidepoint : Rect → Z → Z → bool).

(** A press that only hits the button of row [r]. *)
Lemma press_row_only (row_rects : list (Rect * nat)) (st : list Z) (x y : Z)
    (p : option nat) (r : nat) (c : Z) :
  (∀ btn row, (btn, row) ∈ row_rects → collidepoint btn x y = bool_decide (row = r)) →
  st !! r = Some c → 0 < c →
  press_row collidepoint row_rects st x y p =
    Ok (if bool_decide (r ∈ row_rects.*2) then Some r else p).
Proof.
  intros Hhit Hc Hpos. revert p.
  induction row_rects as [|[btn row] rest IH]; intros p; simpl; [done|].
  assert (Hrest : ∀ btn row, (btn, row) ∈ rest →
            collidepoint btn x y = bool_decide (row = r)).
  { intros b' r' H. apply Hhit. by right. }
  rewrite (Hhit btn row) by left. destruct (decide (row = r)) as [->|Hrow].
  - rewrite (bool_decide_eq_true_2 (r = r)) by done.
    rewrite (item_Ok _ _ _ Hc). cbn [mbind outcome_bind].
    destruct (Z.ltb_spec 0 c); [|lia]. rewrite IH by done.
    rewrite (bool_decide_eq_true_2 (r ∈ r :: _)) by left.
    by destruct (bool_decide _).
  - rewrite (bool_decide_eq_false_2 (row = r)) by done.
    cbn [mbind outcome_bind]. rewrite IH by done. f_equal.
    apply (f_equal (λ b : bool, if b then Some r else p)).
    apply bool_decide_ext.
    split; [by right|intros [?|?]%elem_of_cons; [congruence|done]].
Qed.

(** A press or a release that hits no row button. *)
Lemma press_row_none (row_rects : list (Rect * nat)) (st : list Z) (x y : Z)
    (p : option nat) :
  (∀ btn row, (btn, row) ∈ row_rects → collidepoint btn x y = false) →
  press_row collidepoint row_rects st x y p = Ok p.
Proof.
  intros Hhit. induction row_rects as [|[btn row] rest IH]; simpl; [done|].
  rewrite (Hhit btn row) by left. cbn [mbind outcome_bind]. apply IH.
  intros b' r' H. apply (Hhit b' r'). by right.
Qed.

Lemma pick_row_none (row_rects : list (Rect * nat)) (st : list Z) (x y : Z)
    (p sel : option nat) :
  (∀ btn row, (btn, row) ∈ row_rects → collidepoint btn x y = false) →
  pick_row collidepoint row_rects st x y p sel = Ok sel.
Proof.
  intros Hhit. revert sel. induction row_rects as [|[btn row] rest IH]; intros sel;
    simpl; [done|].
  rewrite (Hhit btn row) by left. cbn [mbind outcome_bind]. apply IH.
  intros b' r' H. apply (Hhit b' r'). by right.
Qed.

(** A release that only hits the button of the row that is pressed. *)
Lemma pick_row_only (row_rects : list (Rect * nat)) (st : list Z) (x y : Z)
    (sel : option nat) (r : nat) (c : Z) :
  (∀ btn row, (btn, row) ∈ row_rects → collidepoint btn x y = bool_decide (row = r)) →
  st !! r = Some c → 0 < c →
  pick_row collidepoint row_rects st x y (Some r) sel =
    Ok (if bool_decide (r ∈ row_rects.*2) then Some r else sel).
Proof.
  intros Hhit Hc Hpos. revert sel.
  induction row_rects as [|[btn row] rest IH]; intros sel; simpl; [done|].
  assert (Hrest : ∀ btn row, (btn, row) ∈ rest →
            collidepoint btn x y = bool_decide (row = r)).
  { intros b' r' H. apply Hhit. by right. }
  rewrite (Hhit btn row) by left. destruct (decide (row = r)) as [->|Hrow].
  - rewrite (bool_decide_eq_true_2 (r = r)) by done.
    rewrite (item_Ok _ _ _ Hc). cbn [mbind outcome_bind].
    destruct (Z.ltb_spec 0 c); [|lia].
    rewrite (bool_decide_eq_true_2 (Some r = Some r)) by done. simpl.
    rewrite IH by done.
    rewrite (bool_decide_eq_true_2 (r ∈ r :: _)) by left.
    by destruct (bool_decide _).
  - rewrite (bool_decide_eq_false_2 (row = r)) by done.
    cbn [mbind outcome_bind]. rewrite IH by done. f_equal.
    apply (f_equal (λ b : bool, if b then Some r else sel)).
    apply bool_decide_ext.
    split; [by right|intros [?|?]%elem_of_cons; [congruence|done]].
Qed.
End click_facts.

(** ** The game loop: the exact AI in a lost position *)

Section exact_lost.
Context (collidepoint : Rect → Z → Z → bool).
Context {K : Type} (key_ltb : K → K → bool) (ucb1 : Z → Z → Z → K).

Lemma ai_move_lost (ai_mode : ai_mode_t) (st : list Z) (g : rng) (i : nat) (c : Z) :
  exact_mode ai_mode = true → nonneg st → nim_zero st = true →
  st !! i = Some c → 0 < c → (∀ j, (j < i)%nat → st !! j = Some 0) →
  ai_move key_ltb ucb1 ai_mode st g = Ok (Some (i, 1)).
Proof.
  intros Hmode Hnn Hz Hi Hc Hlow.
  assert (Hmm : minimax st true = Some (Int (-1), Some (i, 1))).
  { apply (minimax_lost_move st true i c); try done.
    intros j c' Hj Hc'. rewrite (Hlow j Hj) in Hc'. injection Hc' as <-. lia. }
  destruct ai_mode; simpl; [| |done].
  - by rewrite Hmm.
  - by rewrite minimax_ab_full_window, Hmm.
Qed.

(** A frame in which the player hands over a board of Nim-sum [0]: the
    exact AI takes one token from the first pile that is not empty. *)
Lemma frame_exact_lost (ai_mode : ai_mode_t) (v v1 : game) (evs : list event)
    (g : rng) (i : nat) (c : Z) :
  exact_mode ai_mode = true →
  handle_events collidepoint (draw_matches (gl_state v)) v evs = Ok (Running v1) →
  gl_turn v1 = pc → nonneg (gl_state v1) → nim_zero (gl_state v1) = true →
  gl_state v1 !! i = Some c → 0 < c →
  (∀ j, (j < i)%nat → gl_state v1 !! j = Some 0) →
  frame collidepoint key_ltb ucb1 ai_mode v (evs, g) =
    Ok (if is_terminal (<[i := c - 1]> (gl_state v1)) then Ended PcWins
        else Running {| gl_state := <[i := c - 1]> (gl_state v1);
                        gl_selected_row := None; gl_turn := player;
                        gl_pressed_row := gl_pressed_row v1;
                        gl_pressed_action := gl_pressed_action v1 |}).
Proof.
  intros Hmode Hevs Hturn Hnn Hz Hi Hc Hlow. unfold frame. simpl. rewrite Hevs.
  cbn [mbind outcome_bind]. unfold ai_turn. rewrite Hturn.
  rewrite (ai_move_lost ai_mode _ g i c) by done.
  cbn [mbind outcome_bind]. rewrite (item_Ok _ _ _ Hi). cbn [mbind outcome_bind].
  by destruct (is_terminal _).
Qed.
End exact_lost.

(** ** The menu *)

Section menu_facts.
Context (collidepoint : Rect → Z → Z → bool).

Lemma menu_press_from (rects : list (Rect * ai_mode_t * nat)) (x y : Z)
    (p : option nat) :
  menu_press collidepoint rects x y p =
  match menu_press collidepoint rects x y None with
  | Some idx => Some idx
  | None => p
  end.
Proof.
  revert p. induction rects as [|[[btn mode] idx] rest IH]; intros p; simpl; [done|].
  destruct (collidepoint btn x y); [|apply IH].
  rewrite (IH (Some idx)). by destruct (menu_press collidepoint rest x y None).
Qed.

Lemma menu_press_None (rects : list (Rect * ai_mode_t * nat)) (x y : Z) :
  menu_press collidepoint rects x y None = None →
  ∀ btn mode idx, (btn, mode, idx) ∈ rects → collidepoint btn x y = false.
Proof.
  induction rects as [|[[btn mode] idx] rest IH]; simpl; intros H b m i Hin.
  - by apply elem_of_nil in Hin.
  - destruct (collidepoint btn x y) eqn:Hc.
    + rewrite menu_press_from in H.
      by destruct (menu_press collidepoint rest x y None).
    + apply elem_of_cons in Hin as [Heq|Hin]; [by simplify_eq|by eapply IH].
Qed.

Lemma menu_press_Some (rects : list (Rect * ai_mode_t * nat)) (x y : Z) (idx : nat) :
  menu_press collidepoint rects x y None = Some idx →
  ∃ btn mode, (btn, mode, idx) ∈ rects ∧ collidepoint btn x y = true.
Proof.
  induction rects as [|[[btn mode] i] rest IH]; simpl; [done|]. intros H.
  rewrite menu_press_from in H.
  destruct (menu_press collidepoint rest x y None) as [j|] eqn:Hrest.
  - injection H as ->. destruct (IH eq_refl) as (b & m & Hin & Hc).
    exists b, m. split; [by right|done].
  - destruct (collidepoint btn x y) eqn:Hc; [|done]. injection H as ->.
    exists btn, mode. split; [left|done].
Qed.

Lemma menu_release_Some (rects : list (Rect * ai_mode_t * nat)) (x y : Z)
    (p : option nat) (mode : ai_mode_t) :
  menu_release collidepoint rects x y p = Some mode →
  ∃ btn idx, (btn, mode, idx) ∈ rects ∧ collidepoint btn x y = true ∧ p = Some idx.
Proof.
  induction rects as [|[[btn m] i] rest IH]; simpl; [done|].
  destruct (collidepoint btn x y && bool_decide (p = Some i)) eqn:Hc.
  - intros [= ->]. apply andb_true_iff in Hc as [Hc Hp%bool_decide_eq_true].
    exists btn, i. split; [left|done].
  - intros H. destruct (IH H) as (b & j & Hin & Hb & Hp).
    exists b, j. split; [by right|done].
Qed.

(** The event loop of the menu returns a mode only at a release on a
    button that the last press on the menu selected. *)
Lemma menu_events_return (seen evs : list event) (p : option nat)
    (mode : ai_mode_t) :
  (∀ idx, p = Some idx →
     ∃ pre x y mid, seen = pre ++ MOUSEBUTTONDOWN (x, y) :: mid ∧
       Forall (menu_idle collidepoint) mid ∧
       menu_press collidepoint menu_rects x y None = Some idx) →
  menu_events collidepoint p evs = MenuReturn mode →
  ∃ pre x y mid x' y' post btn idx,
    seen ++ evs = pre ++ MOUSEBUTTONDOWN (x, y) :: mid
                      ++ MOUSEBUTTONUP (x', y') :: post ∧
    Forall (menu_idle collidepoint) mid ∧
    menu_press collidepoint menu_rects x y None = Some idx ∧
    (btn, mode, idx) ∈ menu_rects ∧
    collidepoint btn x y = true ∧ collidepoint btn x' y' = true.
Proof.
  revert seen p. induction evs as [|ev evs IH]; intros seen p Hinv; [done|].
  cbn [menu_events].
  assert (Hnext : ∀ p', menu_event collidepoint p ev = MenuWaiting p' →
    ∀ idx, p' = Some idx →
      ∃ pre x y mid, seen ++ [ev] = pre ++ MOUSEBUTTONDOWN (x, y) :: mid ∧
        Forall (menu_idle collidepoint) mid ∧
        menu_press collidepoint menu_rects x y None = Some idx).
  { intros p' Hev idx ->. destruct ev as [|[x y]|[x y]|]; cbn [menu_event] in Hev.
    - done.
    - assert (Hev' : menu_press collidepoint menu_rects x y p = Some idx)
        by (by injection Hev).
      clear Hev. rewrite menu_press_from in Hev'.
      destruct (menu_press collidepoint menu_rects x y None) as [j|] eqn:Hj.
      + injection Hev' as ->. exists seen, x, y, []. done.
      + destruct (Hinv idx Hev') as (pre & x0 & y0 & mid & -> & Hmid & Hp).
        exists pre, x0, y0, (mid ++ [MOUSEBUTTONDOWN (x, y)]).
        split; [by rewrite <- !app_assoc|]. split; [|done].
        apply Forall_app. split; [done|]. apply Forall_singleton. simpl.
        by apply menu_press_None.
    - by destruct (menu_release collidepoint menu_rects x y p).
    - injection Hev as ->.
      destruct (Hinv idx eq_refl) as (pre & x0 & y0 & mid & -> & Hmid & Hp).
      exists pre, x0, y0, (mid ++ [OtherEvent]).
      split; [by rewrite <- !app_assoc|]. split; [|done].
      apply Forall_app. split; [done|]. by apply Forall_singleton. }
  destruct (menu_event collidepoint p ev) as [p'| m|] eqn:Hev; [| |done].
  - intros Hret. specialize (Hnext p' eq_refl).
    destruct (IH (seen ++ [ev]) p' Hnext Hret)
      as (pre & x & y & mid & x' & y' & post & btn & idx & Heq & H).
    exists pre, x, y, mid, x', y', post, btn, idx. split; [|done].
    by rewrite <- Heq, <- app_assoc.
  - intros [= ->]. destruct ev as [|[x y]|[x' y']|]; cbn [menu_event] in Hev; try done.
    destruct (menu_release collidepoint menu_rects x' y' p) as [m|] eqn:Hrel; [|done].
    injection Hev as ->.
    apply menu_release_Some in Hrel as (btn & idx & Hin & Hc & ->).
    destruct (Hinv idx eq_refl) as (pre & x & y & mid & -> & Hmid & Hp).
    exists pre, x, y, mid, x', y', evs, btn, idx.
    split; [by rewrite <- app_assoc|]. split_and!; try done.
    destruct (menu_press_Some _ _ _ _ Hp) as (b & m & Hb & Hcb).
    assert (b = btn) as -> ; [|done].
    clear -Hb Hin. unfold menu_rects in *. cbv in Hb, Hin.
    repeat (apply elem_of_cons in Hb as [Hb|Hb];
            [repeat (apply elem_of_cons in Hin as [Hin|Hin]; [congruence|]);
             by apply elem_of_nil in Hin|]).
    by apply elem_of_nil in Hb.
Qed.

Lemma draw_ai_menu_from_events (p : option nat) (frs : list (list event * rng)) :
  (draw_ai_menu_from collidepoint p frs).1 =
  menu_events collidepoint p (mjoin (frs.*1)).
Proof.
  revert p. induction frs as [|[evs g] frs IH]; intros p; simpl; [done|].
  assert (Happ : ∀ evs' p', menu_events collidepoint p' (evs' ++ mjoin (frs.*1)) =
            match menu_events collidepoint p' evs' with
            | MenuWaiting p'' => menu_events collidepoint p'' (mjoin (frs.*1))
            | s => s
            end).
  { induction evs' as [|ev evs' IH']; intros p'; simpl; [done|].
    destruct (menu_event collidepoint p' ev); [apply IH'|done|done]. }
  rewrite Happ. destruct (menu_events collidepoint p evs); [apply IH|done|done].
Qed.
End menu_facts.

(** ** The whole program *)

Section program_facts.
Context (collidepoint : Rect → Z → Z → bool).
Context {K : Type} (key_ltb : K → K → bool) (ucb1 : Z → Z → Z → K).


End program_facts.

(** ** Colours and the layout of the buttons *)

Lemma darken_channel_8bit (c : Z) :
  0 ≤ c ≤ 255 →
  int_of_float (float_mul (float_of_int c) factor_default) = Some (4 * c / 5).
Proof.
  intros Hc.
  assert (Hall : forallb (λ c, bool_decide
            (int_of_float (float_mul (float_of_int c) factor_default) = Some (4 * c / 5)))
            (seqZ 0 256) = true) by (vm_compute; reflexivity).
  rewrite forallb_forall in Hall. specialize (Hall c).
  apply bool_decide_eq_true in Hall; [done|].
  apply list_elem_of_In, elem_of_seqZ. lia.
Qed.

Lemma draw_rows_lookup (rows : list (nat * Z)) (y : Z) (i : nat) :
  draw_rows rows y !! i =
  (λ rc : nat * Z, (mkRect (WIDTH - 120) (y + 80 * Z.of_nat i + 10) 100 40, rc.1))
    <$> rows !! i.
Proof.
  revert y i. induction rows as [|[row c] rows IH]; intros y i; [done|].
  destruct i as [|i]; simpl.
  - unfold draw_button. do 3 f_equal. lia.
  - rewrite IH. destruct (rows !! i); [|done]. simpl. do 3 f_equal. lia.
Qed.

Lemma draw_matches_lookup (st : list Z) (i : nat) (btn : Rect) :
  (draw_matches st).*1 !! i = Some btn →
  (i < length st)%nat ∧ btn = mkRect 680 (110 + 80 * Z.of_nat i) 100 40.
Proof.
  rewrite list_lookup_fmap. unfold draw_matches. rewrite draw_rows_lookup.
  unfold enumerate. rewrite list_lookup_imap.
  destruct (st !! i) as [c|] eqn:Hc; [|done]. simpl. intros [= <-].
  split; [by eapply lookup_lt_Some|]. unfold WIDTH. f_equal; lia.
Qed.

Lemma rect_contains_spec (r : Rect) (x y : Z) :
  rect_contains r x y = true ↔
  rect_x r ≤ x < rect_x r + rect_w r ∧ rect_y r ≤ y < rect_y r + rect_h r.
Proof.
  unfold rect_contains. rewrite !andb_true_iff, !Z.leb_le, !Z.ltb_lt. lia.
Qed.

(** * The specification's claims *)

(** C1. On every well-formed state and for either player, [minimax_ab]
    started with the window [(-inf, +inf)] returns exactly the pair
    [(value, move)] that [minimax] returns: the same value and, among
    moves of equal value, the same first move of the enumeration. Both
    calls do return. *)
Theorem minimax_ab_agrees_with_minimax (st : list Z) (maximizing : bool) :
  nonneg st →
  ∃ value mv,
    minimax st maximizing = Some (value, mv) ∧
    minimax_ab st NegInf PosInf maximizing = Some (value, mv).
Proof.
  intros Hst.
  destruct (minimax_ab_fuel_root (S (tokens st)) st maximizing Hst) as ([v mv] & H1 & H2);
    [lia|].
  exists v, mv. done.
Qed.

Lemma minimax_ab_agrees_with_minimax_witness :
  nonneg [1; 2; 3] ∧
  ∃ value mv,
    minimax [1; 2; 3] true = Some (value, mv) ∧
    minimax_ab [1; 2; 3] NegInf PosInf true = Some (value, mv).
Proof.
  split.
  - repeat constructor; lia.
  - apply (minimax_ab_agrees_with_minimax [1; 2; 3] true). repeat constructor; lia.
Defined.

(** C2. [mcts] on the terminal root [[0; 0; 0; 0]] with the default 100
    passes, and on [[1; 3; 5; 7]] with no pass: both calls raise the
    [ValueError] of [max] on an empty sequence, where the specification
    asks for [None]. *)
Theorem mcts_without_children_raises {K : Type} (key_ltb : K → K → bool)
    (ucb1 : Z → Z → Z → K) (g : rng) :
  mcts key_ltb ucb1 [0; 0; 0; 0] 100 g = Raise EmptyMaxError ∧
  mcts key_ltb ucb1 [1; 3; 5; 7] 0 g = Raise EmptyMaxError.
Proof.
  split.
  - by apply mcts_terminal_raises.
  - by apply mcts_no_iteration_raises.
Qed.

(** What [utility] computes, case by case. *)
Lemma utility_cases (st : list Z) (maximizing : bool) :
  utility st maximizing =
  if maximizing then -1 else if is_terminal st then 1 else 0.
Proof. reflexivity. Qed.

(** C3. [utility] on the non-terminal state [[1]] with the flag set: the
    code returns [-1], where the specification asks for [0]. The three
    other cases are as specified: [-1] on a terminal state with the flag
    set, [1] on a terminal state and [0] on a non-terminal one with the
    flag unset. *)
Theorem utility_nonterminal_maximizing :
  is_terminal [1] = false ∧ utility [1] true = -1 ∧
  utility [0] true = -1 ∧ utility [0] false = 1 ∧ utility [1] false = 0.
Proof. split_and!; reflexivity. Qed.

(** C4. On a state whose piles are all zero both exact solvers return
    [(-1, None)] for the maximizing player and [(1, None)] for the
    minimizing one. *)
Theorem exact_solvers_on_terminal (st : list Z) (maximizing : bool) :
  Forall (λ h, h = 0) st →
  minimax st maximizing = Some (Int (if maximizing then -1 else 1), None) ∧
  minimax_ab st NegInf PosInf maximizing =
    Some (Int (if maximizing then -1 else 1), None).
Proof.
  intros Hterm%is_terminal_true. unfold minimax, minimax_ab. simpl.
  rewrite Hterm, (utility_terminal _ _ Hterm). done.
Qed.

Lemma exact_solvers_on_terminal_witness :
  Forall (λ h, h = 0) [0; 0; 0; 0] ∧
  minimax [0; 0; 0; 0] true = Some (Int (-1), None) ∧
  minimax_ab [0; 0; 0; 0] NegInf PosInf true = Some (Int (-1), None).
Proof.
  split.
  - repeat constructor.
  - apply (exact_solvers_on_terminal [0; 0; 0; 0] true). repeat constructor.
Defined.

(** C5. The move generator lists exactly the triples
    [(pile, take, resulting_state)] with [1 <= take <= count of the pile],
    the resulting state being the input with that pile lowered by [take]
    and every other pile unchanged; no move is listed twice, and the list
    is ordered by pile index and then by [take]. On list objects, the
    call makes one new object per triple and leaves every object that
    existed before, the input state among them, as it was. *)
Theorem get_successors_enumerates (st : list Z) :
  (∀ i t ns,
     (i, t, ns) ∈ get_successors st ↔
     ∃ c, st !! i = Some c ∧ 1 ≤ t ≤ c ∧ length ns = length st ∧
          ns !! i = Some (c - t) ∧ ∀ j, j ≠ i → ns !! j = st !! j) ∧
  NoDup ((λ x : successor, x.1) <$> get_successors st) ∧
  StronglySorted move_order (get_successors st) ∧
  ∀ (h : store) (st_ref : nat), h !! st_ref = Some st →
    ∃ h' moves,
      get_successors_obj h st_ref = Some (h', moves) ∧
      h' !! st_ref = Some st ∧
      h' = h ++ (get_successors st).*2 ∧
      moves.*1 = (get_successors st).*1 ∧
      moves.*2 = seq (length h) (length (get_successors st)).
Proof.
  split_and!.
  - intros i t ns. rewrite elem_of_get_successors. split.
    + intros (c & Hc & Ht & Hns). exists c. split_and!; [done|lia|lia|..];
        by apply (alter_sub_ext st ns i t c Hc).
    + intros (c & Hc & Ht & Hext). exists c. split_and!; [done|lia|lia|].
      by apply (alter_sub_ext st ns i t c Hc).
  - apply get_successors_moves_NoDup.
  - apply get_successors_sorted.
  - intros h st_ref Hst.
    destruct (get_successors_obj_spec h st_ref st Hst) as (h' & moves & Hrun & -> & H2 & H3).
    exists (h ++ (get_successors st).*2), moves. split_and!; [done| |done|done|done].
    rewrite lookup_app_l by (by eapply lookup_lt_Some). done.
Qed.

Lemma get_successors_enumerates_witness :
  get_successors [1; 2] = [(0%nat, 1, [0; 2]); (1%nat, 1, [1; 1]); (1%nat, 2, [1; 0])] ∧
  (1%nat, 2, [1; 0]) ∈ get_successors [1; 2] ∧
  get_successors_obj [[1; 2]] 0 =
    Some ([[1; 2]; [0; 2]; [1; 1]; [1; 0]],
          [(0%nat, 1, 1%nat); (1%nat, 1, 2%nat); (1%nat, 2, 3%nat)]).
Proof.
  split; [reflexivity|]. split; [|reflexivity].
  apply (proj1 (get_successors_enumerates [1; 2])). exists 2.
  split_and!; [done|lia|lia|done|done|].
  intros [|[|j]] Hj; done.
Defined.

(** C6. Every generated triple [(pile, take, resulting_state)] takes at
    least one token and leaves exactly [take] tokens fewer in total; a
    state whose piles are all zero has no move, and so has
    [[0; 0; 0; 0]]. *)
Theorem moves_remove_tokens (st : list Z) :
  (∀ i t ns, (i, t, ns) ∈ get_successors st → 1 ≤ t ∧ total ns = total st - t) ∧
  (Forall (λ h, h = 0) st → get_successors st = []) ∧
  get_successors [0; 0; 0; 0] = [].
Proof.
  split_and!.
  - intros i t ns. apply successor_total.
  - intros Hterm%is_terminal_true. by apply terminal_no_successors.
  - reflexivity.
Qed.

Lemma moves_remove_tokens_witness :
  (1%nat, 2, [1; 1; 5]) ∈ get_successors [1; 3; 5] ∧
  1 ≤ 2 ∧ total [1; 1; 5] = total [1; 3; 5] - 2.
Proof.
  assert (Hin : (1%nat, 2, [1; 1; 5]) ∈ get_successors [1; 3; 5]).
  { apply elem_of_get_successors. exists 3. split_and!; [done|lia|lia|done]. }
  split; [exact Hin|].
  exact (proj1 (moves_remove_tokens [1; 3; 5]) 1%nat 2 [1; 1; 5] Hin).
Defined.

(** C7. A move returned by [minimax], by [minimax_ab] (whatever the
    window) or by [mcts] is legal in the input state (its pile exists and
    holds at least the tokens taken, at least one), and playing it leaves
    strictly fewer tokens in total. *)
Theorem solver_moves_are_legal {K : Type} (key_ltb : K → K → bool)
    (ucb1 : Z → Z → Z → K) (st : list Z) (mv : move) :
  (∃ m v, minimax st m = Some (v, Some mv)) ∨
  (∃ alpha beta m v, minimax_ab st alpha beta m = Some (v, Some mv)) ∨
  (∃ n g, mcts key_ltb ucb1 st n g = Ok (Some mv)) →
  legal_move st mv ∧ total (apply_move st mv) < total st.
Proof.
  intros Hret.
  assert (Hs : ∃ ns, (mv.1, mv.2, ns) ∈ get_successors st).
  { destruct Hret as [(m & v & H)|[(a & b & m & v & H)|(n & g & H)]].
    - by eapply minimax_move_successor.
    - by eapply minimax_ab_move_successor.
    - by eapply mcts_move_successor. }
  destruct Hs as [ns Hin]. apply successor_move_legal in Hin as (Hl & _ & Ht). done.
Qed.

Lemma solver_moves_are_legal_witness :
  mcts Z.ltb (λ w v p, w - v + p) [1; 2] 5 (λ n, n) = Ok (Some (1%nat, 2)) ∧
  legal_move [1; 2] (1%nat, 2) ∧ total (apply_move [1; 2] (1%nat, 2)) < total [1; 2].
Proof.
  assert (Hrun : mcts Z.ltb (λ w v p, w - v + p) [1; 2] 5 (λ n, n)
                 = Ok (Some (1%nat, 2))) by (vm_compute; reflexivity).
  split; [exact Hrun|].
  apply (solver_moves_are_legal Z.ltb (λ w v p, w - v + p) [1; 2] (1%nat, 2)).
  right. right. exists 5, (λ n, n). exact Hrun.
Defined.

(** C8. [minimax] on [[1; 3; 5; 7]] for the maximizing player returns the
    value [-1]: the first mover loses, as the Nim-sum [0] of the position
    predicts. *)
Theorem minimax_1357_lost :
  nim_sum [1; 3; 5; 7] = 0 ∧
  ∃ mv, minimax [1; 3; 5; 7] true = Some (Int (-1), mv).
Proof.
  split; [reflexivity|].
  apply (minimax_value_by_nim_sum [1; 3; 5; 7] true). repeat constructor; lia.
Qed.

(** C9. After any number of passes of the main loop, started from the
    fresh root of any state and with any draws, every node at which the
    selection loop calls [uct_select] (no untried move left, at least one
    child) has been visited at least once and so has each of its
    children: the division by a child's visit count and the logarithm of
    the node's visit count are defined, [uct_select] returns a child, and
    the whole selection phase of the next pass returns a node. *)
Theorem ucb1_defined_at_selection {K : Type} (key_ltb : K → K → bool)
    (ucb1 : Z → Z → Z → K) (st : list Z) (k : nat) (g : rng)
    (tree : list MCTSNode) (g' : rng) :
  iterations key_ltb ucb1 k ([new_node st None], g) = Ok (tree, g') →
  (∀ id n, tree !! id = Some n → untried_moves n = [] → children n ≠ [] →
     ucb1_defined tree n ∧
     ∃ c, uct_select key_ltb ucb1 tree n = Ok c ∧ c ∈ children n) ∧
  ∃ nd, select key_ltb ucb1 (length tree) tree 0 = Ok nd.
Proof.
  intros Hit. destruct (new_tree_inv st) as [Hl0 Hv0].
  destruct (iterations_inv key_ltb ucb1 k _ _ _ _ Hl0 Hv0 Hit) as [Hlink Hvis].
  split.
  - intros id n Hn _ Hne. destruct (Hvis id n Hn) as (_ & Hch & Hself).
    assert (Hdef : ucb1_defined tree n) by (split; [by apply Hself|done]).
    split; [done|]. by apply uct_select_ok.
  - destruct (select_ok key_ltb ucb1 tree (length tree) 0 Hlink Hvis) as (nd & n & Hs & _).
    + by destruct Hlink.
    + lia.
    + eauto.
Qed.

Lemma ucb1_defined_at_selection_witness :
  ∃ tree g',
    iterations Z.ltb (λ w v p, w - v + p) 6 ([new_node [1; 2] None], λ n, n)
      = Ok (tree, g') ∧
    ∃ nd, select Z.ltb (λ w v p, w - v + p) (length tree) tree 0 = Ok nd.
Proof.
  destruct (iterations Z.ltb (λ w v p, w - v + p) 6 ([new_node [1; 2] None], λ n, n))
    as [[tree g']| |] eqn:Hit.
  - exists tree, g'. split; [reflexivity|].
    exact (proj2 (ucb1_defined_at_selection _ _ _ _ _ _ _ Hit)).
  - exfalso. vm_compute in Hit. discriminate.
  - exfalso. vm_compute in Hit. discriminate.
Defined.

(** C10. On a well-formed state every move leads to a well-formed state
    with strictly fewer tokens, and no bound on the depth of the
    recursion above the token count is ever reached: [minimax],
    [minimax_ab] (for every window) and the rollout of [simulate] (for
    every sequence of draws) return. *)
Theorem solvers_terminate (st : list Z) :
  nonneg st →
  (∀ i t ns, (i, t, ns) ∈ get_successors st → nonneg ns ∧ 0 ≤ total ns < total st) ∧
  (∀ fuel m, total st < Z.of_nat fuel →
     ∃ r, minimax_fuel fuel st m = Some r ∧ minimax st m = Some r) ∧
  (∀ fuel alpha beta m, total st < Z.of_nat fuel →
     ∃ r, minimax_ab_fuel fuel st alpha beta m = Some r ∧
          minimax_ab st alpha beta m = Some r) ∧
  (∀ fuel m g, total st < Z.of_nat fuel →
     ∃ z g', simulate_loop fuel st m g = Ok (z, g')) ∧
  (∀ g, ∃ z g', simulate st g = Ok (z, g')).
Proof.
  intros Hst. pose proof (tokens_total st Hst) as Htok. split_and!.
  - intros i t ns Hin. pose proof (successor_nonneg _ _ _ _ Hst Hin) as Hns.
    pose proof (successor_total _ _ _ _ Hin) as [Ht Htot].
    pose proof (tokens_total ns Hns). split; [done|lia].
  - intros fuel m Hfuel.
    destruct (minimax_fuel_total fuel st m) as [r Hr]; [lia|].
    exists r. split; [done|]. rewrite <- Hr. symmetry. apply minimax_fuel_enough. lia.
  - intros fuel alpha beta m Hfuel.
    destruct (minimax_ab_fuel_total fuel st alpha beta m) as [r Hr]; [lia|].
    exists r. split; [done|]. rewrite <- Hr. symmetry. apply minimax_ab_fuel_enough. lia.
  - intros fuel m g Hfuel.
    destruct (simulate_loop_nonneg fuel st m g Hst) as (z & g' & Hs & _); [lia|]. eauto.
  - intros g.
    destruct (simulate_loop_nonneg (S (tokens st)) st true g Hst) as (z & g' & Hs & _);
      [lia|]. eauto.
Qed.

Lemma solvers_terminate_witness :
  nonneg [1; 3; 5; 7] ∧ ∃ z g', simulate [1; 3; 5; 7] (λ n, n) = Ok (z, g').
Proof.
  split.
  - repeat constructor; lia.
  - apply (solvers_terminate [1; 3; 5; 7]). repeat constructor; lia.
Defined.

(** * Further properties of the solvers *)

(** X1. Every call of [mcts] ends in one of three ways: it returns, it
    raises the [ValueError] of [max] on an empty sequence, or it raises
    the [IndexError] of [random.choice] on an empty sequence. The loop
    bounds of the model are never reached, and no [ZeroDivisionError]
    and no domain error of [math.log] or [math.sqrt] comes out of the
    UCB1 score. *)
Theorem mcts_outcome {K : Type} (key_ltb : K → K → bool) (ucb1 : Z → Z → Z → K)
    (st : list Z) (iter_count : Z) (g : rng) :
  (∃ r, mcts key_ltb ucb1 st iter_count g = Ok r) ∨
  mcts key_ltb ucb1 st iter_count g = Raise EmptyMaxError ∨
  mcts key_ltb ucb1 st iter_count g = Raise IndexError.
Proof.
  destruct (new_tree_inv st) as [Hl0 Hv0].
  change (mcts key_ltb ucb1 st iter_count g) with
    ('(tree, _) ← iterations key_ltb ucb1 (Z.to_nat iter_count) ([new_node st None], g);
     mcts_pick st tree).
  destruct (iterations_progress key_ltb ucb1 (Z.to_nat iter_count) _ g Hl0 Hv0)
    as [(tree & g' & -> & Hlink & Hvis)| ->]; [|by right; right].
  simpl.
  destruct (mcts_pick_cases st tree Hlink Hvis)
    as (r & _ & [[_ ->]|(c & cn & _ & _ & ->)]); eauto.
Qed.

(** X2. On a well-formed state that is not terminal, [mcts] with at least
    one pass returns a move, legal in that state. *)
Theorem mcts_returns_move {K : Type} (key_ltb : K → K → bool) (ucb1 : Z → Z → Z → K)
    (st : list Z) (iter_count : Z) (g : rng) :
  nonneg st → is_terminal st = false → 0 < iter_count →
  ∃ mv, mcts key_ltb ucb1 st iter_count g = Ok (Some mv) ∧ legal_move st mv.
Proof.
  intros Hst Hterm Hn. destruct (new_tree_inv st) as [Hl0 Hv0].
  assert (Hg0 : tree_game st [new_node st None]).
  { split; [by exists (new_node st None)|]. intros [|id] n Hn0; [|done].
    injection Hn0 as <-. simpl. split; [done|].
    intros c Hin. by apply elem_of_nil in Hin. }
  assert (Hnn0 : tree_nonneg [new_node st None]).
  { intros [|id] n Hn0; [|done]. by injection Hn0 as <-. }
  destruct (iterations_progress_nonneg key_ltb ucb1 st (Z.to_nat iter_count) _ g
              Hl0 Hv0 Hg0 Hnn0) as (tree & g' & Hit & Hlink & Hvis & Hg & Hnn).
  assert (∃ r', tree !! 0%nat = Some r' ∧ children r' ≠ []) as (r' & Hr' & Hc').
  { destruct (Z.to_nat iter_count) as [|k] eqn:Hk; [lia|].
    eapply (iterations_root_children key_ltb ucb1 k [new_node st None] g (new_node st None));
      [done| |done].
    right. simpl. by apply nonterminal_has_successor. }
  assert (Hmcts : mcts key_ltb ucb1 st iter_count g = mcts_pick st tree).
  { change (mcts key_ltb ucb1 st iter_count g) with
      ('(tree, _) ← iterations key_ltb ucb1 (Z.to_nat iter_count) ([new_node st None], g);
       mcts_pick st tree).
    by rewrite Hit. }
  destruct (mcts_pick_cases st tree Hlink Hvis)
    as (r & Hr & [[Hnil _]|(c & cn & Hin & Hcn & Hpick)]); [congruence|].
  destruct Hg as [(r0 & Hr0 & Hst0) Hg].
  assert (r0 = r) as -> by congruence.
  destruct (Hg 0%nat r Hr) as [_ Hch].
  destruct (Hch c Hin) as (cn' & i & t & Hcn' & Hmv).
  assert (cn' = cn) as -> by congruence. rewrite Hst0 in Hmv.
  destruct (find_move_found _ _ _ _ Hmv) as [mv Hfind].
  exists mv. rewrite Hmcts, Hpick, Hfind. split; [done|].
  destruct (find_move_successor _ _ _ Hfind) as [ns Hns].
  by apply successor_move_legal in Hns as (? & _ & _).
Qed.

Lemma mcts_returns_move_witness :
  nonneg [1; 2] ∧ is_terminal [1; 2] = false ∧ 0 < 5 ∧
  ∃ mv, mcts Z.ltb (λ w v p, w - v + p) [1; 2] 5 (λ n, n) = Ok (Some mv) ∧
        legal_move [1; 2] mv.
Proof.
  assert (Hst : nonneg [1; 2]) by (repeat constructor; lia).
  split_and!; [exact Hst|reflexivity|lia|].
  apply (mcts_returns_move Z.ltb (λ w v p, w - v + p) [1; 2] 5 (λ n, n) Hst);
    [reflexivity|lia].
Defined.

(** X3. For every window [alpha < beta] the value returned by [minimax_ab]
    on a well-formed state brackets the value of [minimax]: the two are
    equal when the exact value lies inside the window, and otherwise
    the returned value lies on the same side of the window, between the
    bound and the exact value. Both values are [-1] or [1]. *)
Theorem minimax_ab_window_sound (st : list Z) (maximizing : bool)
    (alpha beta : number) :
  nonneg st → num_lt alpha beta →
  ∃ v mv r mr,
    minimax st maximizing = Some (v, mv) ∧
    minimax_ab st alpha beta maximizing = Some (r, mr) ∧
    pm1 v ∧ pm1 r ∧ bracket alpha beta v r.
Proof.
  intros Hst Hwin.
  apply (minimax_ab_fuel_sound (S (tokens st)) st Hst); [lia|done].
Qed.

Lemma minimax_ab_window_sound_witness :
  nonneg [1; 2; 3] ∧ num_lt (Int 0) (Int 1) ∧
  ∃ v mv r mr,
    minimax [1; 2; 3] true = Some (v, mv) ∧
    minimax_ab [1; 2; 3] (Int 0) (Int 1) true = Some (r, mr) ∧
    pm1 v ∧ pm1 r ∧ bracket (Int 0) (Int 1) v r.
Proof.
  assert (Hst : nonneg [1; 2; 3]) by (repeat constructor; lia).
  assert (Hwin : num_lt (Int 0) (Int 1)) by (simpl; lia).
  split_and!; [exact Hst|exact Hwin|].
  exact (minimax_ab_window_sound [1; 2; 3] true (Int 0) (Int 1) Hst Hwin).
Defined.

(** X4. On every well-formed state the value [minimax] returns is decided by
    the Nim-sum of the piles: the maximizing player to move gets [-1]
    exactly when the Nim-sum is [0], and the minimizing player to move
    gets [1] exactly then. *)
Theorem minimax_decided_by_nim_sum (st : list Z) :
  nonneg st →
  (∃ mv, minimax st true = Some (Int (if nim_sum st =? 0 then -1 else 1), mv)) ∧
  (∃ mv, minimax st false = Some (Int (if nim_sum st =? 0 then 1 else -1), mv)).
Proof.
  intros Hst.
  destruct (minimax_value_by_nim_sum st true Hst) as [mv1 H1].
  destruct (minimax_value_by_nim_sum st false Hst) as [mv2 H2].
  unfold nim_zero in *. split.
  - exists mv1. rewrite H1. by destruct (nim_sum st =? 0).
  - exists mv2. rewrite H2. by destruct (nim_sum st =? 0).
Qed.

Lemma minimax_decided_by_nim_sum_witness :
  nonneg [1; 2; 3] ∧ nim_sum [1; 2; 3] = 0 ∧
  ∃ mv, minimax [1; 2; 3] true = Some (Int (-1), mv).
Proof.
  assert (Hst : nonneg [1; 2; 3]) by (repeat constructor; lia).
  split_and!; [exact Hst|reflexivity|].
  exact (proj1 (minimax_decided_by_nim_sum [1; 2; 3] Hst)).
Defined.

(** X5. A single pile that is not empty is won by the player to move:
    [minimax] returns [1] for the maximizing player. *)
Theorem minimax_single_pile (n : Z) :
  1 ≤ n → ∃ mv, minimax [n] true = Some (Int 1, mv).
Proof.
  intros Hn.
  destruct (minimax_value_by_nim_sum [n] true) as [mv Hmv]; [repeat constructor; lia|].
  exists mv. rewrite Hmv. unfold nim_zero, nim_sum. simpl. rewrite Z.lxor_0_r.
  by destruct (Z.eqb_spec n 0); [lia|].
Qed.

Lemma minimax_single_pile_witness :
  1 ≤ 4 ∧ ∃ mv, minimax [4] true = Some (Int 1, mv).
Proof. split; [lia|]. apply (minimax_single_pile 4). lia. Defined.

(** X6. The move [minimax] returns is the first one of the enumeration whose
    resulting position has the value returned: the positions of the
    moves before it are strictly worse for the mover, and those of the
    moves after it are not better. *)
Theorem minimax_keeps_first_best (st : list Z) (m : bool) (v : number) (mv : move) :
  minimax st m = Some (v, Some mv) →
  ∃ pre ns post mv',
    get_successors st = pre ++ (mv.1, mv.2, ns) :: post ∧
    minimax ns (negb m) = Some (v, mv') ∧
    (∀ i t ns', (i, t, ns') ∈ pre →
       ∃ val mv'', minimax ns' (negb m) = Some (val, mv'') ∧ strictly_better m val v) ∧
    (∀ i t ns', (i, t, ns') ∈ post →
       ∃ val mv'', minimax ns' (negb m) = Some (val, mv'') ∧ better m val v).
Proof.
  rewrite minimax_unfold. destruct (is_terminal st); [done|].
  intros [(_ & Hmv & _)|(pre & i & t & ns & post & mv' & Hs & Hmv & Hrec & _ & Hpre & Hpost)]
    %minimax_loop_first; [done|].
  injection Hmv as ->. exists pre, ns, post, mv'. done.
Qed.

Lemma minimax_keeps_first_best_witness :
  minimax [2; 2; 1] true = Some (Int 1, Some (2%nat, 1)) ∧
  ∃ pre ns post mv',
    get_successors [2; 2; 1] = pre ++ (2%nat, 1, ns) :: post ∧
    minimax ns false = Some (Int 1, mv').
Proof.
  assert (Hrun : minimax [2; 2; 1] true = Some (Int 1, Some (2%nat, 1)))
    by (vm_compute; reflexivity).
  split; [exact Hrun|].
  destruct (minimax_keeps_first_best [2; 2; 1] true (Int 1) (2%nat, 1) Hrun)
    as (pre & ns & post & mv' & Hs & Hv & _).
  exists pre, ns, post, mv'. split; [exact Hs|exact Hv].
Defined.

(** X7. Whenever the Nim-sum of a well-formed state is not [0], both
    exact solvers return the winning value for the mover together with
    a move, the same for both, that is legal and leaves a position of
    Nim-sum [0]. *)
Theorem exact_solvers_reach_nim_zero (st : list Z) (m : bool) :
  nonneg st → nim_sum st ≠ 0 →
  ∃ mv, minimax st m = Some (Int (if m then 1 else -1), Some mv) ∧
        minimax_ab st NegInf PosInf m = Some (Int (if m then 1 else -1), Some mv) ∧
        legal_move st mv ∧ nim_sum (apply_move st mv) = 0.
Proof.
  intros Hnn Hns.
  destruct (minimax_winning_move st m Hnn) as (mv & ns & Hmm & Hin & Hz).
  { unfold nim_zero. by apply Z.eqb_neq. }
  exists mv. rewrite minimax_ab_full_window by done. split; [done|]. split; [done|].
  apply successor_move_legal in Hin as (Hl & -> & _). split; [done|].
  by apply Z.eqb_eq.
Qed.

Lemma exact_solvers_reach_nim_zero_witness :
  nonneg [1; 2; 4] ∧ nim_sum [1; 2; 4] ≠ 0 ∧
  ∃ mv, minimax [1; 2; 4] true = Some (Int 1, Some mv) ∧
        minimax_ab [1; 2; 4] NegInf PosInf true = Some (Int 1, Some mv) ∧
        legal_move [1; 2; 4] mv ∧ nim_sum (apply_move [1; 2; 4] mv) = 0.
Proof.
  assert (Hst : nonneg [1; 2; 4]) by (repeat constructor; lia).
  assert (Hns : nim_sum [1; 2; 4] ≠ 0) by (vm_compute; discriminate).
  split_and!; [exact Hst|exact Hns|].
  exact (exact_solvers_reach_nim_zero [1; 2; 4] true Hst Hns).
Defined.

(** X8. In a well-formed state of Nim-sum [0] that still holds a token,
    every move loses, and both exact solvers return the first move of
    the enumeration: one token from the first pile that is not empty. *)
Theorem exact_solvers_move_when_lost (st : list Z) (m : bool) (i : nat) (c : Z) :
  nonneg st → nim_sum st = 0 →
  st !! i = Some c → 0 < c → (∀ j, (j < i)%nat → st !! j = Some 0) →
  minimax st m = Some (Int (if m then -1 else 1), Some (i, 1)) ∧
  minimax_ab st NegInf PosInf m = Some (Int (if m then -1 else 1), Some (i, 1)).
Proof.
  intros Hnn Hns Hi Hc Hlow.
  rewrite minimax_ab_full_window by done.
  assert (minimax st m = Some (Int (if m then -1 else 1), Some (i, 1))); [|done].
  apply (minimax_lost_move st m i c); try done.
  - unfold nim_zero. by apply Z.eqb_eq.
  - intros j c' Hj Hc'. rewrite (Hlow j Hj) in Hc'. injection Hc' as <-. lia.
Qed.

Lemma exact_solvers_move_when_lost_witness :
  nonneg [0; 2; 2] ∧ nim_sum [0; 2; 2] = 0 ∧
  minimax [0; 2; 2] true = Some (Int (-1), Some (1%nat, 1)) ∧
  minimax_ab [0; 2; 2] NegInf PosInf true = Some (Int (-1), Some (1%nat, 1)).
Proof.
  assert (Hst : nonneg [0; 2; 2]) by (repeat constructor; lia).
  assert (Hlow : ∀ j, (j < 1)%nat → [0; 2; 2] !! j = Some 0).
  { intros [|j] Hj; [reflexivity|lia]. }
  split; [exact Hst|]. split; [reflexivity|].
  exact (exact_solvers_move_when_lost [0; 2; 2] true 1 2 Hst eq_refl eq_refl
           eq_refl Hlow).
Defined.

(** X9. On a well-formed state the rollout of [simulate] plays moves of
    the game until no token is left, at most as many as there are
    tokens, and its reward only depends on how many it played: [1]
    after an even number of moves, [-1] after an odd number. Each move
    uses one draw of the random source. *)
Theorem simulate_reward_parity (st : list Z) (g : rng) :
  nonneg st →
  ∃ path, rollout (S (tokens st)) st g = Ok path ∧
    play st path ∧ is_terminal (play_end st path) = true ∧
    Z.of_nat (length path) ≤ total st ∧
    simulate st g =
      Ok ((if Nat.even (length path) then 1 else -1),
          Nat.iter (length path) rng_next g).
Proof.
  intros Hnn.
  destruct (simulate_loop_rollout (S (tokens st)) st true g Hnn)
    as (path & Hr & Hplay & Hend & Hlen & Hsim); [lia|].
  exists path. split_and!; try done.
  - assert (0 ≤ total (play_end st path)); [|lia].
    apply is_terminal_true in Hend. clear -Hend.
    induction Hend as [|x l Hx _ IH]; simpl; lia.
  - unfold simulate. rewrite Hsim. by destruct (Nat.even (length path)).
Qed.

Lemma simulate_reward_parity_witness :
  nonneg [1; 2] ∧
  ∃ path, rollout (S (tokens [1; 2])) [1; 2] (λ n, n) = Ok path ∧
    simulate [1; 2] (λ n, n) =
      Ok ((if Nat.even (length path) then 1 else -1),
          Nat.iter (length path) rng_next (λ n, n)).
Proof.
  assert (Hst : nonneg [1; 2]) by (repeat constructor; lia).
  split; [exact Hst|].
  destruct (simulate_reward_parity [1; 2] (λ n, n) Hst) as (path & Hr & _ & _ & _ & Hs).
  exists path. split; [exact Hr|exact Hs].
Defined.

(** X10. After [k] passes of the main loop of [mcts], started from the
    fresh root of any state and with any draws, the arena holds at most
    [k + 1] nodes, the root has been visited exactly [k] times, and
    every node has between [0] and [k] visits and a [wins] total
    between minus its visits and its visits. *)
Theorem mcts_statistics {K : Type} (key_ltb : K → K → bool) (ucb1 : Z → Z → Z → K)
    (st : list Z) (k : nat) (g : rng) (tree : list MCTSNode) (g' : rng) :
  iterations key_ltb ucb1 k ([new_node st None], g) = Ok (tree, g') →
  (length tree ≤ S k)%nat ∧
  (∃ r, tree !! 0%nat = Some r ∧ state r = st ∧ visits r = Z.of_nat k) ∧
  ∀ id n, tree !! id = Some n →
    0 ≤ visits n ≤ Z.of_nat k ∧ - visits n ≤ wins n ≤ visits n.
Proof.
  intros Hit. destruct (new_tree_inv st) as [Hl0 Hv0].
  destruct (new_tree_stats st) as [Hr0 Hs0].
  destruct (iterations_stats key_ltb ucb1 k 0 _ _ _ _ (Z.le_refl 0) Hl0 Hv0 Hr0 Hs0 Hit)
    as (Hlen & (r & Hr & Hv) & Hall).
  rewrite Z.add_0_l in *. split; [lia|]. split; [|done].
  exists r. split; [done|]. split; [|done].
  clear -Hit Hr. revert g Hit.
  assert (Hgen : ∀ (j : nat) (t0 : list MCTSNode) g0 t1 g1 r0 r1,
    iterations key_ltb ucb1 j (t0, g0) = Ok (t1, g1) →
    t0 !! 0%nat = Some r0 → t1 !! 0%nat = Some r1 → state r1 = state r0).
  { induction j as [|j IH]; intros t0 g0 t1 g1 r0 r1 Hj H0 H1.
    - simpl in Hj. injection Hj as <- <-. congruence.
    - cbn [iterations] in Hj.
      destruct (iteration key_ltb ucb1 (t0, g0)) as [[t2 g2]| |] eqn:Hstep; try done.
      cbn [mbind outcome_bind] in Hj.
      assert (∃ r2, t2 !! 0%nat = Some r2 ∧ state r2 = state r0) as (r2 & Hr2 & Hs2).
      { apply iteration_Ok_inv in Hstep as (nd & n & result & _ & Hn &
          [(_ & _ & Hbp)|(i & t & ns & rest & _ & _ & Hbp)]);
          apply backpropagate_effect in Hbp as ([_ Hle] & _).
        - destruct (Hle 0%nat r0 H0) as (r2 & Hr2 & Hs & _). eauto.
        - pose proof (lookup_lt_Some _ _ _ Hn) as Hnd.
          destruct (expanded t0 nd n ns rest !! 0%nat) as [e|] eqn:He.
          + destruct (Hle 0%nat e He) as (r2 & Hr2 & Hs & _). exists r2. split; [done|].
            rewrite Hs. rewrite expanded_lookup in He by done.
            destruct (decide (0%nat = nd)) as [<-|?].
            * injection He as <-. simpl. congruence.
            * destruct (decide (0%nat = length t0)) as [|_]; [lia|]. congruence.
          + apply lookup_ge_None in He. rewrite expanded_length in He. lia. }
      rewrite <- Hs2. by eapply IH. }
  intros g Hit. by apply (Hgen k [new_node st None] g tree g' (new_node st None) r).
Qed.

Lemma mcts_statistics_witness :
  ∃ tree g',
    iterations Z.ltb (λ w v p, w - v + p) 6 ([new_node [1; 2] None], λ n, n)
      = Ok (tree, g') ∧
    (length tree ≤ 7)%nat ∧
    ∃ r, tree !! 0%nat = Some r ∧ state r = [1; 2] ∧ visits r = 6.
Proof.
  destruct (iterations Z.ltb (λ w v p, w - v + p) 6 ([new_node [1; 2] None], λ n, n))
    as [[tree g']| |] eqn:Hit.
  - exists tree, g'. split; [reflexivity|].
    destruct (mcts_statistics _ _ _ _ _ _ _ Hit) as (Hlen & Hr & _).
    split; [exact Hlen|exact Hr].
  - exfalso. vm_compute in Hit. discriminate.
  - exfalso. vm_compute in Hit. discriminate.
Defined.

(** X11. The move [mcts] returns is the move of the input state that
    leads to the state of a most visited child of the root: no child of
    the root has more visits after the last pass. *)
Theorem mcts_picks_most_visited {K : Type} (key_ltb : K → K → bool)
    (ucb1 : Z → Z → Z → K) (st : list Z) (iter_count : Z) (g : rng) (mv : move) :
  mcts key_ltb ucb1 st iter_count g = Ok (Some mv) →
  ∃ tree g' r c cn,
    iterations key_ltb ucb1 (Z.to_nat iter_count) ([new_node st None], g)
      = Ok (tree, g') ∧
    tree !! 0%nat = Some r ∧ c ∈ children r ∧ tree !! c = Some cn ∧
    legal_move st mv ∧ state cn = apply_move st mv ∧
    ∀ c', c' ∈ children r → ∃ cn', tree !! c' = Some cn' ∧ visits cn' ≤ visits cn.
Proof.
  intros H. unfold mcts in H.
  destruct (iterations key_ltb ucb1 (Z.to_nat iter_count) ([new_node st None], g))
    as [[tree g']| |] eqn:Hit; try done.
  cbn [mbind outcome_bind] in H.
  destruct (tree !! 0%nat) as [r|] eqn:Hr;
    [|by unfold get in H; rewrite Hr in H].
  rewrite (proj2 (get_Ok tree 0 r) Hr) in H. cbn [mbind outcome_bind] in H.
  destruct (py_max Z.ltb (λ c, cn ← get tree c; Ok (visits cn)) (children r))
    as [c| |] eqn:Hmax; try done.
  cbn [mbind outcome_bind] in H.
  destruct (tree !! c) as [cn|] eqn:Hcn;
    [|by unfold get in H; rewrite Hcn in H].
  rewrite (proj2 (get_Ok tree c cn) Hcn) in H. cbn [mbind outcome_bind] in H.
  injection H as Hfind. apply find_move_state in Hfind.
  apply py_max_greatest in Hmax as (Hin & kx & Hkx & Hall).
  rewrite (proj2 (get_Ok tree c cn) Hcn) in Hkx. cbn [mbind outcome_bind] in Hkx.
  injection Hkx as <-.
  apply successor_move_legal in Hfind as (Hl & Happ & _).
  exists tree, g', r, c, cn. split_and!; try done.
  intros c' Hc'. destruct (Hall c' Hc') as (ky & Hky & Hle).
  unfold get in Hky. destruct (tree !! c') as [cn'|]; try done.
  cbn [mbind outcome_bind] in Hky. injection Hky as <-. eauto.
Qed.

Lemma mcts_picks_most_visited_witness :
  mcts Z.ltb (λ w v p, w - v + p) [1; 2] 5 (λ n, n) = Ok (Some (1%nat, 2)) ∧
  ∃ tree g' r c cn,
    iterations Z.ltb (λ w v p, w - v + p) (Z.to_nat 5) ([new_node [1; 2] None], λ n, n)
      = Ok (tree, g') ∧
    tree !! 0%nat = Some r ∧ c ∈ children r ∧ tree !! c = Some cn ∧
    state cn = apply_move [1; 2] (1%nat, 2).
Proof.
  assert (Hrun : mcts Z.ltb (λ w v p, w - v + p) [1; 2] 5 (λ n, n)
                 = Ok (Some (1%nat, 2))) by (vm_compute; reflexivity).
  split; [exact Hrun|].
  destruct (mcts_picks_most_visited _ _ _ _ _ _ Hrun)
    as (tree & g' & r & c & cn & Hit & Hr & Hin & Hcn & _ & Hs & _).
  exists tree, g', r, c, cn. split_and!; [exact Hit|exact Hr|exact Hin|exact Hcn|exact Hs].
Defined.

(** X12. The first passes of [mcts] expand the root, one move in each
    pass, from the last move of the enumeration to the first. After
    [k] passes the children of the root are, in the order of their
    creation, the positions of the last [k] moves of the input state,
    last move first, each visited at least once, and the untried moves
    of the root are the moves before them. From [k = sum(state)] on,
    on a well-formed state, every move has its child and the final
    choice is among all of them. *)
Theorem mcts_expands_root_first {K : Type} (key_ltb : K → K → bool)
    (ucb1 : Z → Z → Z → K) (st : list Z) (k : nat) (g : rng)
    (tree : list MCTSNode) (g' : rng) :
  iterations key_ltb ucb1 k ([new_node st None], g) = Ok (tree, g') →
  ∃ r, tree !! 0%nat = Some r ∧
    untried_moves r = take (length (get_successors st) - k) (get_successors st) ∧
    Forall2 (λ c (x : successor), ∃ cn, tree !! c = Some cn ∧ state cn = x.2 ∧
                                        1 ≤ visits cn)
      (children r) (take k (reverse (get_successors st))) ∧
    ((tokens st ≤ k)%nat →
       untried_moves r = [] ∧
       ∀ i t ns, (i, t, ns) ∈ get_successors st →
         ∃ c cn, c ∈ children r ∧ tree !! c = Some cn ∧ state cn = ns).
Proof.
  intros Hit. destruct (new_tree_inv st) as [Hl0 Hv0].
  destruct (iterations_inv key_ltb ucb1 k _ _ _ _ Hl0 Hv0 Hit) as [Hlink Hvis].
  destruct (iterations_root_expanded key_ltb ucb1 st k 0 _ _ _ _ Hl0 Hv0
              (new_tree_expanded st) Hit) as (r & cm & Hr & Hs & Hlen & Hch).
  simpl in Hlen.
  pose proof (f_equal length Hs) as Hm. rewrite length_app, length_reverse in Hm.
  set (m := length (get_successors st)) in *.
  assert (Hu : untried_moves r = take (m - k) (get_successors st)).
  { rewrite Hs. symmetry. apply take_app_length'. lia. }
  assert (Hcm : cm = take k (reverse (get_successors st))).
  { rewrite Hs, reverse_app, reverse_involutive.
    destruct (decide (k ≤ m)%nat).
    - symmetry. apply take_app_length'. lia.
    - rewrite take_ge; [|rewrite length_app, length_reverse; lia].
      assert (untried_moves r = []) as -> by (apply nil_length_inv; lia).
      by rewrite app_nil_r. }
  exists r. split; [done|]. split; [done|]. split.
  - rewrite <- Hcm. apply Forall2_same_length_lookup.
    split; [by eapply Forall2_length|]. intros j c x Hc Hx.
    destruct (Forall2_lookup_lr _ _ _ _ _ _ Hch Hc Hx) as (cn & Hcn & Hst).
    exists cn. split_and!; [done|done|].
    destruct (Hvis 0%nat r Hr) as (_ & Hvc & _).
    destruct (Hvc c (list_elem_of_lookup_2 _ _ _ Hc)) as (cn' & Hcn' & Hv). congruence.
  - intros Hk. rewrite <- length_get_successors in Hk. fold m in Hk.
    assert (Hnil : untried_moves r = []) by (apply nil_length_inv; lia).
    split; [done|]. intros i t ns Hin.
    rewrite Hs, Hnil, app_nil_l, elem_of_reverse in Hin.
    apply list_elem_of_lookup_1 in Hin as [j Hj].
    destruct (Forall2_lookup_r _ _ _ _ _ Hch Hj) as (c & Hc & cn & Hcn & Hst).
    exists c, cn. split_and!; [by eapply list_elem_of_lookup_2|done|done].
Qed.

Lemma mcts_expands_root_first_witness :
  ∃ tree g' r,
    iterations Z.ltb (λ w v p, w - v + p) 6 ([new_node [1; 2] None], λ n, n)
      = Ok (tree, g') ∧
    tree !! 0%nat = Some r ∧ untried_moves r = [] ∧
    Forall2 (λ c (x : successor), ∃ cn, tree !! c = Some cn ∧ state cn = x.2 ∧
                                        1 ≤ visits cn)
      (children r) (take 6 (reverse (get_successors [1; 2]))).
Proof.
  destruct (iterations Z.ltb (λ w v p, w - v + p) 6 ([new_node [1; 2] None], λ n, n))
    as [[tree g']| |] eqn:Hit.
  - destruct (mcts_expands_root_first _ _ _ _ _ _ _ Hit) as (r & Hr & Hu & Hch & _).
    exists tree, g', r. split_and!; [reflexivity|exact Hr|exact Hu|exact Hch].
  - exfalso. vm_compute in Hit. discriminate.
  - exfalso. vm_compute in Hit. discriminate.
Defined.

(** X13. A state has as many moves as it has tokens that can be taken:
    [get_successors] returns one triple for each token of each positive
    pile, [sum(state)] triples on a well-formed state. *)
Theorem get_successors_count (st : list Z) :
  length (get_successors st) = tokens st ∧
  (nonneg st → Z.of_nat (length (get_successors st)) = total st).
Proof.
  split; [apply length_get_successors|].
  intros Hnn. rewrite length_get_successors. by apply tokens_total.
Qed.

(** * Properties of the game loop and the menu *)

(** X14. What the player can do to the board in one turn is a move of
    the game or nothing. At every point of the main loop the board is
    the board the current turn of the player started with, or one of
    its successors; while the player is to move, that successor takes
    its tokens from the row that is picked. The board a turn starts
    with is the initial board or the board the last move of the AI
    left. *)
Theorem player_turn_is_one_move {K : Type} (collidepoint : Rect → Z → Z → bool)
    (key_ltb : K → K → bool) (ucb1 : Z → Z → Z → K) (ai_mode : ai_mode_t)
    (frs : list (list event * rng)) (evs : list event) (v v' : game) :
  main_loop collidepoint key_ltb ucb1 ai_mode new_game frs = Ok (Running v) →
  handle_events collidepoint (draw_matches (gl_state v)) v evs = Ok (Running v') →
  ∃ b, b = turn_board (watch_loop collidepoint key_ltb ucb1 ai_mode
                         (new_watch [1; 3; 5; 7]) new_game frs) ∧
    reach [1; 3; 5; 7] b ∧
    (gl_state v' = b ∨
     ∃ i t, (i, t, gl_state v') ∈ get_successors b ∧
            (gl_turn v' = player → gl_selected_row v' = Some i)).
Proof.
  intros Hloop Hevs.
  assert (Hnn : nonneg [1; 3; 5; 7]) by (repeat constructor; lia).
  pose proof (start_game_inv [1; 3; 5; 7] Hnn eq_refl) as Hinv.
  destruct (main_loop_watch collidepoint key_ltb ucb1 ai_mode _ _ frs Hinv)
    as (s & Hs & Hreach & Hcase).
  change (start_game [1; 3; 5; 7]) with new_game in Hs.
  rewrite Hloop in Hs. injection Hs as <-. destruct Hcase as [Hinv' _].
  eexists. split; [done|]. split; [done|].
  destruct (handle_events_watch collidepoint _ (draw_matches (gl_state v)) v evs Hinv')
    as (s & Hs & Hb & _ & Hcase).
  { destruct (game_inv_state _ _ (proj1 Hinv')) as (_ & <- & _).
    apply draw_matches_rows_ok. }
  rewrite Hevs in Hs. injection Hs as <-. destruct Hcase as [[_ Hg] _].
  rewrite Hb in Hg. destruct (gl_turn v').
  - destruct Hg as [_ Hm]. destruct (gl_selected_row v') as [r|]; simpl in Hm.
    + destruct Hm as [_ [?|[t Ht]]]; [by left|]. right. by exists r, t.
    + by left.
  - destruct Hg as (_ & _ & [?|(i & t & Ht)]); [by left|]. right. by exists i, t.
Qed.

Lemma player_turn_is_one_move_witness :
  ∃ v',
    handle_events rect_contains (draw_matches [1; 3; 5; 7]) new_game
      (click (700, 280) ++ click (400, 540) ++ click (400, 540)) = Ok (Running v') ∧
    gl_state v' = [1; 3; 3; 7] ∧
    ∃ b, b = [1; 3; 5; 7] ∧ reach [1; 3; 5; 7] b ∧
      (gl_state v' = b ∨
       ∃ i t, (i, t, gl_state v') ∈ get_successors b ∧
              (gl_turn v' = player → gl_selected_row v' = Some i)).
Proof.
  eexists. split; [vm_compute; reflexivity|]. split; [reflexivity|].
  apply (player_turn_is_one_move rect_contains Z.ltb (λ w v p, w - v + p) ModeMinimax
           [] (click (700, 280) ++ click (400, 540) ++ click (400, 540)) new_game).
  - reflexivity.
  - vm_compute. reflexivity.
Defined.

(** X15. Against an exact solver ([minimax] or [minimax_ab]) a game
    that starts with the player to move on a board of Nim-sum [0] that
    holds a token, as [[1; 3; 5; 7]] does, ends with "Player Wins!"
    only if some earlier turn of the player was confirmed without a
    token taken. *)
Theorem exact_ai_loses_only_after_a_pass {K : Type}
    (collidepoint : Rect → Z → Z → bool) (key_ltb : K → K → bool)
    (ucb1 : Z → Z → Z → K) (ai_mode : ai_mode_t) (b : list Z)
    (frs : list (list event * rng)) :
  nonneg b → is_terminal b = false → nim_sum b = 0 → exact_mode ai_mode = true →
  main_loop collidepoint key_ltb ucb1 ai_mode (start_game b) frs
    = Ok (Ended PlayerWins) →
  passed (watch_loop collidepoint key_ltb ucb1 ai_mode (new_watch b) (start_game b) frs)
    = true.
Proof.
  intros Hnn Hterm Hns Hmode Hloop.
  pose proof (start_game_inv b Hnn Hterm) as Hinv.
  destruct (main_loop_watch collidepoint key_ltb ucb1 ai_mode _ _ frs Hinv)
    as (s & Hs & _ & Hcase).
  rewrite Hloop in Hs. injection Hs as <-. apply Hcase; [done|].
  intros _. simpl. unfold nim_zero. by apply Z.eqb_eq.
Qed.

Lemma exact_ai_loses_only_after_a_pass_witness :
  main_loop rect_contains Z.ltb (λ w v p, w - v + p) ModeMinimax (start_game [1; 1])
    [(click (700, 120) ++ click (500, 540), λ n, n);
     (click (700, 200) ++ click (400, 540) ++ click (500, 540), λ n, n)]
    = Ok (Ended PlayerWins) ∧
  passed (watch_loop rect_contains Z.ltb (λ w v p, w - v + p) ModeMinimax
            (new_watch [1; 1]) (start_game [1; 1])
            [(click (700, 120) ++ click (500, 540), λ n, n);
             (click (700, 200) ++ click (400, 540) ++ click (500, 540), λ n, n)])
    = true.
Proof.
  assert (Hrun : main_loop rect_contains Z.ltb (λ w v p, w - v + p) ModeMinimax
            (start_game [1; 1])
            [(click (700, 120) ++ click (500, 540), λ n, n);
             (click (700, 200) ++ click (400, 540) ++ click (500, 540), λ n, n)]
          = Ok (Ended PlayerWins)) by (vm_compute; reflexivity).
  split; [exact Hrun|].
  apply (exact_ai_loses_only_after_a_pass rect_contains Z.ltb (λ w v p, w - v + p)
           ModeMinimax [1; 1]); [repeat constructor; lia|reflexivity|reflexivity|
                                 reflexivity|exact Hrun].
Defined.

(** X16. The player can end a turn without taking a token. During a
    turn of the player in which no row is picked yet, a click on the
    button of a row that holds a token followed by a click on
    "Confirm" hands the turn to the AI with the board unchanged,
    whatever was pressed before. Each click is a press and a release
    at one point that hits no other button. *)
Theorem player_can_pass (collidepoint : Rect → Z → Z → bool) (v : game)
    (r : nat) (c : Z) (p q : Z * Z) :
  gl_turn v = player → gl_selected_row v = None →
  gl_state v !! r = Some c → 0 < c →
  (∀ btn row, (btn, row) ∈ draw_matches (gl_state v) →
     collidepoint btn p.1 p.2 = bool_decide (row = r) ∧
     collidepoint btn q.1 q.2 = false) →
  (∀ btn, btn ∈ [new_btn; exit_btn; take_btn; confirm_btn] →
     collidepoint btn p.1 p.2 = false) →
  (∀ btn, btn ∈ [new_btn; exit_btn; take_btn] → collidepoint btn q.1 q.2 = false) →
  collidepoint confirm_btn q.1 q.2 = true →
  handle_events collidepoint (draw_matches (gl_state v)) v (click p ++ click q) =
    Ok (Running {| gl_state := gl_state v; gl_selected_row := None; gl_turn := pc;
                   gl_pressed_row := None; gl_pressed_action := None |}).
Proof.
  destruct v as [st sel trn pr pa], p as [px py], q as [qx qy]. simpl.
  intros -> -> Hc Hpos Hrows Hp Hq Hconf.
  assert (Hp1 : collidepoint new_btn px py = false) by (apply Hp; left).
  assert (Hp2 : collidepoint exit_btn px py = false) by (apply Hp; right; left).
  assert (Hp3 : collidepoint take_btn px py = false)
    by (apply Hp; right; right; left).
  assert (Hp4 : collidepoint confirm_btn px py = false)
    by (apply Hp; right; right; right; left).
  assert (Hq1 : collidepoint new_btn qx qy = false) by (apply Hq; left).
  assert (Hq2 : collidepoint exit_btn qx qy = false) by (apply Hq; right; left).
  assert (Hq3 : collidepoint take_btn qx qy = false)
    by (apply Hq; right; right; left).
  assert (Hrp : ∀ btn row, (btn, row) ∈ draw_matches st →
            collidepoint btn px py = bool_decide (row = r)).
  { intros btn row H. by apply Hrows. }
  assert (Hrq : ∀ btn row, (btn, row) ∈ draw_matches st →
            collidepoint btn qx qy = false).
  { intros btn row H. by apply (Hrows btn row). }
  assert (Hin : bool_decide (r ∈ (draw_matches st).*2) = true).
  { apply bool_decide_eq_true_2. destruct (draw_matches_has st r c Hc) as [btn Hb].
    apply list_elem_of_fmap. by exists (btn, r). }
  assert (Hterm : is_terminal st = false).
  { destruct (is_terminal st) eqn:E; [|done].
    apply is_terminal_true in E. rewrite list.Forall_forall in E.
    specialize (E c (list_elem_of_lookup_2 _ _ _ Hc)). lia. }
  unfold click. cbn [app handle_events handle_event].
  rewrite (press_row_only collidepoint _ st px py pr r c Hrp Hc Hpos), Hin.
  cbn [mbind outcome_bind gl_state gl_selected_row gl_turn gl_pressed_row
       gl_pressed_action].
  rewrite Hp1, Hp2. cbn [andb]. unfold player_release.
  cbn [gl_state gl_selected_row gl_turn gl_pressed_row gl_pressed_action].
  rewrite (pick_row_only collidepoint _ st px py None r c Hrp Hc Hpos), Hin.
  rewrite Hp3, Hp4. cbn [mbind outcome_bind andb gl_state gl_selected_row gl_turn
                         gl_pressed_row gl_pressed_action].
  rewrite (press_row_none collidepoint _ st qx qy None Hrq).
  cbn [mbind outcome_bind gl_state gl_selected_row gl_turn gl_pressed_row
       gl_pressed_action].
  unfold press_action. rewrite Hq1, Hq2, Hq3, Hconf. cbn [andb].
  rewrite (bool_decide_eq_true_2 (Some ActConfirm = Some ActConfirm)) by done.
  rewrite (bool_decide_eq_true_2 (is_Some (Some r))) by eauto.
  cbn [andb mbind outcome_bind]. rewrite Hterm.
  cbn [mbind outcome_bind gl_state gl_selected_row gl_turn gl_pressed_row
       gl_pressed_action]. done.
Qed.

Lemma player_can_pass_witness :
  handle_events rect_contains (draw_matches [1; 3; 5; 7]) new_game
    (click (700, 120) ++ click (500, 540)) =
  Ok (Running {| gl_state := [1; 3; 5; 7]; gl_selected_row := None; gl_turn := pc;
                 gl_pressed_row := None; gl_pressed_action := None |}).
Proof.
  apply (player_can_pass rect_contains new_game 0 1 (700, 120) (500, 540));
    try reflexivity; try lia.
  - intros btn row H. cbv in H.
    repeat (apply elem_of_cons in H as [H|H];
            [injection H as -> ->; split; reflexivity|]).
    by apply elem_of_nil in H.
  - intros btn H.
    repeat (apply elem_of_cons in H as [->|H]; [reflexivity|]).
    by apply elem_of_nil in H.
  - intros btn H.
    repeat (apply elem_of_cons in H as [->|H]; [reflexivity|]).
    by apply elem_of_nil in H.
Defined.

(** X17. With a pass the player beats the exact solvers from the
    initial board. With the hit test [rect_contains], the player picks
    row 1 and confirms without taking a token; the AI, in a position
    where every move loses, takes one token; from then on the player
    each time leaves a board of Nim-sum [0], and the game ends with
    "Player Wins!". This holds for [minimax] and for [minimax_ab]. *)
Theorem player_beats_exact_ai_by_passing {K : Type} (key_ltb : K → K → bool)
    (ucb1 : Z → Z → Z → K) (ai_mode : ai_mode_t) (g : rng) :
  exact_mode ai_mode = true →
  main_loop rect_contains key_ltb ucb1 ai_mode new_game
    ((λ evs, (evs, g)) <$>
       [turn_clicks 0 0; turn_clicks 1 1; turn_clicks 3 3; turn_clicks 2 1;
        turn_clicks 3 1; turn_clicks 3 1; turn_clicks 3 1; turn_clicks 3 1])
  = Ok (Ended PlayerWins).
Proof.
  intros Hmode.
  assert (Hlost : ∀ (v v1 : game) (evs : list event) (i : nat) (c : Z) (st' : list Z),
    handle_events rect_contains (draw_matches (gl_state v)) v evs = Ok (Running v1) →
    gl_turn v1 = pc → Forall (λ h, 0 ≤ h) (gl_state v1) →
    nim_zero (gl_state v1) = true →
    gl_state v1 !! i = Some c → (0 <? c) = true →
    Forall (λ h, h = 0) (take i (gl_state v1)) →
    <[i := c - 1]> (gl_state v1) = st' → is_terminal st' = false →
    frame rect_contains key_ltb ucb1 ai_mode v (evs, g) =
      Ok (Running {| gl_state := st'; gl_selected_row := None; gl_turn := player;
                     gl_pressed_row := gl_pressed_row v1;
                     gl_pressed_action := gl_pressed_action v1 |})).
  { intros v v1 evs i c st' Hevs Hturn Hnn Hz Hi Hc Hlow Hst Hterm.
    rewrite (frame_exact_lost rect_contains key_ltb ucb1 ai_mode v v1 evs g i c);
      try done.
    - by rewrite Hst, Hterm.
    - by apply Z.ltb_lt.
    - intros j Hj. rewrite list.Forall_forall in Hlow.
      destruct (gl_state v1 !! j) as [x|] eqn:Hx.
      + f_equal. apply Hlow. apply (list_elem_of_lookup_2 _ j).
        by rewrite lookup_take_lt.
      + apply lookup_ge_None in Hx. apply lookup_lt_Some in Hi. lia. }
  cbn [fmap list_fmap main_loop].
  rewrite (Hlost new_game
             {| gl_state := [1; 3; 5; 7]; gl_selected_row := None; gl_turn := pc;
                gl_pressed_row := None; gl_pressed_action := None |}
             _ 0%nat 1 [0; 3; 5; 7]);
    [|vm_compute; reflexivity|reflexivity|repeat constructor; lia|reflexivity
     |reflexivity|reflexivity|repeat constructor|reflexivity|reflexivity].
  cbn [mbind outcome_bind gl_pressed_row gl_pressed_action].
  rewrite (Hlost _
             {| gl_state := [0; 2; 5; 7]; gl_selected_row := None; gl_turn := pc;
                gl_pressed_row := None; gl_pressed_action := None |}
             _ 1%nat 2 [0; 1; 5; 7]);
    [|vm_compute; reflexivity|reflexivity|repeat constructor; lia|reflexivity
     |reflexivity|reflexivity|repeat constructor|reflexivity|reflexivity].
  cbn [mbind outcome_bind gl_pressed_row gl_pressed_action].
  rewrite (Hlost _
             {| gl_state := [0; 1; 5; 4]; gl_selected_row := None; gl_turn := pc;
                gl_pressed_row := None; gl_pressed_action := None |}
             _ 1%nat 1 [0; 0; 5; 4]);
    [|vm_compute; reflexivity|reflexivity|repeat constructor; lia|reflexivity
     |reflexivity|reflexivity|repeat constructor|reflexivity|reflexivity].
  cbn [mbind outcome_bind gl_pressed_row gl_pressed_action].
  rewrite (Hlost _
             {| gl_state := [0; 0; 4; 4]; gl_selected_row := None; gl_turn := pc;
                gl_pressed_row := None; gl_pressed_action := None |}
             _ 2%nat 4 [0; 0; 3; 4]);
    [|vm_compute; reflexivity|reflexivity|repeat constructor; lia|reflexivity
     |reflexivity|reflexivity|repeat constructor|reflexivity|reflexivity].
  cbn [mbind outcome_bind gl_pressed_row gl_pressed_action].
  rewrite (Hlost _
             {| gl_state := [0; 0; 3; 3]; gl_selected_row := None; gl_turn := pc;
                gl_pressed_row := None; gl_pressed_action := None |}
             _ 2%nat 3 [0; 0; 2; 3]);
    [|vm_compute; reflexivity|reflexivity|repeat constructor; lia|reflexivity
     |reflexivity|reflexivity|repeat constructor|reflexivity|reflexivity].
  cbn [mbind outcome_bind gl_pressed_row gl_pressed_action].
  rewrite (Hlost _
             {| gl_state := [0; 0; 2; 2]; gl_selected_row := None; gl_turn := pc;
                gl_pressed_row := None; gl_pressed_action := None |}
             _ 2%nat 2 [0; 0; 1; 2]);
    [|vm_compute; reflexivity|reflexivity|repeat constructor; lia|reflexivity
     |reflexivity|reflexivity|repeat constructor|reflexivity|reflexivity].
  cbn [mbind outcome_bind gl_pressed_row gl_pressed_action].
  rewrite (Hlost _
             {| gl_state := [0; 0; 1; 1]; gl_selected_row := None; gl_turn := pc;
                gl_pressed_row := None; gl_pressed_action := None |}
             _ 2%nat 1 [0; 0; 0; 1]);
    [|vm_compute; reflexivity|reflexivity|repeat constructor; lia|reflexivity
     |reflexivity|reflexivity|repeat constructor|reflexivity|reflexivity].
  cbn [mbind outcome_bind gl_pressed_row gl_pressed_action].
  unfold frame.
  assert (Hlast : handle_events rect_contains (draw_matches [0; 0; 0; 1])
            {| gl_state := [0; 0; 0; 1]; gl_selected_row := None; gl_turn := player;
               gl_pressed_row := None; gl_pressed_action := None |}
            (turn_clicks 3 1) = Ok (Ended PlayerWins)) by (vm_compute; reflexivity).
  cbn [gl_state fst snd]. rewrite Hlast. reflexivity.
Qed.

Lemma player_beats_exact_ai_by_passing_witness :
  exact_mode ModeMinimaxAB = true ∧
  main_loop rect_contains Z.ltb (λ w v p, w - v + p) ModeMinimaxAB new_game
    ((λ evs, (evs, λ n : nat, n)) <$>
       [turn_clicks 0 0; turn_clicks 1 1; turn_clicks 3 3; turn_clicks 2 1;
        turn_clicks 3 1; turn_clicks 3 1; turn_clicks 3 1; turn_clicks 3 1])
  = Ok (Ended PlayerWins).
Proof.
  split; [reflexivity|].
  exact (player_beats_exact_ai_by_passing Z.ltb (λ w v p, w - v + p) ModeMinimaxAB
           (λ n, n) eq_refl).
Defined.

(** X18. The menu returns a mode only for a click on its button: the
    events handled up to the return end with a press that hit the
    button, events other than releases and presses that hit no menu
    button, and a release that hit the same button. Conversely a press
    and a release at a point that hits a button, and no button after
    it in the list, return the mode of that button. *)
Theorem menu_returns_clicked_mode (collidepoint : Rect → Z → Z → bool) :
  (∀ frs mode,
     (draw_ai_menu collidepoint frs).1 = MenuReturn mode →
     ∃ pre x y mid x' y' post btn idx,
       mjoin (frs.*1) = pre ++ MOUSEBUTTONDOWN (x, y) :: mid
                            ++ MOUSEBUTTONUP (x', y') :: post ∧
       Forall (menu_idle collidepoint) mid ∧
       (btn, mode, idx) ∈ menu_rects ∧ options !! idx = Some mode ∧
       collidepoint btn x y = true ∧ collidepoint btn x' y' = true) ∧
  (∀ btn mode idx x y p,
     (btn, mode, idx) ∈ menu_rects → collidepoint btn x y = true →
     (∀ btn' mode' idx', (btn', mode', idx') ∈ menu_rects → (idx < idx')%nat →
        collidepoint btn' x y = false) →
     menu_events collidepoint p (click (x, y)) = MenuReturn mode).
Proof.
  split.
  - intros frs mode Hret. unfold draw_ai_menu in Hret.
    rewrite draw_ai_menu_from_events in Hret.
    destruct (menu_events_return collidepoint [] (mjoin (frs.*1)) None mode)
      as (pre & x & y & mid & x' & y' & post & btn & idx & Heq & Hmid & _ & Hin & Hc & Hc');
      [done|done|].
    exists pre, x, y, mid, x', y', post, btn, idx. split_and!; try done.
    clear -Hin. cbv in Hin.
    repeat (apply elem_of_cons in Hin as [Hin|Hin]; [by simplify_eq|]).
    by apply elem_of_nil in Hin.
  - intros btn mode idx x y p Hin Hc Hlater.
    assert (H0 : (btn, mode, idx) = (draw_button 250 200 300 60, ModeMinimax, 0%nat) ∨
                 (btn, mode, idx) = (draw_button 250 280 300 60, ModeMinimaxAB, 1%nat) ∨
                 (btn, mode, idx) = (draw_button 250 360 300 60, ModeMcts, 2%nat)).
    { clear -Hin. cbv in Hin.
      repeat (apply elem_of_cons in Hin as [Hin|Hin]; [by auto|]).
      by apply elem_of_nil in Hin. }
    assert (H1 : (1 ≤ idx)%nat ∨ collidepoint (draw_button 250 200 300 60) x y = true)
      by (destruct H0 as [?|[?|?]]; simplify_eq; auto with lia).
    assert (H2 : (idx < 1)%nat → collidepoint (draw_button 250 280 300 60) x y = false).
    { intros. apply (Hlater _ ModeMinimaxAB 1%nat); [|done]. right. left. }
    assert (H3 : (idx < 2)%nat → collidepoint (draw_button 250 360 300 60) x y = false).
    { intros. apply (Hlater _ ModeMcts 2%nat); [|done]. right. right. left. }
    unfold click. cbn [menu_events menu_event].
    change (menu_rects) with
      [(draw_button 250 200 300 60, ModeMinimax, 0%nat);
       (draw_button 250 280 300 60, ModeMinimaxAB, 1%nat);
       (draw_button 250 360 300 60, ModeMcts, 2%nat)].
    cbn [menu_press menu_release].
    destruct H0 as [?|[?|?]]; simplify_eq.
    + rewrite Hc, H2, H3 by lia. by cbn.
    + rewrite Hc, H3 by lia.
      destruct (collidepoint (draw_button 250 200 300 60) x y); by cbn.
    + rewrite Hc.
      destruct (collidepoint (draw_button 250 200 300 60) x y),
               (collidepoint (draw_button 250 280 300 60) x y); by cbn.
Qed.

Lemma menu_returns_clicked_mode_witness :
  (draw_ai_menu rect_contains [(click (300, 300), λ n, n)]).1 = MenuReturn ModeMinimaxAB ∧
  ∃ pre x y mid x' y' post btn idx,
    mjoin ([(click (300, 300), λ n : nat, n)].*1)
      = pre ++ MOUSEBUTTONDOWN (x, y) :: mid ++ MOUSEBUTTONUP (x', y') :: post ∧
    Forall (menu_idle rect_contains) mid ∧
    (btn, ModeMinimaxAB, idx) ∈ menu_rects ∧ options !! idx = Some ModeMinimaxAB ∧
    rect_contains btn x y = true ∧ rect_contains btn x' y' = true.
Proof.
  assert (Hrun : (draw_ai_menu rect_contains [(click (300, 300), λ n, n)]).1
                 = MenuReturn ModeMinimaxAB) by (vm_compute; reflexivity).
  split; [exact Hrun|].
  exact (proj1 (menu_returns_clicked_mode rect_contains) _ _ Hrun).
Defined.


(** X20. With the default factor [0.8], [darken_color] maps a colour
    whose channels lie between [0] and [255] to a colour of the same
    kind: each channel [c] becomes the integer part of [4 * c / 5],
    which the floating-point product yields exactly, and no conversion
    raises. *)
Theorem darken_color_8bit (color : list Z) :
  Forall (λ c, 0 ≤ c ≤ 255) color →
  darken_color color factor_default = Some ((λ c, 4 * c / 5) <$> color) ∧
  Forall2 (λ c d, 0 ≤ d ≤ c) color ((λ c, 4 * c / 5) <$> color).
Proof.
  intros Hall. split.
  - unfold darken_color. apply mapM_Some. induction Hall as [|c color Hc _ IH]; [done|].
    simpl. constructor; [|done].
    rewrite (darken_channel_8bit c Hc). simpl. f_equal.
    assert (0 ≤ 4 * c / 5) by (apply Z.div_pos; lia). lia.
  - induction Hall as [|c color Hc _ IH]; simpl; constructor; [|done].
    split; [apply Z.div_pos; lia|]. apply Z.div_le_upper_bound; lia.
Qed.

Lemma darken_color_8bit_witness :
  Forall (λ c, 0 ≤ c ≤ 255) [41; 48; 76] ∧
  darken_color [41; 48; 76] factor_default = Some [32; 38; 60].
Proof.
  assert (Hc : Forall (λ c, 0 ≤ c ≤ 255) [41; 48; 76]) by (repeat constructor; lia).
  split; [exact Hc|]. exact (proj1 (darken_color_8bit [41; 48; 76] Hc)).
Defined.

(** X21. The buttons never overlap: on the game screen of a board of
    any size, and in the menu, a point lies in at most one button, so
    a click acts on at most one of them. On a board of at most six
    rows, as on the board of four rows of the program, every button
    lies inside the window of 800 by 600. A point lies in a rectangle
    when it is inside it, the right and bottom edges left out. *)
Theorem buttons_do_not_overlap (st : list Z) (x y : Z) :
  (∀ i j b b', game_buttons st !! i = Some b → game_buttons st !! j = Some b' →
     rect_contains b x y = true → rect_contains b' x y = true → i = j) ∧
  (∀ i j b b', menu_buttons !! i = Some b → menu_buttons !! j = Some b' →
     rect_contains b x y = true → rect_contains b' x y = true → i = j) ∧
  ((length st ≤ 6)%nat →
   ∀ b, b ∈ game_buttons st ++ menu_buttons → rect_contains b x y = true →
     0 ≤ x < WIDTH ∧ 0 ≤ y < HEIGHT).
Proof.
  assert (Hgame : ∀ i b, game_buttons st !! i = Some b → rect_contains b x y = true →
    ((i < length st)%nat ∧ 680 ≤ x < 780 ∧
       110 + 80 * Z.of_nat i ≤ y < 150 + 80 * Z.of_nat i) ∨
    (∃ k, i = (length st + k)%nat ∧ (k < 4)%nat ∧ 520 ≤ y < 560 ∧
          ((k = 0%nat ∧ 40 ≤ x < 160) ∨ (k = 1%nat ∧ 180 ≤ x < 320) ∨
           (k = 2%nat ∧ 340 ≤ x < 460) ∨ (k = 3%nat ∧ 480 ≤ x < 600)))).
  { intros i b Hb Hc. apply rect_contains_spec in Hc. unfold game_buttons in Hb.
    assert (Hlen : length (draw_matches st).*1 = length st).
    { rewrite length_fmap. unfold draw_matches.
      assert (∀ rows y0, length (draw_rows rows y0) = length rows) as ->.
      { induction rows as [|[r c] rows IH]; intros y0; simpl; [done|]. by rewrite IH. }
      unfold enumerate. by rewrite length_imap. }
    apply lookup_app_Some in Hb as [Hb|[Hge Hb]].
    - apply draw_matches_lookup in Hb as [Hi ->]. simpl in Hc. left. lia.
    - right. rewrite Hlen in Hge, Hb. exists (i - length st)%nat.
      split; [lia|]. destruct (i - length st)%nat as [|[|[|[|k]]]]; try done;
        injection Hb as <-; simpl in Hc; (split; [lia|]); (split; [lia|]).
      + left. lia.
      + right. left. lia.
      + right. right. left. lia.
      + right. right. right. lia. }
  assert (Hmenu : ∀ i b, menu_buttons !! i = Some b → rect_contains b x y = true →
    (i < 3)%nat ∧ 250 ≤ x < 550 ∧ 200 + 80 * Z.of_nat i ≤ y < 260 + 80 * Z.of_nat i).
  { intros i b Hb Hc. apply rect_contains_spec in Hc.
    destruct i as [|[|[|i]]]; try done; injection Hb as <-; simpl in Hc; lia. }
  split_and!.
  - intros i j b b' Hb Hb' Hc Hc'.
    destruct (Hgame i b Hb Hc) as [?|(k & -> & ? & ? & ?)],
             (Hgame j b' Hb' Hc') as [?|(k' & -> & ? & ? & ?)]; lia.
  - intros i j b b' Hb Hb' Hc Hc'.
    pose proof (Hmenu i b Hb Hc). pose proof (Hmenu j b' Hb' Hc'). lia.
  - intros Hlen b Hin Hc. unfold WIDTH, HEIGHT.
    apply elem_of_app in Hin as [Hin|Hin]; apply list_elem_of_lookup_1 in Hin as [i Hi].
    + destruct (Hgame i b Hi Hc) as [?|(k & -> & ? & ? & ?)]; lia.
    + pose proof (Hmenu i b Hi Hc). lia.
Qed.

Lemma buttons_do_not_overlap_witness :
  (length [1; 3; 5; 7] ≤ 6)%nat ∧
  ∀ b, b ∈ game_buttons [1; 3; 5; 7] ++ menu_buttons →
    rect_contains b 700 120 = true → 0 ≤ 700 < WIDTH ∧ 0 ≤ 120 < HEIGHT.
Proof.
  assert (Hlen : (length [1; 3; 5; 7] ≤ 6)%nat) by (simpl; lia).
  split; [exact Hlen|].
  exact (proj2 (proj2 (buttons_do_not_overlap [1; 3; 5; 7] 700 120)) Hlen).
Defined.
